(** * heytom-gateway: a shallow embedding of the gateway core

    The development follows the Go sources of the gateway:
    - [GoInt], [GoStrings]: the fragments of Go's integer and [strings]
      semantics the gateway relies on;
    - [Registry]: the service instance record (internal/registry);
    - [Balancer]: the round-robin and weighted load balancers;
    - [Pool]: the connection pool;
    - [Loader]: the descriptor loader, its loads and its lookups;
    - [HttpProxy]: the HTTP to gRPC transcoder;
    - [HttpIngress]: [ParseHTTPRequest] and the HTTP handler;
    - [GrpcIngress]: the unknown-service handler and the stream forwarder's
      entry point;
    - [HotReload]: the hot-reload manager of descriptor sets. *)

From Stdlib Require Import ZArith Ascii String Lia List.
From Stdlib Require Import Init.Byte DecimalString.
From stdpp Require Import base option list gmap strings.

Local Open Scope Z_scope.
#[local] Set Warnings "-register-all".

(** ** Go's machine integers

    The gateway is built for 64-bit targets: [int] is a signed and
    [uint64] an unsigned 64-bit integer, both wrapping silently. *)
Module GoInt.

Definition uint64_modulus : Z := 2 ^ 64.
Definition max_int : Z := 2 ^ 63 - 1.
Definition min_int : Z := - 2 ^ 63.

(** Reduction of a mathematical integer to the [uint64] it is stored as. *)
Definition wrap_uint64 (z : Z) : Z := z mod uint64_modulus.

(** Reduction of a mathematical integer to the [int] it is stored as
    (two's complement). *)
Definition wrap_int (z : Z) : Z :=
  (z + 2 ^ 63) mod uint64_modulus - 2 ^ 63.

(** The conversion [int(x)] of a [uint64] value. *)
Definition int_of_uint64 (u : Z) : Z := wrap_int u.

(** [a + b] on [int]. *)
Definition int_add (a b : Z) : Z := wrap_int (a + b).

(** [a % b] on [int], for [b <> 0]: the remainder of the division
    truncated towards zero, with the sign of the dividend. *)
Definition int_rem (a b : Z) : Z := Z.rem a b.

(** [atomic.AddUint64(&c, 1)]: the new value, which is also returned. *)
Definition AddUint64_1 (c : Z) : Z := wrap_uint64 (c + 1).

Definition is_int (z : Z) : bool := (min_int <=? z) && (z <=? max_int).

End GoInt.

(** ** Go's [strings] package, for a one-byte separator or cutset *)
Module GoStrings.

Local Open Scope string_scope.

Definition is_byte (sep c : ascii) : bool := Ascii.eqb c sep.

(** [strings.TrimLeft(s, string(sep))] *)
Fixpoint TrimLeft (s : string) (sep : ascii) : string :=
  match s with
  | EmptyString => EmptyString
  | String c s' => if is_byte sep c then TrimLeft s' sep else s
  end.

(** [strings.TrimRight(s, string(sep))] *)
Fixpoint TrimRight (s : string) (sep : ascii) : string :=
  match s with
  | EmptyString => EmptyString
  | String c s' =>
      match TrimRight s' sep with
      | EmptyString => if is_byte sep c then EmptyString else String c EmptyString
      | r => String c r
      end
  end.

(** [strings.Trim(s, string(sep))]: all leading and trailing [sep] removed. *)
Definition Trim (s : string) (sep : ascii) : string :=
  TrimRight (TrimLeft s sep) sep.

(** [strings.TrimPrefix(s, string(sep))]: at most one leading [sep] removed. *)
Definition TrimPrefix (s : string) (sep : ascii) : string :=
  match s with
  | String c s' => if is_byte sep c then s' else s
  | EmptyString => EmptyString
  end.

(** [strings.Split(s, string(sep))]: the substrings between the separators;
    never empty, [Split "" sep = [""]]. *)
Fixpoint Split (s : string) (sep : ascii) : list string :=
  match s with
  | EmptyString => [EmptyString]
  | String c s' =>
      if is_byte sep c then EmptyString :: Split s' sep
      else match Split s' sep with
           | p :: ps => String c p :: ps
           | [] => [String c EmptyString]
           end
  end.

(** [strings.Index(s, string(sep))]: the position of the first [sep], or -1. *)
Fixpoint Index (s : string) (sep : ascii) : Z :=
  match s with
  | EmptyString => (-1)%Z
  | String c s' =>
      if is_byte sep c then 0%Z
      else let i := Index s' sep in if (i <? 0)%Z then (-1)%Z else (i + 1)%Z
  end.

(** The slices [s[:n]] and [s[n:]], for [0 <= n <= len(s)]. *)
Fixpoint slice_to (s : string) (n : nat) {struct n} : string :=
  match n, s with
  | S n', String c s' => String c (slice_to s' n')
  | _, _ => EmptyString
  end.

Fixpoint slice_from (s : string) (n : nat) {struct n} : string :=
  match n, s with
  | S n', String _ s' => slice_from s' n'
  | _, _ => s
  end.

Definition contains (s : string) (sep : ascii) : bool := (0 <=? Index s sep)%Z.

End GoStrings.

(** ** Results of Go calls that may panic *)
Module GoRun.

Inductive Go (A : Type) : Type :=
| Ret (a : A)
| Panic (reason : string).
Arguments Ret {A} a.
Arguments Panic {A} reason.

Definition go_map {A B} (f : A -> B) (r : Go A) : Go B :=
  match r with
  | Ret a => Ret (f a)
  | Panic reason => Panic reason
  end.

Definition is_panic {A} (r : Go A) : bool :=
  match r with Panic _ => true | Ret _ => false end.

(** [len(l)] as an [int]. *)
Definition len {A} (l : list A) : Z := Z.of_nat (length l).

(** [l[i]] for an [int] index: a run-time panic outside [0 <= i < len(l)]. *)
Definition go_index {A} (l : list A) (i : Z) : Go A :=
  if (i <? 0) || (len l <=? i) then Panic "index out of range"
  else match l !! Z.to_nat i with
       | Some x => Ret x
       | None => Panic "index out of range"
       end.

End GoRun.

(** ** Service instances (internal/registry/registry.go) *)
Module Registry.

(** [Metadata] is a Go map, [None] when it is the nil map. *)
Record ServiceInstance := mkServiceInstance {
  ID : string;
  Name : string;
  Version : string;
  Address : string;
  Port : Z;
  Metadata : option (gmap string string);
  Tags : list string
}.

End Registry.

(** ** Load balancers *)
Module Balancer.

Import GoInt GoRun Registry.
Local Open Scope string_scope.

(** The [LoadBalancer] interface: [Select] over the balancer's state. A
    selection yields an instance or nil, or panics; the state it leaves is
    returned in both cases. *)
Class LoadBalancer (B : Type) := {
  Select : B -> list ServiceInstance -> B * Go (option ServiceInstance)
}.

(** [k] consecutive single-threaded selections over a fixed list. *)
Fixpoint Selects `{LoadBalancer B} (k : nat) (lb : B)
    (instances : list ServiceInstance) : list (Go (option ServiceInstance)) :=
  match k with
  | O => []
  | S k' =>
      let '(lb', r) := Select lb instances in
      r :: Selects k' lb' instances
  end.

(** The balancer these selections leave behind. *)
Fixpoint after_Selects `{LoadBalancer B} (k : nat) (lb : B)
    (instances : list ServiceInstance) : B :=
  match k with
  | O => lb
  | S k' => after_Selects k' (fst (Select lb instances)) instances
  end.

(** *** Round-robin *)
Record RoundRobinLoadBalancer := mkRoundRobin { rr_counter : Z }.

Definition NewRoundRobinLoadBalancer : RoundRobinLoadBalancer :=
  {| rr_counter := 0 |}.

Definition RoundRobin_Select (lb : RoundRobinLoadBalancer)
    (instances : list ServiceInstance)
  : RoundRobinLoadBalancer * Go (option ServiceInstance) :=
  if (len instances =? 0)%Z then (lb, Ret None)
  else
    let index := AddUint64_1 (rr_counter lb) in
    ({| rr_counter := index |},
     go_map Some (go_index instances (int_rem (int_of_uint64 index) (len instances)))).

#[export] Instance RoundRobin_LoadBalancer : LoadBalancer RoundRobinLoadBalancer :=
  {| Select := RoundRobin_Select |}.

(** The index expression of one round-robin selection, and the indices of
    [k] consecutive ones. *)
Definition RoundRobin_position (lb : RoundRobinLoadBalancer)
    (instances : list ServiceInstance) : Z :=
  int_rem (int_of_uint64 (AddUint64_1 (rr_counter lb))) (len instances).

Fixpoint RoundRobin_positions (k : nat) (lb : RoundRobinLoadBalancer)
    (instances : list ServiceInstance) : list Z :=
  match k with
  | O => []
  | S k' =>
      RoundRobin_position lb instances ::
      RoundRobin_positions k' (fst (RoundRobin_Select lb instances)) instances
  end.

(** *** Weighted *)
Record WeightedLoadBalancer := mkWeighted { w_counter : Z }.

Definition NewWeightedLoadBalancer : WeightedLoadBalancer :=
  {| w_counter := 0 |}.

Section Weighted.

(** [scan s] is the integer [fmt.Sscanf(s, "%d", ...)] reads off the front
    of [s], [None] when it reads none. *)
Variable scan : string -> option Z.

(** [fmt.Sscanf(weightStr, "%d", &weight)] for [weight] an [int]: a number
    that does not fit the [int] is an error. *)
Definition Sscanf_int (weightStr : string) : option Z :=
  match scan weightStr with
  | Some v => if is_int v then Some v else None
  | None => None
  end.

Definition getWeight (instance : ServiceInstance) : Z :=
  match Metadata instance with
  | None => 1
  | Some metadata =>
      match metadata !! "weight" with
      | Some weightStr =>
          match Sscanf_int weightStr with
          | Some weight => if (0 <? weight)%Z then weight else 1
          | None => 1
          end
      | None => 1
      end
  end.

(** The weight entry is missing, unparseable or not positive. *)
Definition weight_defaulted (instance : ServiceInstance) : Prop :=
  match Metadata instance with
  | None => True
  | Some metadata =>
      match metadata !! "weight" with
      | None => True
      | Some weightStr =>
          match Sscanf_int weightStr with
          | None => True
          | Some weight => (weight <= 0)%Z
          end
      end
  end.

(** The first loop of [Select]: [totalWeight += weight] over the list. *)
Definition totalWeight_of (instances : list ServiceInstance) : Z :=
  fold_left (fun totalWeight instance => int_add totalWeight (getWeight instance))
            instances 0.

(** The second loop: accumulate, return at the first instance whose
    cumulative weight exceeds [offset]; [None] when the loop runs out. *)
Fixpoint walk (offset currentWeight : Z) (instances : list ServiceInstance)
  : option ServiceInstance :=
  match instances with
  | [] => None
  | instance :: rest =>
      let currentWeight := int_add currentWeight (getWeight instance) in
      if (offset <? currentWeight)%Z then Some instance
      else walk offset currentWeight rest
  end.

Definition Weighted_Select (lb : WeightedLoadBalancer)
    (instances : list ServiceInstance)
  : WeightedLoadBalancer * Go (option ServiceInstance) :=
  if (len instances =? 0)%Z then (lb, Ret None)
  else
    let totalWeight := totalWeight_of instances in
    if (totalWeight =? 0)%Z then
      let index := AddUint64_1 (w_counter lb) in
      ({| w_counter := index |},
       go_map Some (go_index instances (int_rem (int_of_uint64 index) (len instances))))
    else
      let index := AddUint64_1 (w_counter lb) in
      let offset := int_rem (int_of_uint64 index) totalWeight in
      ({| w_counter := index |},
       match walk offset 0 instances with
       | Some instance => Ret (Some instance)
       | None => go_map Some (go_index instances 0)
       end).

#[export] Instance Weighted_LoadBalancer : LoadBalancer WeightedLoadBalancer :=
  {| Select := Weighted_Select |}.

(** The weights as mathematical integers, their sum and running sums. *)
Definition weight_sum (instances : list ServiceInstance) : Z :=
  fold_right (fun instance s => getWeight instance + s)%Z 0%Z instances.

(** The position at which the walk of the specification stops: the first
    position whose cumulative (mathematical) weight strictly exceeds
    [offset]. *)
Fixpoint first_exceeding (offset : Z) (instances : list ServiceInstance)
  : option nat :=
  match instances with
  | [] => None
  | instance :: rest =>
      if (offset <? getWeight instance)%Z then Some O
      else S <$> first_exceeding (offset - getWeight instance) rest
  end.

(** The selection as the specification words it: advance the counter, take
    [offset = counter mod total_weight], walk to the first instance whose
    cumulative weight strictly exceeds it. *)
Definition spec_position (counter : Z) (instances : list ServiceInstance)
  : option nat :=
  first_exceeding ((counter + 1) mod weight_sum instances) instances.

(** The positions chosen by [k] consecutive selections of the
    specification, from counter value [counter]. *)
Fixpoint spec_positions (k : nat) (counter : Z)
    (instances : list ServiceInstance) : list (option nat) :=
  match k with
  | O => []
  | S k' => spec_position counter instances ::
            spec_positions k' (counter + 1) instances
  end.

(** How often position [i] occurs among the chosen positions. *)
Definition times_chosen (i : nat) (positions : list (option nat)) : nat :=
  count_occ option_eq_dec positions (Some i).

(** The instance a chosen position stands for. *)
Definition at_position (instances : list ServiceInstance) (p : option nat)
  : option ServiceInstance :=
  match p with
  | Some i => instances !! i
  | None => None
  end.

End Weighted.

(** A scanner for plain decimal input, used to run the balancer on concrete
    metadata: blanks, an optional sign, then at least one digit; what
    follows the digits is left unread. *)
Definition digit_of (c : ascii) : option Z :=
  let n := Z.of_nat (nat_of_ascii c) in
  if (48 <=? n)%Z && (n <=? 57)%Z then Some (n - 48)%Z else None.

Fixpoint scan_digits (acc : Z) (seen : bool) (s : string) : option Z :=
  match s with
  | EmptyString => if seen then Some acc else None
  | String c s' =>
      match digit_of c with
      | Some d => scan_digits (10 * acc + d) true s'
      | None => if seen then Some acc else None
      end
  end.

Fixpoint skip_blanks (s : string) : string :=
  match s with
  | String c s' =>
      if Ascii.eqb c " "%char || Ascii.eqb c "009"%char then skip_blanks s' else s
  | EmptyString => EmptyString
  end.

Definition scan_decimal (s : string) : option Z :=
  match skip_blanks s with
  | String "-"%char s' => Z.opp <$> scan_digits 0 false s'
  | String "+"%char s' => scan_digits 0 false s'
  | s' => scan_digits 0 false s'
  end.

End Balancer.

(** ** The connection pool (ConnectionPool in internal/proxy) *)
Module Pool.

Import GoRun.
Local Open Scope string_scope.

(** [connectivity.State] *)
Inductive ConnState := Idle | Connecting | Ready | TransientFailure | Shutdown.

#[export] Instance ConnState_eq_dec : EqDecision ConnState.
Proof. solve_decision. Defined.

(** A [*grpc.ClientConn] is a handle into the transport layer. *)
Abbreviation ClientConn := positive (only parsing).

(** The transport layer as the pool sees it: the state of every channel
    ever dialled, the targets dialled so far (latest first) and the next
    handle to hand out. *)
Record Transport := mkTransport {
  conn_state : gmap positive ConnState;
  dialled : list string;
  next_conn : positive
}.

(** [conn.GetState()] *)
Definition GetState (t : Transport) (conn : ClientConn) : ConnState :=
  default Shutdown (conn_state t !! conn).

(** [conn.Close()] *)
Definition Close_conn (t : Transport) (conn : ClientConn) : Transport :=
  {| conn_state := <[conn := Shutdown]> (conn_state t);
     dialled := dialled t;
     next_conn := next_conn t |}.

Inductive DialError := DialFailed (target : string).

Section WithDialer.

(** Whether [grpc.Dial target] succeeds, given the transport it runs on. *)
Variable dial_ok : Transport -> string -> bool.

(** [grpc.Dial(target, ...)] with the pool's fixed options. *)
Definition Dial (t : Transport) (target : string)
  : Transport * (ClientConn + DialError) :=
  if dial_ok t target then
    ({| conn_state := <[next_conn t := Idle]> (conn_state t);
        dialled := target :: dialled t;
        next_conn := Pos.succ (next_conn t) |},
     inl (next_conn t))
  else
    ({| conn_state := conn_state t;
        dialled := target :: dialled t;
        next_conn := next_conn t |},
     inr (DialFailed target)).

(** The pool: its [connections] map (the lock is not modelled, calls are
    sequential). *)
Record ConnectionPool := mkPool { connections : gmap string positive }.

Definition NewConnectionPool : ConnectionPool := {| connections := ∅ |}.

Definition usable (state : ConnState) : bool :=
  negb (bool_decide (state = Shutdown)) &&
  negb (bool_decide (state = TransientFailure)).

(** The part of [GetConnection] run under the write lock. *)
Definition GetConnection_locked (p : ConnectionPool) (t : Transport)
    (target : string)
  : ConnectionPool * Transport * (ClientConn + DialError) :=
  let recheck :=
    match connections p !! target with
    | Some conn =>
        if usable (GetState t conn) then inl conn
        else inr ({| connections := delete target (connections p) |},
                  Close_conn t conn)
    | None => inr (p, t)
    end in
  match recheck with
  | inl conn => (p, t, inl conn)
  | inr (p, t) =>
      match Dial t target with
      | (t, inr err) => (p, t, inr err)
      | (t, inl conn) =>
          ({| connections := <[target := conn]> (connections p) |}, t, inl conn)
      end
  end.

Definition GetConnection (p : ConnectionPool) (t : Transport)
    (target : string)
  : ConnectionPool * Transport * (ClientConn + DialError) :=
  match connections p !! target with
  | Some conn =>
      if usable (GetState t conn) then (p, t, inl conn)
      else GetConnection_locked p t target
  | None => GetConnection_locked p t target
  end.

(** [RemoveConnection] *)
Definition RemoveConnection (p : ConnectionPool) (t : Transport)
    (target : string) : ConnectionPool * Transport :=
  match connections p !! target with
  | Some conn =>
      ({| connections := delete target (connections p) |}, Close_conn t conn)
  | None => (p, t)
  end.

(** [Close]: every pooled channel is closed and its entry deleted, in the
    order the map is ranged over. *)
Definition Close (p : ConnectionPool) (t : Transport) : ConnectionPool * Transport :=
  foldr (fun entry acc =>
           ({| connections := delete (fst entry) (connections (fst acc)) |},
            Close_conn (snd acc) (snd entry)))
        (p, t) (map_to_list (connections p)).

(** The pool holds only channels that were dialled, and no channel under
    two targets. *)
Definition pool_wf (p : ConnectionPool) (t : Transport) : Prop :=
  (forall target conn, connections p !! target = Some conn ->
     (conn < next_conn t)%positive) /\
  (forall target1 target2 conn,
     connections p !! target1 = Some conn ->
     connections p !! target2 = Some conn -> target1 = target2).

End WithDialer.

End Pool.

(** ** The descriptor loader's lookups *)
Module Loader.

Local Open Scope string_scope.

(** [descriptorpb.DescriptorProto], cut down to what the lookups read: the
    name and the nested message types. An unset name reads as [""], as
    [GetName] does. *)
Inductive DescriptorProto : Type :=
| Descriptor (name : string) (nested_type : list DescriptorProto).

Definition GetName (msg : DescriptorProto) : string :=
  match msg with Descriptor name _ => name end.

Definition NestedType (msg : DescriptorProto) : list DescriptorProto :=
  match msg with Descriptor _ nested_type => nested_type end.

Record MethodDescriptorProto := mkMethod {
  method_name : string;
  input_type : string;
  output_type : string
}.

Record ServiceDescriptorProto := mkService {
  service_name : string;
  Method : list MethodDescriptorProto
}.

Record FileDescriptorProto := mkFile {
  file_name : string;
  package : string;
  MessageType : list DescriptorProto;
  Service : list ServiceDescriptorProto
}.

(** [descriptorpb.FileDescriptorSet]: its [File] list. *)
Definition FileDescriptorSet := list FileDescriptorProto.

(** The loop over one file's services in [FindServiceDescriptor]. *)
Fixpoint findServiceInFile (pkg : string) (services : list ServiceDescriptorProto)
    (fullName : string) : option ServiceDescriptorProto :=
  match services with
  | [] => None
  | service :: rest =>
      let fullServiceName := pkg ++ "." ++ service_name service in
      if String.eqb fullServiceName fullName then Some service
      else findServiceInFile pkg rest fullName
  end.

Fixpoint FindServiceDescriptor (fileSet : FileDescriptorSet) (fullName : string)
  : option ServiceDescriptorProto :=
  match fileSet with
  | [] => None
  | file :: rest =>
      match findServiceInFile (package file) (Service file) fullName with
      | Some service => Some service
      | None => FindServiceDescriptor rest fullName
      end
  end.

Fixpoint findMethod (methods : list MethodDescriptorProto) (methodName : string)
  : option MethodDescriptorProto :=
  match methods with
  | [] => None
  | method :: rest =>
      if String.eqb (method_name method) methodName then Some method
      else findMethod rest methodName
  end.

Definition FindMethodDescriptor (fileSet : FileDescriptorSet)
    (serviceName methodName : string) : option MethodDescriptorProto :=
  match FindServiceDescriptor fileSet serviceName with
  | None => None
  | Some service => findMethod (Method service) methodName
  end.

(** [findNestedMessage]: depth-first, in declaration order. *)
Fixpoint findNestedMessage (msg : DescriptorProto) (fullName prefix : string)
  : option DescriptorProto :=
  let fix loop (nesteds : list DescriptorProto) : option DescriptorProto :=
    match nesteds with
    | [] => None
    | nested :: rest =>
        let fullNestedName := prefix ++ "." ++ GetName nested in
        if String.eqb fullNestedName fullName then Some nested
        else match findNestedMessage nested fullName fullNestedName with
             | Some found => Some found
             | None => loop rest
             end
    end in
  loop (NestedType msg).

(** The loop of [findNestedMessage] over a list of messages, on its own. *)
Fixpoint findNestedAmong (nesteds : list DescriptorProto)
    (fullName prefix : string) : option DescriptorProto :=
  match nesteds with
  | [] => None
  | nested :: rest =>
      let fullNestedName := prefix ++ "." ++ GetName nested in
      if String.eqb fullNestedName fullName then Some nested
      else match findNestedMessage nested fullName fullNestedName with
           | Some found => Some found
           | None => findNestedAmong rest fullName prefix
           end
  end.

Fixpoint findMessageInFile (messages : list DescriptorProto)
    (fullName pkgPrefix : string) : option DescriptorProto :=
  match messages with
  | [] => None
  | msg :: rest =>
      let fullMsgName := pkgPrefix ++ "." ++ GetName msg in
      if String.eqb fullMsgName fullName then Some msg
      else match findNestedMessage msg fullName fullMsgName with
           | Some nested => Some nested
           | None => findMessageInFile rest fullName pkgPrefix
           end
  end.

Fixpoint FindMessageDescriptor (fileSet : FileDescriptorSet) (fullName : string)
  : option DescriptorProto :=
  match fileSet with
  | [] => None
  | file :: rest =>
      match findMessageInFile (MessageType file) fullName (package file) with
      | Some msg => Some msg
      | None => FindMessageDescriptor rest fullName
      end
  end.

(** [declared_under msgs prefix fullName d]: [d] is one of [msgs] or nested,
    at any depth, in one of them, and [fullName] is its dotted name composed
    from [prefix] by concatenation. *)
Inductive declared_under
  : list DescriptorProto -> string -> string -> DescriptorProto -> Prop :=
| declared_here msgs prefix d :
    In d msgs ->
    declared_under msgs prefix (prefix ++ "." ++ GetName d) d
| declared_nested msgs prefix outer fullName d :
    In outer msgs ->
    declared_under (NestedType outer) (prefix ++ "." ++ GetName outer) fullName d ->
    declared_under msgs prefix fullName d.

(** A message of the set with composed name [fullName]. *)
Definition declared (fileSet : FileDescriptorSet) (fullName : string)
    (d : DescriptorProto) : Prop :=
  exists file, In file fileSet /\
    declared_under (MessageType file) (package file) fullName d.

(** [GetFileDescriptor]: the first file of that name. *)
Fixpoint GetFileDescriptor (fileSet : FileDescriptorSet) (name : string)
  : option FileDescriptorProto :=
  match fileSet with
  | [] => None
  | file :: rest =>
      if String.eqb (file_name file) name then Some file
      else GetFileDescriptor rest name
  end.

Section Loading.

(** [proto.Unmarshal(data, fileSet)]: the set decoded, or the error. *)
Variable Unmarshal_set : list byte -> FileDescriptorSet + string.
(** [os.ReadFile(path)] *)
Variable ReadFile : string -> list byte + string.

(** The [Load*] and [Replace*] operations, on the loader's current set:
    the set they leave and the error they return. *)
Definition LoadProtosetData (fileSet : FileDescriptorSet) (data : list byte)
  : FileDescriptorSet * option string :=
  match Unmarshal_set data with
  | inr err => (fileSet, Some ("failed to unmarshal protoset data: " ++ err))
  | inl loaded => ((fileSet ++ loaded)%list, None)
  end.

Definition LoadProtoset (fileSet : FileDescriptorSet) (protosetPath : string)
  : FileDescriptorSet * option string :=
  match ReadFile protosetPath with
  | inr err => (fileSet, Some ("failed to read protoset file: " ++ err))
  | inl data =>
      match Unmarshal_set data with
      | inr err => (fileSet, Some ("failed to unmarshal protoset file: " ++ err))
      | inl loaded => ((fileSet ++ loaded)%list, None)
      end
  end.

Definition ReplaceProtosetData (fileSet : FileDescriptorSet) (data : list byte)
  : FileDescriptorSet * option string :=
  match Unmarshal_set data with
  | inr err => (fileSet, Some ("failed to unmarshal protoset data: " ++ err))
  | inl loaded => (loaded, None)
  end.

Definition ReplaceProtoset (fileSet : FileDescriptorSet) (protosetPath : string)
  : FileDescriptorSet * option string :=
  match ReadFile protosetPath with
  | inr err => (fileSet, Some ("failed to read protoset file: " ++ err))
  | inl data =>
      match Unmarshal_set data with
      | inr err => (fileSet, Some ("failed to unmarshal protoset file: " ++ err))
      | inl loaded => (loaded, None)
      end
  end.

End Loading.

(** A service of the set with full name [fullName]. *)
Definition service_declared (fileSet : FileDescriptorSet) (fullName : string)
    (s : ServiceDescriptorProto) : Prop :=
  exists file, In file fileSet /\ In s (Service file) /\
    package file ++ "." ++ service_name s = fullName.

(** A method descriptor of the set. *)
Definition method_in (fileSet : FileDescriptorSet) (m : MethodDescriptorProto)
  : Prop :=
  exists file service,
    In file fileSet /\ In service (Service file) /\ In m (Method service).

End Loader.

(** ** The HTTP to gRPC transcoder (internal/proxy/http_proxy.go) *)
Module HttpProxy.

Import GoRun Registry Balancer Pool Loader.
Local Open Scope string_scope.

(** [codes.Code] *)
Inductive Code :=
| OK | Canceled | Unknown | InvalidArgument | DeadlineExceeded | NotFound
| AlreadyExists | PermissionDenied | ResourceExhausted | FailedPrecondition
| Aborted | OutOfRange | Unimplemented | Internal | Unavailable | DataLoss
| Unauthenticated.

#[export] Instance Code_eq_dec : EqDecision Code.
Proof. solve_decision. Defined.

Definition Code_String (c : Code) : string :=
  match c with
  | OK => "OK" | Canceled => "Canceled" | Unknown => "Unknown"
  | InvalidArgument => "InvalidArgument"
  | DeadlineExceeded => "DeadlineExceeded" | NotFound => "NotFound"
  | AlreadyExists => "AlreadyExists" | PermissionDenied => "PermissionDenied"
  | ResourceExhausted => "ResourceExhausted"
  | FailedPrecondition => "FailedPrecondition" | Aborted => "Aborted"
  | OutOfRange => "OutOfRange" | Unimplemented => "Unimplemented"
  | Internal => "Internal" | Unavailable => "Unavailable"
  | DataLoss => "DataLoss" | Unauthenticated => "Unauthenticated"
  end.

(** A Go [error] value: a gRPC status error ([status.Errorf]) or any other
    error. *)
Inductive GoError :=
| StatusError (code : Code) (message : string)
| PlainError (text : string).

(** [err.Error()] *)
Definition Error (err : GoError) : string :=
  match err with
  | StatusError code message =>
      "rpc error: code = " ++ Code_String code ++ " desc = " ++ message
  | PlainError text => text
  end.

(** [status.Code(err)]: [Unknown] for an error that carries no status. *)
Definition status_code (err : GoError) : Code :=
  match err with
  | StatusError code _ => code
  | PlainError _ => Unknown
  end.

(** A dynamic message: its type's full name and its field contents, kept
    as the wire bytes. Messages live on the heap and are passed by
    reference, as [proto.Message] values are. *)
Record Message := mkMessage {
  type_name : string;
  contents : list byte
}.

Abbreviation MsgRef := positive (only parsing).

Record Heap := mkHeap {
  cells : gmap positive Message;
  next_ref : positive
}.

Definition alloc (h : Heap) (m : Message) : Heap * MsgRef :=
  ({| cells := <[next_ref h := m]> (cells h); next_ref := Pos.succ (next_ref h) |},
   next_ref h).

Definition deref (h : Heap) (r : MsgRef) : Message :=
  default {| type_name := ""; contents := [] |} (cells h !! r).

Definition store (h : Heap) (r : MsgRef) (m : Message) : Heap :=
  {| cells := <[r := m]> (cells h); next_ref := next_ref h |}.

(** [proto.Clone(m)]: a new message with the contents of [m]. *)
Definition Clone (h : Heap) (m : MsgRef) : Heap * MsgRef :=
  alloc h (deref h m).

(** [protoreflect.MessageDescriptor] of a top-level message. *)
Record MessageDescriptor := mkMessageDescriptor {
  FullName : string;
  descriptor_proto : DescriptorProto
}.

(** [dynamicpb.NewMessage(desc)]: a new, empty message of that type. *)
Definition NewMessage (h : Heap) (desc : MessageDescriptor) : Heap * MsgRef :=
  alloc h {| type_name := FullName desc; contents := [] |}.

(** The full name [protodesc] gives a top-level message of a file. *)
Definition top_level_name (pkg : string) (msg : DescriptorProto) : string :=
  if String.eqb pkg "" then GetName msg else pkg ++ "." ++ GetName msg.

(** The name begins with a dot, as a fully qualified type name does. *)
Definition starts_with_dot (name : string) : bool :=
  match name with
  | String c _ => Ascii.eqb c "."%char
  | EmptyString => false
  end.

(** What the transcoder acts on besides its own fields: the message heap,
    the transport layer and the unary calls made so far (latest first). *)
Record World := mkWorld {
  heap : Heap;
  transport : Transport;
  invoked : list (positive * string)
}.

Definition set_heap (w : World) (h : Heap) : World :=
  {| heap := h; transport := transport w; invoked := invoked w |}.

Definition set_transport (w : World) (t : Transport) : World :=
  {| heap := heap w; transport := t; invoked := invoked w |}.

(** [fmt.Sprintf("%d", n)] *)
Definition format_int (n : Z) : string :=
  DecimalString.NilZero.string_of_int (Z.to_int n).

Section Transcoder.

Context {B : Type} `{LoadBalancer B}.

(** The collaborators of the transcoder. *)
(** [protodesc.NewFile(fileProto, p.fileResolver)] succeeds. *)
Variable NewFile_ok : FileDescriptorProto -> bool.
(** [protojson.Unmarshal(jsonData, msg)]: the contents it leaves in [msg],
    and its error if any. *)
Variable Unmarshal : list byte -> Message -> Message * option string.
(** [protojson.Marshal(msg)] *)
Variable Marshal : Message -> list byte + string.
(** [registry.Discover(ctx, serviceName)] *)
Variable Discover : string -> list ServiceInstance + string.
(** [grpc.Dial] succeeds on this target. *)
Variable dial_ok : Transport -> string -> bool.
(** The backend's answer to a unary call: the reply it sends, or the error
    [conn.Invoke] returns. *)
Variable backend : positive -> string -> Message -> list byte + GoError.

Record HTTPProxy := mkHTTPProxy {
  protoLoader : FileDescriptorSet;
  connPool : ConnectionPool;
  loadBalance : B;
  msgCache : gmap string positive
}.

Definition set_msgCache (p : HTTPProxy) (c : gmap string positive) : HTTPProxy :=
  {| protoLoader := protoLoader p; connPool := connPool p;
     loadBalance := loadBalance p; msgCache := c |}.

Definition set_connPool (p : HTTPProxy) (pool : ConnectionPool) : HTTPProxy :=
  {| protoLoader := protoLoader p; connPool := pool;
     loadBalance := loadBalance p; msgCache := msgCache p |}.

Definition set_loadBalance (p : HTTPProxy) (lb : B) : HTTPProxy :=
  {| protoLoader := protoLoader p; connPool := connPool p;
     loadBalance := lb; msgCache := msgCache p |}.

(** The inner loop of [findFullMessageDescriptor] over [fd.Messages()]. *)
Fixpoint findTopLevel (pkg : string) (msgs : list DescriptorProto)
    (fullName : string) : option MessageDescriptor :=
  match msgs with
  | [] => None
  | msg :: rest =>
      if String.eqb (top_level_name pkg msg) fullName
      then Some {| FullName := top_level_name pkg msg; descriptor_proto := msg |}
      else findTopLevel pkg rest fullName
  end.

Fixpoint findFullMessageDescriptor (files : FileDescriptorSet) (fullName : string)
  : option MessageDescriptor :=
  match files with
  | [] => None
  | fileProto :: rest =>
      if NewFile_ok fileProto then
        match findTopLevel (package fileProto) (MessageType fileProto) fullName with
        | Some msg => Some msg
        | None => findFullMessageDescriptor rest fullName
        end
      else findFullMessageDescriptor rest fullName
  end.

Definition createDynamicMessage (p : HTTPProxy) (h : Heap) (messageType : string)
  : HTTPProxy * Heap * (MsgRef + string) :=
  match msgCache p !! messageType with
  | Some cached =>
      let '(h, clone) := Clone h cached in (p, h, inl clone)
  | None =>
      match findFullMessageDescriptor (protoLoader p) messageType with
      | None => (p, h, inr ("message descriptor not found: " ++ messageType))
      | Some msgFullDesc =>
          let '(h, msg) := NewMessage h msgFullDesc in
          (set_msgCache p (<[messageType := msg]> (msgCache p)), h, inl msg)
      end
  end.

(** [ClearMessageCache] *)
Definition ClearMessageCache (p : HTTPProxy) : HTTPProxy := set_msgCache p ∅.

(** Every prototype in the cache is a message allocated on the heap. *)
Definition cache_allocated (p : HTTPProxy) (h : Heap) : Prop :=
  forall name r, msgCache p !! name = Some r -> (r < next_ref h)%positive.

Definition jsonToProtobuf (p : HTTPProxy) (h : Heap) (jsonData : list byte)
    (messageType : string) : HTTPProxy * Heap * (MsgRef + string) :=
  match createDynamicMessage p h messageType with
  | (p, h, inr err) => (p, h, inr err)
  | (p, h, inl msg) =>
      let '(m, err) := Unmarshal jsonData (deref h msg) in
      let h := store h msg m in
      match err with
      | Some err => (p, h, inr ("failed to unmarshal JSON: " ++ err))
      | None => (p, h, inl msg)
      end
  end.

(** [conn.Invoke(clientCtx, fullMethod, requestMsg, responseMsg)]: one call
    to the backend, recorded; on success the reply is decoded into
    [responseMsg]. *)
Definition Invoke (w : World) (conn : positive) (fullMethod : string)
    (requestMsg responseMsg : MsgRef) : World * option GoError :=
  let w := {| heap := heap w; transport := transport w;
              invoked := (conn, fullMethod) :: invoked w |} in
  match backend conn fullMethod (deref (heap w) requestMsg) with
  | inr err => (w, Some err)
  | inl reply =>
      (set_heap w (store (heap w) responseMsg
                     {| type_name := type_name (deref (heap w) responseMsg);
                        contents := reply |}),
       None)
  end.

Definition invokeUnary (p : HTTPProxy) (w : World) (conn : positive)
    (fullMethod : string) (requestMsg : MsgRef) (methodDesc : MethodDescriptorProto)
  : HTTPProxy * World * (list byte + GoError) :=
  let outputType := output_type methodDesc in
  if String.eqb outputType "" then
    (p, w, inr (StatusError Internal "method output type not specified"))
  else
    match createDynamicMessage p (heap w) outputType with
    | (p, h, inr err) =>
        (p, set_heap w h,
         inr (StatusError Internal ("failed to create response message: " ++ err)))
    | (p, h, inl responseMsg) =>
        match Invoke (set_heap w h) conn fullMethod requestMsg responseMsg with
        | (w, Some err) => (p, w, inr err)
        | (w, None) =>
            match Marshal (deref (heap w) responseMsg) with
            | inl bytes => (p, w, inl bytes)
            | inr err => (p, w, inr (PlainError err))
            end
        end
    end.

Definition ProxyHTTPRequest (p : HTTPProxy) (w : World)
    (serviceName methodName : string) (jsonBody : list byte)
  : HTTPProxy * World * Go (list byte + GoError) :=
  match FindMethodDescriptor (protoLoader p) serviceName methodName with
  | None =>
      (p, w, Ret (inr (StatusError NotFound
                  ("method not found: " ++ serviceName ++ "/" ++ methodName))))
  | Some methodDesc =>
      let inputType := input_type methodDesc in
      if String.eqb inputType "" then
        (p, w, Ret (inr (StatusError Internal "method input type not specified")))
      else
        match jsonToProtobuf p (heap w) jsonBody inputType with
        | (p, h, inr err) =>
            (p, set_heap w h,
             Ret (inr (StatusError InvalidArgument
                         ("failed to unmarshal request: " ++ err))))
        | (p, h, inl requestMsg) =>
            let w := set_heap w h in
            match Discover serviceName with
            | inr err =>
                (p, w, Ret (inr (StatusError Unavailable
                   ("failed to discover service " ++ serviceName ++ ": " ++ err))))
            | inl instances =>
                if (len instances =? 0)%Z then
                  (p, w, Ret (inr (StatusError Unavailable
                     ("no available instances for service: " ++ serviceName))))
                else
                  match Select (loadBalance p) instances with
                  | (lb, Panic reason) => (set_loadBalance p lb, w, Panic reason)
                  | (lb, Ret None) =>
                      (set_loadBalance p lb, w,
                       Ret (inr (StatusError Unavailable
                         ("failed to select instance for service: " ++ serviceName))))
                  | (lb, Ret (Some instance)) =>
                      let p := set_loadBalance p lb in
                      let target := Address instance ++ ":" ++ format_int (Port instance) in
                      match GetConnection dial_ok (connPool p) (transport w) target with
                      | (pool, t, inr (DialFailed why)) =>
                          (set_connPool p pool, set_transport w t,
                           Ret (inr (StatusError Unavailable
                             ("failed to connect to backend " ++ target ++ ": " ++ why))))
                      | (pool, t, inl conn) =>
                          let fullMethod := "/" ++ serviceName ++ "/" ++ methodName in
                          let '(p, w, r) :=
                            invokeUnary (set_connPool p pool) (set_transport w t)
                                        conn fullMethod requestMsg methodDesc in
                          (p, w, Ret r)
                      end
                  end
            end
        end
  end.

End Transcoder.

End HttpProxy.

(** ** HTTP ingress: path parsing (internal/server/http/request.go) and the
    request handler *)
Module HttpIngress.

Import GoStrings GoRun Balancer HttpProxy.
Local Open Scope string_scope.

Record HTTPRequest := mkHTTPRequest {
  Tenant : string;
  ServiceName : string;
  MethodName : string;
  Body : list byte
}.

(** The four [fmt.Errorf] results of the parser. *)
Inductive ParseError :=
| ErrPathFormat (trimmed : string)
| ErrRpcPrefix (got : string)
| ErrEmptyMethod
| ErrEmptyService.

Definition slash : ascii := "/"%char.

(** [parts[i]]; every use below is guarded by the length test, the default
    is never returned. *)
Definition part (parts : list string) (i : nat) : string := nth i parts "".

Definition ParseHTTPRequest (path : string) (body : list byte)
  : HTTPRequest + ParseError :=
  let path := Trim path slash in
  let parts := Split path slash in
  if (length parts <? 3)%nat then inr (ErrPathFormat path)
  else if negb (String.eqb (part parts 0) "rpc") then inr (ErrRpcPrefix (part parts 0))
  else
    let methodName := part parts (length parts - 1) in
    if String.eqb methodName "" then inr ErrEmptyMethod
    else
      let serviceName := part parts (length parts - 2) in
      if String.eqb serviceName "" then inr ErrEmptyService
      else
        let tenant := if (3 <? length parts)%nat then part parts 1 else "" in
        inl {| Tenant := tenant; ServiceName := serviceName;
               MethodName := methodName; Body := body |}.

(** The components of a path, as the parser sees them. *)
Definition components (path : string) : list string :=
  Split (Trim path slash) slash.

(** How many components follow the leading one. *)
Definition components_after_first (path : string) : nat :=
  (length (components path) - 1)%nat.

Definition non_empty (s : string) : bool := negb (String.eqb s "").

(** [err.Error()] of the parser's errors. *)
Definition ParseError_text (e : ParseError) : string :=
  match e with
  | ErrPathFormat trimmed =>
      "invalid path format, expected /rpc/{service}/{method} or /rpc/{tenant}/{service}/{method}, got /"
      ++ trimmed
  | ErrRpcPrefix got => "invalid path, expected /rpc prefix, got /" ++ got
  | ErrEmptyMethod => "method name cannot be empty"
  | ErrEmptyService => "service name cannot be empty"
  end.

(** What the handler reads of an [*http.Request]: the URL path, the method
    and the outcome of [io.ReadAll(r.Body)]. *)
Record Request := mkRequest {
  URL_Path : string;
  Http_Method : string;
  ReadAll_Body : list byte + string
}.

(** What the handler writes: the status of [WriteHeader], the
    [Content-Type] header if set, and the body. *)
Inductive ResponseBody := Text (s : string) | Bytes (b : list byte).

Record Response := mkResponse {
  StatusCode : Z;
  Content_Type : option string;
  Written : ResponseBody
}.

Definition StatusOK : Z := 200.
Definition StatusBadRequest : Z := 400.
Definition StatusMethodNotAllowed : Z := 405.
Definition StatusInternalServerError : Z := 500.

Section Handler.

Context {B : Type} `{LoadBalancer B}.

Variable NewFile_ok : Loader.FileDescriptorProto -> bool.
Variable Unmarshal : list byte -> Message -> Message * option string.
Variable Marshal : Message -> list byte + string.
Variable Discover : string -> list Registry.ServiceInstance + string.
Variable dial_ok : Pool.Transport -> string -> bool.
Variable backend : positive -> string -> Message -> list byte + GoError.

(** The server: its transcoder, [None] until [SetHTTPProxy]. *)
Record Server := mkServer { httpProxy : option (@HTTPProxy B) }.

Definition handleRequest (s : Server) (w : World) (r : Request)
  : Server * World * Go Response :=
  if String.eqb (URL_Path r) "/health" then
    (s, w, Ret {| StatusCode := StatusOK; Content_Type := None;
                  Written := Text "HTTP Server is healthy" |})
  else
    match httpProxy s with
    | None =>
        (s, w, Ret {| StatusCode := StatusInternalServerError; Content_Type := None;
                      Written := Text "HTTP proxy not configured" |})
    | Some proxy =>
        if negb (String.eqb (Http_Method r) "POST") then
          (s, w, Ret {| StatusCode := StatusMethodNotAllowed; Content_Type := None;
                        Written := Text "Only POST method is allowed" |})
        else
          match ReadAll_Body r with
          | inr err =>
              (s, w, Ret {| StatusCode := StatusBadRequest; Content_Type := None;
                            Written := Text ("Failed to read request body: " ++ err) |})
          | inl body =>
              match ParseHTTPRequest (URL_Path r) body with
              | inr err =>
                  (s, w, Ret {| StatusCode := StatusBadRequest; Content_Type := None;
                                Written := Text ("Invalid request: " ++ ParseError_text err) |})
              | inl httpReq =>
                  match ProxyHTTPRequest NewFile_ok Unmarshal Marshal Discover
                          dial_ok backend proxy w
                          (ServiceName httpReq) (MethodName httpReq) body with
                  | (proxy, w, Panic reason) =>
                      ({| httpProxy := Some proxy |}, w, Panic reason)
                  | (proxy, w, Ret (inr err)) =>
                      ({| httpProxy := Some proxy |}, w,
                       Ret {| StatusCode := StatusInternalServerError;
                              Content_Type := None;
                              Written := Text ("RPC call failed: " ++ Error err) |})
                  | (proxy, w, Ret (inl response)) =>
                      ({| httpProxy := Some proxy |}, w,
                       Ret {| StatusCode := StatusOK;
                              Content_Type := Some "application/json";
                              Written := Bytes response |})
                  end
              end
          end
    end.

End Handler.

End HttpIngress.

(** ** gRPC ingress: the unknown-service handler
    (internal/server/grpc/server.go) and the forwarder's [ProxyStream] *)
Module GrpcIngress.

Import GoStrings GoRun Registry Balancer Pool HttpProxy.
Local Open Scope string_scope.

Definition slash : ascii := "/"%char.

(** What is read of a [grpc.ServerStream]: the result of
    [grpc.MethodFromServerStream], [None] when it reports [!ok]. *)
Record ServerStream := mkServerStream { MethodFromServerStream : option string }.

Definition ParseServiceAndMethod (stream : ServerStream)
  : (string * string) + string :=
  match MethodFromServerStream stream with
  | None => inr "failed to get method from stream"
  | Some fullMethod =>
      let fullMethod := TrimPrefix fullMethod slash in
      let idx := Index fullMethod slash in
      if (idx =? -1)%Z then inl ("", fullMethod)
      else inl (slice_to fullMethod (Z.to_nat idx),
                slice_from fullMethod (Z.to_nat (idx + 1)))
  end.

Section Forwarder.

Context {B : Type} `{LoadBalancer B}.

Variable Discover : string -> list ServiceInstance + string.
Variable dial_ok : Transport -> string -> bool.
(** [conn.NewStream(clientCtx, desc, method)] with [desc.StreamName] given:
    its error, if any. *)
Variable NewStream : positive -> string -> string -> option string.
(** The outcome of [forwardStream], the two-way pump between the streams. *)
Variable forwardStream : ServerStream -> positive -> option GoError.

Record GRPCProxy := mkGRPCProxy {
  connPool : ConnectionPool;
  loadBalance : B
}.

Definition ProxyStream (p : GRPCProxy) (t : Transport)
    (serviceName fullMethod : string) (stream : ServerStream)
  : GRPCProxy * Transport * Go (option GoError) :=
  match Discover serviceName with
  | inr err =>
      (p, t, Ret (Some (StatusError Unavailable
         ("failed to discover service " ++ serviceName ++ ": " ++ err))))
  | inl instances =>
      if (len instances =? 0)%Z then
        (p, t, Ret (Some (StatusError Unavailable
           ("no available instances for service: " ++ serviceName))))
      else
        match Select (loadBalance p) instances with
        | (lb, Panic reason) =>
            ({| connPool := connPool p; loadBalance := lb |}, t, Panic reason)
        | (lb, Ret None) =>
            ({| connPool := connPool p; loadBalance := lb |}, t,
             Ret (Some (StatusError Unavailable
               ("failed to select instance for service: " ++ serviceName))))
        | (lb, Ret (Some instance)) =>
            let target := Address instance ++ ":" ++ format_int (Port instance) in
            match GetConnection dial_ok (connPool p) t target with
            | (pool, t, inr (DialFailed why)) =>
                ({| connPool := pool; loadBalance := lb |}, t,
                 Ret (Some (StatusError Unavailable
                   ("failed to connect to backend " ++ target ++ ": " ++ why))))
            | (pool, t, inl conn) =>
                let p := {| connPool := pool; loadBalance := lb |} in
                let methodNams := Split fullMethod slash in
                match go_index methodNams 1 with
                | Panic reason => (p, t, Panic reason)
                | Ret streamName =>
                    match NewStream conn streamName fullMethod with
                    | Some err =>
                        (p, t, Ret (Some (StatusError Internal
                           ("failed to create client stream: " ++ err))))
                    | None => (p, t, Ret (forwardStream stream conn))
                    end
                end
            end
        end
  end.

(** The gRPC server: its forwarder, [None] until [SetRegistry]. *)
Record Server := mkServer { proxy : option GRPCProxy }.

Definition handleUnknownService (s : Server) (t : Transport) (stream : ServerStream)
  : Server * Transport * Go (option GoError) :=
  match ParseServiceAndMethod stream with
  | inr err => (s, t, Ret (Some (PlainError ("parse service method error: " ++ err))))
  | inl (serviceName, methodName) =>
      match proxy s with
      | None =>
          (s, t, Ret (Some (PlainError
             ("proxy not configured, cannot forward request to service: " ++ serviceName))))
      | Some p =>
          let '(p, t, r) := ProxyStream p t serviceName methodName stream in
          ({| proxy := Some p |}, t, r)
      end
  end.

End Forwarder.

End GrpcIngress.

(** ** Hot reload of descriptor sets (HotReloadManager) *)
Module HotReload.

Import Loader.
Local Open Scope string_scope.

(** [config.ProtoSetInfo] and [config.ProtoHotReloadConfig]. *)
Record ProtoSetInfo := mkProtoSetInfo {
  ServiceName : string;
  Path : string;
  URL : string
}.

Record ProtoHotReloadConfig := mkProtoHotReloadConfig {
  Enabled : bool;
  CheckPeriod : Z;
  AuthToken : string
}.

(** The files the manager reads, creates and removes, by name. *)
Abbreviation Files := (gmap string (list byte)) (only parsing).

(** [os.ReadFile] and [os.Remove] (whose error the manager ignores). *)
Definition ReadFile (files : Files) (name : string) : list byte + string :=
  match files !! name with
  | Some data => inl data
  | None => inr ("open " ++ name ++ ": no such file or directory")
  end.

Definition Remove (files : Files) (name : string) : Files := delete name files.

Section Manager.

(** The collaborators of the manager. *)
(** [proto.Unmarshal(data, newFileSet)] *)
Variable Unmarshal_set : list byte -> FileDescriptorSet + string.
(** The error of [http.NewRequest("GET", url, nil)], if any. *)
Variable NewRequest_error : string -> option string.
(** [m.httpClient.Do(req)] for the URL and the [Authorization] header of
    the request: the status code and the body of the response, or the
    client's error. *)
Variable Do : string -> option string -> Z * list byte + string.
(** [os.CreateTemp("", "protoset-*.pb")]: the name of the file created. *)
Variable CreateTemp : Files -> string + string.
(** [io.Copy(tempFile, resp.Body)] when it fails: what was written before
    the error, and the error. *)
Variable Copy_error : list byte -> option (list byte * string).

(** The application state the manager works on: it holds the descriptor
    loader the manager shares with the transcoder, and whatever the cache
    callback clears. *)
Context {App : Type}.
Variable loader : App -> FileDescriptorSet.
Variable set_loader : App -> FileDescriptorSet -> App.

Record HotReloadManager := mkHotReloadManager {
  config : ProtoHotReloadConfig;
  protosets : gmap string ProtoSetInfo;
  msgCacheClear : option (App -> App)
}.

Definition NewHotReloadManager (cfg : ProtoHotReloadConfig)
    (infos : list ProtoSetInfo) : HotReloadManager :=
  {| config := cfg;
     protosets := foldl (fun protosetMap info => <[ServiceName info := info]> protosetMap)
                        ∅ infos;
     msgCacheClear := None |}.

Definition SetMessageCacheClearFunc (m : HotReloadManager) (fn : App -> App)
  : HotReloadManager :=
  {| config := config m; protosets := protosets m; msgCacheClear := Some fn |}.

(** The [Authorization] header [downloadProtoset] sets. *)
Definition authorization (m : HotReloadManager) : option string :=
  if String.eqb (AuthToken (config m)) "" then None
  else Some ("Bearer " ++ AuthToken (config m)).

Definition downloadProtoset (m : HotReloadManager) (files : Files) (url : string)
  : Files * (string + string) :=
  match NewRequest_error url with
  | Some err => (files, inr ("failed to create request: " ++ err))
  | None =>
      match Do url (authorization m) with
      | inr err => (files, inr ("failed to download protoset: " ++ err))
      | inl (status, body) =>
          if negb (status =? 200)%Z then
            (files, inr ("download failed with status code "
                         ++ HttpProxy.format_int status))
          else
            match CreateTemp files with
            | inr err => (files, inr ("failed to create temp file: " ++ err))
            | inl tempFile =>
                match Copy_error body with
                | Some (written, err) =>
                    (Remove (<[tempFile := written]> files) tempFile,
                     inr ("failed to write temp file: " ++ err))
                | None => (<[tempFile := body]> files, inl tempFile)
                end
            end
      end
  end.

(** The end of [reloadProtoset]: the cache callback, if one is set. *)
Definition clear_cache (m : HotReloadManager) (app : App) : App :=
  match msgCacheClear m with
  | Some fn => fn app
  | None => app
  end.

(** [reloadProtoset]. The deferred [os.Remove(tempFile)] runs on every
    return that follows a download. *)
Definition reloadProtoset (m : HotReloadManager) (app : App) (files : Files)
    (info : ProtoSetInfo) : App * Files * option string :=
  if negb (String.eqb (URL info) "") then
    match downloadProtoset m files (URL info) with
    | (files, inr err) =>
        (app, files,
         Some ("failed to download protoset from " ++ URL info ++ ": " ++ err))
    | (files, inl tempFile) =>
        match ReadFile files tempFile with
        | inr err =>
            (app, Remove files tempFile,
             Some ("failed to read downloaded protoset: " ++ err))
        | inl data =>
            match LoadProtosetData Unmarshal_set (loader app) data with
            | (_, Some err) =>
                (app, Remove files tempFile,
                 Some ("failed to load protoset data: " ++ err))
            | (fileSet, None) =>
                (clear_cache m (set_loader app fileSet), Remove files tempFile, None)
            end
        end
    end
  else if negb (String.eqb (Path info) "") then
    match LoadProtoset Unmarshal_set (ReadFile files) (loader app) (Path info) with
    | (_, Some err) =>
        (app, files,
         Some ("failed to load protoset from " ++ Path info ++ ": " ++ err))
    | (fileSet, None) => (clear_cache m (set_loader app fileSet), files, None)
    end
  else (clear_cache m app, files, None).

Definition ReloadServiceProtoset (m : HotReloadManager) (app : App) (files : Files)
    (serviceName : string) : App * Files * option string :=
  match protosets m !! serviceName with
  | None => (app, files, Some ("protoset not found for service: " ++ serviceName))
  | Some ps => reloadProtoset m app files ps
  end.

Definition RegisterProtoset (m : HotReloadManager) (info : ProtoSetInfo)
  : HotReloadManager :=
  {| config := config m; protosets := <[ServiceName info := info]> (protosets m);
     msgCacheClear := msgCacheClear m |}.

Definition UnregisterProtoset (m : HotReloadManager) (serviceName : string)
  : HotReloadManager :=
  {| config := config m; protosets := delete serviceName (protosets m);
     msgCacheClear := msgCacheClear m |}.

End Manager.

(** The manager as [ProvideHTTPProxy] sets it up: its loader is the
    transcoder's, and its callback clears the transcoder's cache. *)
Section OverTranscoder.

Context {B : Type}.

Definition set_protoLoader (p : @HttpProxy.HTTPProxy B) (fileSet : FileDescriptorSet)
  : @HttpProxy.HTTPProxy B :=
  {| HttpProxy.protoLoader := fileSet; HttpProxy.connPool := HttpProxy.connPool p;
     HttpProxy.loadBalance := HttpProxy.loadBalance p;
     HttpProxy.msgCache := HttpProxy.msgCache p |}.

Definition transcoder_manager (cfg : ProtoHotReloadConfig) (infos : list ProtoSetInfo)
  : @HotReloadManager (@HttpProxy.HTTPProxy B) :=
  SetMessageCacheClearFunc (NewHotReloadManager cfg infos) HttpProxy.ClearMessageCache.

End OverTranscoder.

End HotReload.

(** ** Sample data for running the model *)
Module Examples.

Import GoRun Registry Balancer.
Local Open Scope string_scope.

Definition echo_instance (id address : string) (weight : option string)
  : ServiceInstance :=
  {| ID := id; Name := "echo.Echo"; Version := ""; Address := address;
     Port := 50051;
     Metadata := match weight with
                 | Some w => Some {[ "weight" := w ]}
                 | None => None
                 end;
     Tags := [] |}.

(** Three instances without metadata. *)
Definition echo_1 := echo_instance "echo-1" "10.0.0.1" None.
Definition echo_2 := echo_instance "echo-2" "10.0.0.2" None.
Definition echo_3 := echo_instance "echo-3" "10.0.0.3" None.

(** The weighted pair of the specification's scenario: weights 1 and 3. *)
Definition light := echo_instance "a" "10.0.1.1" (Some "1").
Definition triple := echo_instance "b" "10.0.1.2" (Some "3").

(** Four instances of weight [2^62] each: the weights add up to [2^64]. *)
Definition heavy (id : string) := echo_instance id "10.0.2.1" (Some "4611686018427387904").
Definition heavy_four : list ServiceInstance :=
  [heavy "h0"; heavy "h1"; heavy "h2"; heavy "h3"].

(** A pool holding, for one backend, a channel in transient failure, on a
    network where no dial succeeds. *)
Definition stale_pool : Pool.ConnectionPool :=
  {| Pool.connections := {[ "10.0.0.1:50051" := 1%positive ]} |}.

Definition stale_transport : Pool.Transport :=
  {| Pool.conn_state := {[ 1%positive := Pool.TransientFailure ]};
     Pool.dialled := ["10.0.0.1:50051"];
     Pool.next_conn := 2%positive |}.

Definition unreachable : Pool.Transport -> string -> bool := fun _ _ => false.

(** A descriptor set for the echo service. [input] and [output] are the
    type names of its one method: a schema compiler writes them fully
    qualified with a leading dot, [".echo.EchoRequest"]; the transcoder's
    lookups compare them with names composed without it. *)
Definition say_method (input output : string) : Loader.MethodDescriptorProto :=
  {| Loader.method_name := "Say"; Loader.input_type := input;
     Loader.output_type := output |}.

Definition echo_file (input output : string) : Loader.FileDescriptorProto :=
  {| Loader.file_name := "echo.proto";
     Loader.package := "echo";
     Loader.MessageType :=
       [Loader.Descriptor "EchoRequest" [Loader.Descriptor "Options" []];
        Loader.Descriptor "EchoReply" []];
     Loader.Service :=
       [ {| Loader.service_name := "Echo";
            Loader.Method := [say_method input output] |} ] |}.

Definition dotted_files : Loader.FileDescriptorSet :=
  [echo_file ".echo.EchoRequest" ".echo.EchoReply"].

Definition plain_files : Loader.FileDescriptorSet :=
  [echo_file "echo.EchoRequest" "echo.EchoReply"].

(** A registry that knows one instance of [echo.Echo], a network on which
    every dial succeeds, and a transport layer on which nothing has been
    dialled yet. *)
Definition discover_echo (serviceName : string) : list ServiceInstance + string :=
  if String.eqb serviceName "echo.Echo" then inl [echo_1] else inl [].

Definition reachable : Pool.Transport -> string -> bool := fun _ _ => true.

Definition fresh_transport : Pool.Transport :=
  {| Pool.conn_state := ∅; Pool.dialled := []; Pool.next_conn := 1%positive |}.

(** The gRPC server after [SetRegistry]: a forwarder with an empty pool and
    a fresh round-robin balancer. *)
Definition grpc_server : @GrpcIngress.Server RoundRobinLoadBalancer :=
  {| GrpcIngress.proxy :=
       Some {| GrpcIngress.connPool := Pool.NewConnectionPool;
               GrpcIngress.loadBalance := NewRoundRobinLoadBalancer |} |}.

(** The transcoder after [NewHTTPProxy] over a descriptor set: empty pool,
    fresh round-robin balancer, empty prototype cache; and the world it
    starts in. *)
Definition new_proxy (files : Loader.FileDescriptorSet)
  : @HttpProxy.HTTPProxy RoundRobinLoadBalancer :=
  {| HttpProxy.protoLoader := files;
     HttpProxy.connPool := Pool.NewConnectionPool;
     HttpProxy.loadBalance := NewRoundRobinLoadBalancer;
     HttpProxy.msgCache := ∅ |}.

Definition fresh_world : HttpProxy.World :=
  {| HttpProxy.heap := {| HttpProxy.cells := ∅; HttpProxy.next_ref := 1%positive |};
     HttpProxy.transport := fresh_transport;
     HttpProxy.invoked := [] |}.

(** Collaborators for running the transcoder: every file descriptor
    builds; a body is accepted unless it is empty, and becomes the
    contents; marshalling returns the contents; the backend echoes the
    request, or refuses it. *)
Definition all_files_build : Loader.FileDescriptorProto -> bool := fun _ => true.

Definition unmarshal_nonempty (jsonData : list byte) (m : HttpProxy.Message)
  : HttpProxy.Message * option string :=
  match jsonData with
  | [] => (m, Some "unexpected end of input")
  | _ => ({| HttpProxy.type_name := HttpProxy.type_name m;
             HttpProxy.contents := jsonData |}, None)
  end.

Definition marshal_contents (m : HttpProxy.Message) : list byte + string :=
  inl (HttpProxy.contents m).

Definition echo_backend (conn : positive) (fullMethod : string)
    (request : HttpProxy.Message) : list byte + HttpProxy.GoError :=
  inl (HttpProxy.contents request).

Definition refusing_backend (conn : positive) (fullMethod : string)
    (request : HttpProxy.Message) : list byte + HttpProxy.GoError :=
  inr (HttpProxy.StatusError HttpProxy.PermissionDenied "tenant not allowed").

(** The HTTP server after [SetHTTPProxy], and a POST of a body to a
    path. *)
Definition http_server (files : Loader.FileDescriptorSet)
  : @HttpIngress.Server RoundRobinLoadBalancer :=
  {| HttpIngress.httpProxy := Some (new_proxy files) |}.

Definition post (path : string) (body : list byte) : HttpIngress.Request :=
  {| HttpIngress.URL_Path := path; HttpIngress.Http_Method := "POST";
     HttpIngress.ReadAll_Body := inl body |}.

(** The transcoder once [echo.EchoRequest] has been asked for: its
    prototype is cached and lives on the heap. *)
Definition warm_proxy : @HttpProxy.HTTPProxy RoundRobinLoadBalancer :=
  {| HttpProxy.protoLoader := plain_files;
     HttpProxy.connPool := Pool.NewConnectionPool;
     HttpProxy.loadBalance := NewRoundRobinLoadBalancer;
     HttpProxy.msgCache := {[ "echo.EchoRequest" := 1%positive ]} |}.

Definition warm_heap : HttpProxy.Heap :=
  {| HttpProxy.cells :=
       {[ 1%positive := {| HttpProxy.type_name := "echo.EchoRequest";
                           HttpProxy.contents := [] |} ]};
     HttpProxy.next_ref := 2%positive |}.

(** A newer descriptor set for the echo service, in which [Echo] has a
    second method, [Shout]; a protoset registered for hot reload from an
    artifact repository; and collaborators for running a reload: a
    repository that answers every request with the same body, or refuses
    it; a temporary file name; a copy that succeeds; a decoder that
    yields the newer set for any data but the empty one. *)
Definition newer_files : Loader.FileDescriptorSet :=
  [ {| Loader.file_name := "echo.proto";
       Loader.package := "echo";
       Loader.MessageType :=
         [Loader.Descriptor "EchoRequest" []; Loader.Descriptor "EchoReply" []];
       Loader.Service :=
         [ {| Loader.service_name := "Echo";
              Loader.Method :=
                [say_method "echo.EchoRequest" "echo.EchoReply";
                 {| Loader.method_name := "Shout";
                    Loader.input_type := "echo.EchoRequest";
                    Loader.output_type := "echo.EchoReply" |}] |} ] |} ].

Definition echo_protoset : HotReload.ProtoSetInfo :=
  {| HotReload.ServiceName := "echo.Echo";
     HotReload.Path := "/etc/protos/echo.pb";
     HotReload.URL := "http://repo/echo.pb" |}.

Definition hot_reload_config : HotReload.ProtoHotReloadConfig :=
  {| HotReload.Enabled := true; HotReload.CheckPeriod := 30;
     HotReload.AuthToken := "secret" |}.

Definition request_ok : string -> option string := fun _ => None.

Definition repository_serves (url : string) (authorization : option string)
  : Z * list byte + string :=
  inl (200, ["n"%byte]).

Definition repository_refuses (url : string) (authorization : option string)
  : Z * list byte + string :=
  inl (403, []).

Definition temp_name (files : gmap string (list byte)) : string + string :=
  inl "/tmp/protoset-1.pb".

Definition copy_succeeds : list byte -> option (list byte * string) := fun _ => None.

Definition decode_newer (data : list byte) : Loader.FileDescriptorSet + string :=
  match data with
  | [] => inr "unexpected EOF"
  | _ => inl newer_files
  end.

End Examples.

(** * Properties *)

(** ** The HTTP path parser *)
Section ParserFacts.

Import GoStrings HttpIngress.
Local Open Scope string_scope.

Lemma eqb_empty_false (s : string) : String.eqb s "" = false <-> s <> "".
Proof. apply String.eqb_neq. Qed.

(** A list of at least two elements ends in its last two. *)
Lemma last_two_split {A} (l : list A) :
  (2 <= length l)%nat -> exists m s t, l = (m ++ [s; t])%list.
Proof.
  induction l as [|a l IH]; simpl; intros Hlen; [lia|].
  destruct l as [|b l]; simpl in *; [lia|].
  destruct l as [|c l].
  - exists [], a, b. reflexivity.
  - destruct IH as (m & s & t & Hm); [simpl; lia|].
    exists (a :: m), s, t. rewrite Hm. reflexivity.
Qed.

Lemma part_last_two (m : list string) (s t : string) :
  part (m ++ [s; t])%list (length (m ++ [s; t])%list - 1) = t /\
  part (m ++ [s; t])%list (length (m ++ [s; t])%list - 2) = s.
Proof.
  unfold part. rewrite length_app. simpl. split.
  - rewrite app_nth2 by lia. replace (_ - _)%nat with 1%nat by lia. reflexivity.
  - rewrite app_nth2 by lia. replace (_ - _)%nat with 0%nat by lia. reflexivity.
Qed.

(** Head, service and method of an accepted path are three distinct,
    non-empty components. *)
Lemma three_non_empty (parts : list string) :
  (3 <= length parts)%nat ->
  part parts 0 <> "" ->
  part parts (length parts - 2) <> "" ->
  part parts (length parts - 1) <> "" ->
  (3 <= length (List.filter non_empty parts))%nat.
Proof.
  intros Hlen H0 Hs Hm.
  destruct parts as [|p0 rest]; [simpl in Hlen; lia|].
  destruct (last_two_split rest) as (m & s & t & ->); [simpl in Hlen; lia|].
  change (p0 :: m ++ [s; t])%list with ((p0 :: m) ++ [s; t])%list in *.
  destruct (part_last_two (p0 :: m) s t) as [Et Es].
  rewrite Et in Hm. rewrite Es in Hs.
  unfold part in H0. simpl in H0.
  apply eqb_empty_false in H0, Hs, Hm.
  rewrite List.filter_app, length_app. simpl.
  unfold non_empty. rewrite H0, Hs, Hm. simpl. lia.
Qed.

Lemma ParseHTTPRequest_ok (path : string) (body : list byte) (r : HTTPRequest) :
  ParseHTTPRequest path body = inl r ->
  let parts := components path in
  (3 <= length parts)%nat /\ part parts 0 = "rpc" /\
  MethodName r = part parts (length parts - 1) /\ MethodName r <> "" /\
  ServiceName r = part parts (length parts - 2) /\ ServiceName r <> "" /\
  Tenant r = (if (3 <? length parts)%nat then part parts 1 else "") /\
  Body r = body.
Proof.
  unfold ParseHTTPRequest, components. cbv zeta.
  set (parts := Split (Trim path slash) slash).
  destruct (Nat.ltb_spec (length parts) 3) as [Hlt|Hge]; [discriminate|].
  destruct (String.eqb_spec (part parts 0) "rpc") as [Hrpc|Hrpc]; simpl; [|discriminate].
  destruct (String.eqb_spec (part parts (length parts - 1)) "") as [Hm|Hm]; [discriminate|].
  destruct (String.eqb_spec (part parts (length parts - 2)) "") as [Hs|Hs]; [discriminate|].
  intros [= <-]. simpl. repeat split; auto.
Qed.

Lemma ParseHTTPRequest_prefix (path : string) (body : list byte) :
  part (components path) 0 <> "rpc" ->
  exists e, ParseHTTPRequest path body = inr e.
Proof.
  unfold ParseHTTPRequest, components. cbv zeta.
  set (parts := Split (Trim path slash) slash). intros Hne.
  destruct (Nat.ltb_spec (length parts) 3) as [Hlt|Hge]; [eauto|].
  destruct (String.eqb_spec (part parts 0) "rpc") as [Hrpc|Hrpc]; simpl; [tauto|eauto].
Qed.

(** C5, as amended: the parser rejects every path whose first component
    after trimming is not [rpc]; an accepted path has at least three
    components, at least three of them non-empty, its last two being the
    service and the method; the tenant is the second component when the
    path has more than three components in all, that is when more than two
    components follow [rpc], and is empty otherwise; [/rpc/tenantA/echo.Echo/Say]
    parses to tenant [tenantA], service [echo.Echo], method [Say]. *)
Theorem ParseHTTPRequest_tenant_rule (path : string) (body : list byte) :
  let parts := components path in
  (part parts 0 <> "rpc" -> exists e, ParseHTTPRequest path body = inr e) /\
  (forall r, ParseHTTPRequest path body = inl r ->
     (3 <= length parts)%nat /\
     (3 <= length (List.filter non_empty parts))%nat /\
     part parts 0 = "rpc" /\
     MethodName r = part parts (length parts - 1) /\ MethodName r <> "" /\
     ServiceName r = part parts (length parts - 2) /\ ServiceName r <> "" /\
     Body r = body /\
     Tenant r = (if (3 <? length parts)%nat then part parts 1 else "") /\
     (Tenant r <> "" <->
      (2 < components_after_first path)%nat /\ part parts 1 <> "")) /\
  ParseHTTPRequest "/rpc/tenantA/echo.Echo/Say" body =
    inl {| Tenant := "tenantA"; ServiceName := "echo.Echo";
           MethodName := "Say"; Body := body |}.
Proof.
  intros parts. split; [apply ParseHTTPRequest_prefix|]. split; [|reflexivity].
  intros r Hr. apply ParseHTTPRequest_ok in Hr. cbv zeta in Hr.
  fold parts in Hr. destruct Hr as (Hlen & Hrpc & Hm & Hmne & Hs & Hsne & Ht & Hb).
  assert (Hne : (3 <= length (List.filter non_empty parts))%nat).
  { apply three_non_empty; congruence. }
  do 9 (split; [assumption|]).
  unfold components_after_first. fold parts. rewrite Ht.
  destruct (Nat.ltb_spec 3 (length parts)); split.
  - intros Hp. split; [lia|assumption].
  - tauto.
  - congruence.
  - intros [Hlt _]. lia.
Qed.

(** The rule as the claim words it, "more than three components follow
    [rpc]", fails on the claim's own example: three components follow
    [rpc] there and the tenant is reported. *)
Lemma ParseHTTPRequest_tenant_three_following :
  ~ (forall path body r,
       ParseHTTPRequest path body = inl r ->
       (Tenant r <> "" <-> (3 < components_after_first path)%nat)).
Proof.
  intros Hclaim.
  specialize (Hclaim "/rpc/tenantA/echo.Echo/Say" []
                {| Tenant := "tenantA"; ServiceName := "echo.Echo";
                   MethodName := "Say"; Body := [] |} eq_refl).
  destruct Hclaim as [Hfwd _].
  assert (Hlt : (3 < components_after_first "/rpc/tenantA/echo.Echo/Say")%nat)
    by (apply Hfwd; discriminate).
  vm_compute in Hlt. lia.
Qed.

End ParserFacts.

(** ** Integer facts *)
Section IntFacts.

Import GoInt.

Lemma wrap_uint64_small (z : Z) : 0 <= z < 2 ^ 64 -> wrap_uint64 z = z.
Proof. intros Hz. unfold wrap_uint64, uint64_modulus. apply Z.mod_small. lia. Qed.

Lemma wrap_int_small (z : Z) : - 2 ^ 63 <= z < 2 ^ 63 -> wrap_int z = z.
Proof.
  intros Hz. unfold wrap_int, uint64_modulus.
  rewrite Z.mod_small; lia.
Qed.

(** While the counter stays below [2^63], advancing it and converting it to
    [int] are exact. *)
Lemma advance_small (c : Z) :
  0 <= c -> c + 1 < 2 ^ 63 ->
  AddUint64_1 c = c + 1 /\ int_of_uint64 (AddUint64_1 c) = c + 1.
Proof.
  intros H0 H1. unfold AddUint64_1, int_of_uint64.
  rewrite wrap_uint64_small by lia.
  rewrite wrap_int_small by lia. auto.
Qed.

Lemma int_rem_nonneg (a b : Z) : 0 <= a -> 0 < b -> int_rem a b = a mod b.
Proof. intros Ha Hb. unfold int_rem. apply Z.rem_mod_nonneg; lia. Qed.

(** One more step of a floor division. *)
Lemma div_succ (m n : Z) :
  0 < n ->
  (m + 1) / n = m / n + (if (m + 1) mod n =? 0 then 1 else 0).
Proof.
  intros Hn.
  pose proof (Z.div_mod m n ltac:(lia)) as Hm.
  pose proof (Z.mod_pos_bound m n Hn) as Hr.
  generalize dependent (m / n). generalize dependent (m mod n). intros r Hr q Hm.
  assert (Hq : (m + 1) / n = q + (if r + 1 =? n then 1 else 0) /\
               (m + 1) mod n = if r + 1 =? n then 0 else r + 1).
  { destruct (Z.eqb_spec (r + 1) n).
    - split; symmetry.
      + apply (Z.div_unique _ _ _ 0); lia.
      + apply (Z.mod_unique _ _ (q + 1)); lia.
    - split; symmetry.
      + apply (Z.div_unique _ _ _ (r + 1)); lia.
      + apply (Z.mod_unique _ _ q); lia. }
  destruct Hq as [-> ->].
  destruct (Z.eqb_spec (r + 1) n); [reflexivity|].
  destruct (Z.eqb_spec (r + 1) 0); lia.
Qed.

Lemma mod_eq_iff_sub (x i n : Z) :
  0 < n -> 0 <= i < n -> (x mod n = i <-> (x - i) mod n = 0).
Proof.
  intros Hn Hi. split.
  - intros Hx. rewrite <- Hx. rewrite Zminus_mod_idemp_r.
    rewrite Z.sub_diag. apply Z.mod_0_l. lia.
  - intros Hx.
    pose proof (Z.div_mod (x - i) n ltac:(lia)) as Hd. rewrite Hx in Hd.
    symmetry. apply (Z.mod_unique _ _ ((x - i) / n)); [lia|]. lia.
Qed.

(** How many of the [k] values [c+1 .. c+k] are congruent to [i] modulo
    [n]. *)
Lemma count_residue (n c : Z) (k : nat) (i : Z) :
  0 < n -> 0 <= i < n ->
  Z.of_nat (count_occ Z.eq_dec
              (map (fun j => (c + Z.of_nat j) mod n) (seq 1 k)) i)
  = (c + Z.of_nat k - i) / n - (c - i) / n.
Proof.
  intros Hn Hi. induction k as [|k IH].
  - simpl. rewrite Z.add_0_r, Z.sub_diag. reflexivity.
  - rewrite seq_S, map_app, count_occ_app, Nat2Z.inj_add, IH.
    replace (c + Z.of_nat (S k) - i) with (c + Z.of_nat k - i + 1) by lia.
    rewrite (div_succ (c + Z.of_nat k - i) n Hn).
    replace (1 + k)%nat with (S k) by lia.
    replace (c + Z.of_nat k - i + 1) with (c + Z.of_nat (S k) - i) by lia.
    cbn [map count_occ].
    generalize (Z.of_nat (S k)). intros j.
    generalize ((c + Z.of_nat k - i) / n) ((c - i) / n). intros q1 q2.
    destruct (Z.eq_dec ((c + j) mod n) i) as [He|He].
    + apply mod_eq_iff_sub in He; [|lia|lia]. rewrite He. simpl. lia.
    + destruct (Z.eqb_spec ((c + j - i) mod n) 0) as [Hz|Hz].
      * apply mod_eq_iff_sub in Hz; [|lia|lia]. contradiction.
      * simpl. lia.
Qed.

(** Floor and ceiling of [k/n] bracket every count between them. *)
Lemma floor_or_ceil (k n v : Z) :
  0 < n -> k / n <= v <= (k + n - 1) / n ->
  v = k / n \/ v = (k + n - 1) / n.
Proof.
  intros Hn Hv.
  assert (Hc : (k + n - 1) / n <= k / n + 1).
  { replace (k / n + 1) with ((k + 1 * n) / n) by (rewrite Z.div_add; lia).
    apply Z.div_le_mono; lia. }
  lia.
Qed.

End IntFacts.

(** ** The round-robin balancer *)
Section RoundRobinFacts.

Import GoInt GoRun Registry Balancer.

Lemma len_pos {A} (l : list A) : l <> [] -> 0 < len l.
Proof. destruct l; [congruence|]. unfold len. simpl. lia. Qed.

Lemma len_eqb_nonempty {A} (l : list A) : l <> [] -> (len l =? 0) = false.
Proof. intros Hl. apply Z.eqb_neq. pose proof (len_pos l Hl). lia. Qed.

Lemma go_index_in_range {A} (l : list A) (i : Z) :
  0 <= i < len l ->
  exists x, l !! Z.to_nat i = Some x /\ go_index l i = Ret x.
Proof.
  intros Hi. unfold go_index.
  destruct (Z.ltb_spec i 0); [lia|].
  destruct (Z.leb_spec (len l) i); [lia|]. simpl.
  destruct (lookup_lt_is_Some_2 l (Z.to_nat i)) as [x Hx].
  { unfold len in Hi. lia. }
  exists x. rewrite Hx. auto.
Qed.

Lemma go_index_out_of_range {A} (l : list A) (i : Z) :
  i < 0 -> go_index l i = Panic "index out of range".
Proof. intros Hi. unfold go_index. destruct (Z.ltb_spec i 0); [reflexivity|lia]. Qed.

(** One selection while the counter is below [2^63 - 1]. *)
Lemma RoundRobin_step (c : Z) (instances : list ServiceInstance) :
  instances <> [] -> 0 <= c -> c + 1 < 2 ^ 63 ->
  RoundRobin_Select {| rr_counter := c |} instances
    = ({| rr_counter := c + 1 |},
       Ret (instances !! Z.to_nat ((c + 1) mod len instances))) /\
  RoundRobin_position {| rr_counter := c |} instances = (c + 1) mod len instances /\
  0 <= (c + 1) mod len instances < len instances.
Proof.
  intros Hne H0 H1.
  pose proof (len_pos instances Hne) as Hn.
  destruct (advance_small c H0 H1) as [Hadd Hint].
  unfold RoundRobin_Select, RoundRobin_position. cbn [rr_counter].
  rewrite (len_eqb_nonempty instances Hne), Hint, Hadd.
  rewrite int_rem_nonneg by lia.
  pose proof (Z.mod_pos_bound (c + 1) (len instances) Hn) as Hb.
  destruct (go_index_in_range instances _ Hb) as (x & Hx & ->).
  rewrite Hx. auto.
Qed.

Lemma RoundRobin_run (k : nat) (c : Z) (instances : list ServiceInstance) :
  instances <> [] -> 0 <= c -> c + Z.of_nat k < 2 ^ 63 ->
  RoundRobin_positions k {| rr_counter := c |} instances
    = map (fun j => (c + Z.of_nat j) mod len instances) (seq 1 k) /\
  Selects k {| rr_counter := c |} instances
    = map (fun i => Ret (instances !! Z.to_nat i))
          (RoundRobin_positions k {| rr_counter := c |} instances) /\
  after_Selects k {| rr_counter := c |} instances
    = {| rr_counter := c + Z.of_nat k |}.
Proof.
  intros Hne. revert c. induction k as [|k IH]; intros c H0 Hk.
  - cbn. rewrite Z.add_0_r. auto.
  - destruct (RoundRobin_step c instances Hne H0 ltac:(lia)) as (Hsel & Hpos & _).
    destruct (IH (c + 1) ltac:(lia) ltac:(lia)) as (IHp & IHs & IHa).
    cbn [RoundRobin_positions Selects after_Selects Select RoundRobin_LoadBalancer].
    rewrite Hsel, Hpos. cbn [fst]. rewrite IHs, IHa, IHp.
    repeat split.
    + cbn [seq map]. f_equal.
      rewrite <- (seq_shift k 1), map_map. apply map_ext. intros j. f_equal. lia.
    + f_equal. lia.
Qed.

(** C6, as amended: on a fresh round-robin balancer the first [Select]
    over a non-empty list of [n] instances returns the instance at index
    [1 mod n]; and for every [k] with [1 <= k < 2^63], the [k] selections
    over a fixed list return the instances at the traced positions, each
    position of the list being selected [k/n] or [ceil(k/n)] times. *)
Theorem RoundRobin_fair_below_int_range
    (instances : list ServiceInstance) (k : nat) :
  instances <> [] -> (1 <= k)%nat -> Z.of_nat k < 2 ^ 63 ->
  let n := len instances in
  let lb := NewRoundRobinLoadBalancer in
  let positions := RoundRobin_positions k lb instances in
  (exists first, instances !! Z.to_nat (1 mod n) = Some first /\
                 snd (Select lb instances) = Ret (Some first)) /\
  Selects k lb instances = map (fun i => Ret (instances !! Z.to_nat i)) positions /\
  Forall (fun i => 0 <= i < n) positions /\
  forall i, 0 <= i < n ->
    let times := Z.of_nat (count_occ Z.eq_dec positions i) in
    times = Z.of_nat k / n \/ times = (Z.of_nat k + n - 1) / n.
Proof.
  intros Hne Hk1 Hk n lb positions.
  pose proof (len_pos instances Hne) as Hn. fold n in Hn.
  destruct (RoundRobin_run k 0 instances Hne ltac:(lia) ltac:(lia)) as (Hp & Hs & _).
  fold n in Hp. change {| rr_counter := 0 |} with lb in *. fold positions in Hp, Hs.
  split; [|split; [|split]].
  - destruct (RoundRobin_step 0 instances Hne ltac:(lia) ltac:(lia)) as (Hsel & _ & Hb).
    destruct (lookup_lt_is_Some_2 instances (Z.to_nat (1 mod n))) as [x Hx].
    { change (0 + 1) with 1 in Hb. fold n in Hb. revert Hb.
      generalize (1 mod n). unfold n, len. lia. }
    exists x. split; [exact Hx|].
    cbn [Select RoundRobin_LoadBalancer]. unfold lb, NewRoundRobinLoadBalancer.
    rewrite Hsel. cbn [snd]. change (0 + 1) with 1. fold n. rewrite Hx. reflexivity.
  - exact Hs.
  - rewrite Hp. apply List.Forall_forall. intros i Hi.
    apply in_map_iff in Hi. destruct Hi as (j & <- & _).
    apply Z.mod_pos_bound. exact Hn.
  - intros i Hi times. unfold times. rewrite Hp.
    rewrite (count_residue n 0 k i Hn Hi).
    apply floor_or_ceil; [exact Hn|].
    rewrite !Z.add_0_l.
    destruct (Z.eq_dec i 0) as [->|Hi0].
    + assert (Hz : (0 - 0) / n = 0) by reflexivity.
      rewrite Hz, !Z.sub_0_r.
      split; [lia|]. apply Z.div_le_mono; lia.
    + assert (Hneg : (0 - i) / n = -1).
      { symmetry. apply (Z.div_unique _ _ _ (n - i)); lia. }
      rewrite Hneg.
      assert (Hshift : (Z.of_nat k - i) / n - -1 = (Z.of_nat k - i + 1 * n) / n).
      { rewrite Z.div_add by lia. lia. }
      rewrite Hshift. split; apply Z.div_le_mono; lia.
Qed.

(** The theorem at work: seven selections over three instances. *)
Lemma RoundRobin_fair_below_int_range_witness :
  Selects 7 NewRoundRobinLoadBalancer [Examples.echo_1; Examples.echo_2; Examples.echo_3]
  = map (fun i => Ret ([Examples.echo_1; Examples.echo_2; Examples.echo_3] !! Z.to_nat i))
        (RoundRobin_positions 7 NewRoundRobinLoadBalancer
           [Examples.echo_1; Examples.echo_2; Examples.echo_3]).
Proof.
  exact (proj1 (proj2 (RoundRobin_fair_below_int_range
           [Examples.echo_1; Examples.echo_2; Examples.echo_3] 7
           ltac:(discriminate) ltac:(lia) ltac:(reflexivity)))).
Defined.

End RoundRobinFacts.

Section RoundRobinOverflow.

Import GoInt GoRun Registry Balancer.

Lemma RoundRobin_positions_app (k1 k2 : nat) (lb : RoundRobinLoadBalancer)
    (instances : list ServiceInstance) :
  RoundRobin_positions (k1 + k2) lb instances
  = RoundRobin_positions k1 lb instances ++
    RoundRobin_positions k2 (after_Selects k1 lb instances) instances.
Proof.
  revert lb. induction k1 as [|k1 IH]; intros lb; [reflexivity|].
  cbn [Nat.add RoundRobin_positions after_Selects app]. rewrite IH. reflexivity.
Qed.

(** Past [2^63 - 1] selections the counter, read as an [int], is negative:
    over three instances the next two selections compute the indices [-2]
    and [-1] and panic, so position [0] has been selected [(2^63 - 1) / 3]
    times after [2^63 + 1] selections. *)
Lemma RoundRobin_count_past_int_range (k1 : nat) (a b c : ServiceInstance) :
  Z.of_nat k1 = 2 ^ 63 - 1 ->
  Z.of_nat (count_occ Z.eq_dec
              (RoundRobin_positions (k1 + 2) NewRoundRobinLoadBalancer [a; b; c]) 0)
  = (2 ^ 63 - 1) / 3 /\
  Selects 2 (after_Selects k1 NewRoundRobinLoadBalancer [a; b; c]) [a; b; c]
  = [Panic "index out of range"; Panic "index out of range"].
Proof.
  intros Hk1.
  destruct (RoundRobin_run k1 0 [a; b; c] ltac:(discriminate) ltac:(lia) ltac:(lia))
    as (Hp & _ & Ha).
  change {| rr_counter := 0 |} with NewRoundRobinLoadBalancer in *.
  rewrite RoundRobin_positions_app, Ha, count_occ_app, Hp, Nat2Z.inj_add.
  rewrite Z.add_0_l, Hk1.
  change (len [a; b; c]) with 3.
  rewrite (count_residue 3 0 k1 0 ltac:(lia) ltac:(lia)), Hk1.
  split; [|vm_compute; reflexivity].
  replace (Z.of_nat (count_occ Z.eq_dec
             (RoundRobin_positions 2 {| rr_counter := 2 ^ 63 - 1 |} [a; b; c]) 0))
    with 0 by (vm_compute; reflexivity).
  vm_compute. reflexivity.
Qed.

(** The claim as worded, for every [k >= 1], fails at [k = 2^63 + 1] over
    three instances: position [0] has then been selected
    [(2^63 - 1) / 3] times, which is neither the floor nor the ceiling of
    [k / 3]. *)
Lemma RoundRobin_unfair_past_int_range :
  ~ (forall (instances : list ServiceInstance) (k : nat) (i : Z),
       instances <> [] -> (1 <= k)%nat -> 0 <= i < len instances ->
       let times :=
         Z.of_nat (count_occ Z.eq_dec
           (RoundRobin_positions k NewRoundRobinLoadBalancer instances) i) in
       times = Z.of_nat k / len instances \/
       times = (Z.of_nat k + len instances - 1) / len instances).
Proof.
  intros Hclaim.
  pose (a := Examples.echo_1). pose (b := Examples.echo_2).
  pose (c := Examples.echo_3).
  assert (Hk1 : Z.of_nat (Z.to_nat (2 ^ 63 - 1)) = 2 ^ 63 - 1)
    by (apply Z2Nat.id; lia).
  revert Hk1. generalize (Z.to_nat (2 ^ 63 - 1)). intros k1 Hk1.
  specialize (Hclaim [a; b; c] (k1 + 2)%nat 0 ltac:(discriminate) ltac:(lia)
                     ltac:(vm_compute; split; congruence)).
  cbv zeta in Hclaim.
  destruct (RoundRobin_count_past_int_range k1 a b c Hk1) as [Hcount _].
  rewrite Hcount, Nat2Z.inj_add, Hk1 in Hclaim.
  change (len [a; b; c]) with 3 in Hclaim.
  vm_compute in Hclaim. destruct Hclaim; discriminate.
Qed.

End RoundRobinOverflow.

(** ** The weighted balancer *)
Section WeightedFacts.

Import GoInt GoRun Registry Balancer.
Local Open Scope string_scope.

Variable scan : string -> option Z.

Lemma Sscanf_int_range (s : string) (v : Z) :
  Sscanf_int scan s = Some v -> min_int <= v <= max_int.
Proof.
  unfold Sscanf_int. destruct (scan s) as [v'|]; [|discriminate].
  destruct (is_int v') eqn:Hint; [|discriminate]. intros [= <-].
  unfold is_int in Hint. apply andb_prop in Hint. destruct Hint as [Hlo Hhi].
  apply Z.leb_le in Hlo, Hhi. auto.
Qed.

Lemma getWeight_bounds (instance : ServiceInstance) :
  1 <= getWeight scan instance <= max_int.
Proof.
  unfold getWeight.
  assert (H1 : 1 <= 1 <= max_int) by (unfold max_int; lia).
  destruct (Metadata instance) as [metadata|]; [|exact H1].
  destruct (metadata !! "weight") as [weightStr|]; [|exact H1].
  destruct (Sscanf_int scan weightStr) as [weight|] eqn:Hscan; [|exact H1].
  destruct (Z.ltb_spec 0 weight); [|exact H1].
  apply Sscanf_int_range in Hscan. lia.
Qed.

Lemma weight_sum_ge_len (instances : list ServiceInstance) :
  len instances <= weight_sum scan instances.
Proof.
  induction instances as [|x l IH]; [reflexivity|].
  unfold len in *. cbn [weight_sum fold_right length].
  fold (weight_sum scan l).
  pose proof (getWeight_bounds x). lia.
Qed.

Lemma wrap_int_add (x y : Z) : int_add (wrap_int x) y = wrap_int (x + y).
Proof.
  unfold int_add, wrap_int.
  replace ((x + 2 ^ 63) mod uint64_modulus - 2 ^ 63 + y + 2 ^ 63)
    with ((x + 2 ^ 63) mod uint64_modulus + y) by lia.
  rewrite Zplus_mod_idemp_l. f_equal. f_equal. lia.
Qed.

Lemma totalWeight_fold (instances : list ServiceInstance) (acc : Z) :
  fold_left (fun totalWeight instance => int_add totalWeight (getWeight scan instance))
            instances (wrap_int acc)
  = wrap_int (acc + weight_sum scan instances).
Proof.
  revert acc. induction instances as [|x l IH]; intros acc.
  - cbn. rewrite Z.add_0_r. reflexivity.
  - cbn [fold_left weight_sum fold_right]. fold (weight_sum scan l).
    rewrite wrap_int_add, IH. f_equal. lia.
Qed.

(** The total the balancer computes is the sum of the weights reduced to
    an [int]. *)
Lemma totalWeight_wraps (instances : list ServiceInstance) :
  totalWeight_of scan instances = wrap_int (weight_sum scan instances).
Proof.
  unfold totalWeight_of. change 0 with (wrap_int 0) at 1.
  rewrite totalWeight_fold. reflexivity.
Qed.

Lemma totalWeight_exact (instances : list ServiceInstance) :
  weight_sum scan instances <= max_int ->
  totalWeight_of scan instances = weight_sum scan instances.
Proof.
  intros Hsum. rewrite totalWeight_wraps. apply wrap_int_small.
  pose proof (weight_sum_ge_len instances). unfold max_int, len in *. lia.
Qed.

(** Without overflow the walk of the code stops where the walk of the
    specification does. *)
Lemma walk_first_exceeding (instances : list ServiceInstance)
    (offset currentWeight : Z) :
  0 <= currentWeight ->
  currentWeight + weight_sum scan instances <= max_int ->
  walk scan offset currentWeight instances
  = at_position instances (first_exceeding scan (offset - currentWeight) instances).
Proof.
  revert currentWeight.
  induction instances as [|x l IH]; intros cw H0 Hsum; [reflexivity|].
  cbn [walk first_exceeding weight_sum fold_right] in *. fold (weight_sum scan l) in Hsum.
  pose proof (getWeight_bounds x) as Hw.
  pose proof (weight_sum_ge_len l) as Hl. unfold len in Hl.
  unfold int_add. rewrite wrap_int_small by (unfold max_int in *; lia).
  destruct (Z.ltb_spec offset (cw + getWeight scan x));
    destruct (Z.ltb_spec (offset - cw) (getWeight scan x)); try lia.
  - reflexivity.
  - rewrite IH by lia.
    replace (offset - (cw + getWeight scan x))
      with (offset - cw - getWeight scan x) by lia.
    destruct (first_exceeding scan _ l); reflexivity.
Qed.

Lemma first_exceeding_below (instances : list ServiceInstance) (offset : Z) :
  0 <= offset < weight_sum scan instances ->
  exists i, first_exceeding scan offset instances = Some i /\
            (i < length instances)%nat.
Proof.
  revert offset. induction instances as [|x l IH]; intros offset Hlt.
  - cbn in Hlt. lia.
  - cbn [first_exceeding weight_sum fold_right] in *. fold (weight_sum scan l) in Hlt.
    destruct (Z.ltb_spec offset (getWeight scan x)).
    + exists 0%nat. split; [reflexivity|simpl; lia].
    + destruct (IH (offset - getWeight scan x) ltac:(lia)) as (i & -> & Hi).
      exists (S i). split; [reflexivity|simpl; lia].
Qed.

Lemma weight_sum_pos (instances : list ServiceInstance) :
  instances <> [] -> 0 < weight_sum scan instances.
Proof.
  intros Hne. pose proof (weight_sum_ge_len instances).
  pose proof (len_pos instances Hne). lia.
Qed.

(** One selection, while the weights add up within [int] and the counter
    stays below [2^63 - 1]. *)
Lemma Weighted_step (c : Z) (instances : list ServiceInstance) :
  instances <> [] -> weight_sum scan instances <= max_int ->
  0 <= c -> c + 1 < 2 ^ 63 ->
  Weighted_Select scan {| w_counter := c |} instances
  = ({| w_counter := c + 1 |},
     Ret (at_position instances (spec_position scan c instances))) /\
  exists i, spec_position scan c instances = Some i /\ (i < length instances)%nat.
Proof.
  intros Hne Hsum H0 H1.
  pose proof (weight_sum_pos instances Hne) as HW.
  destruct (advance_small c H0 H1) as [Hadd Hint].
  assert (Hoff : 0 <= (c + 1) mod weight_sum scan instances < weight_sum scan instances)
    by (apply Z.mod_pos_bound; exact HW).
  destruct (first_exceeding_below instances _ Hoff) as (i & Hi & Hlt).
  split; [|exists i; split; [exact Hi|exact Hlt]].
  unfold Weighted_Select. cbn [w_counter].
  rewrite (len_eqb_nonempty instances Hne), (totalWeight_exact instances Hsum).
  destruct (Z.eqb_spec (weight_sum scan instances) 0); [lia|].
  rewrite Hint, Hadd, int_rem_nonneg by lia.
  rewrite walk_first_exceeding by lia. rewrite Z.sub_0_r.
  unfold spec_position. rewrite Hi. cbn [at_position].
  destruct (lookup_lt_is_Some_2 instances i Hlt) as [x ->]. reflexivity.
Qed.

Lemma Weighted_run (k : nat) (c : Z) (instances : list ServiceInstance) :
  instances <> [] -> weight_sum scan instances <= max_int ->
  0 <= c -> c + Z.of_nat k < 2 ^ 63 ->
  @Selects _ (Weighted_LoadBalancer scan) k {| w_counter := c |} instances
  = map (fun p => Ret (at_position instances p)) (spec_positions scan k c instances) /\
  Forall (fun p => exists i, p = Some i /\ (i < length instances)%nat)
         (spec_positions scan k c instances).
Proof.
  intros Hne Hsum. revert c. induction k as [|k IH]; intros c H0 Hk.
  - split; [reflexivity|constructor].
  - destruct (Weighted_step c instances Hne Hsum H0 ltac:(lia)) as [Hsel Hpos].
    destruct (IH (c + 1) ltac:(lia) ltac:(lia)) as [IHs IHp].
    cbn [Selects Select Weighted_LoadBalancer spec_positions map].
    rewrite Hsel, IHs. split; [reflexivity|].
    constructor; assumption.
Qed.

Lemma spec_positions_map (k : nat) (c : Z) (instances : list ServiceInstance) :
  spec_positions scan k c instances
  = map (fun offset => first_exceeding scan offset instances)
        (map (fun j => (c + Z.of_nat j) mod weight_sum scan instances) (seq 1 k)).
Proof.
  revert c. induction k as [|k IH]; intros c; [reflexivity|].
  cbn [spec_positions seq map]. unfold spec_position at 1. f_equal.
  rewrite IH, <- (seq_shift k 1), !map_map. apply map_ext.
  intros j. do 2 f_equal. lia.
Qed.

(** A window of [W] consecutive counter values meets every offset below
    [W] once. *)
Lemma offsets_window (W c : Z) :
  0 < W ->
  Permutation (map (fun j => (c + Z.of_nat j) mod W) (seq 1 (Z.to_nat W)))
              (map Z.of_nat (seq 0 (Z.to_nat W))).
Proof.
  intros HW. apply NoDup_Permutation_bis.
  - apply NoDup_map_NoDup_ForallPairs; [|apply seq_NoDup].
    intros j1 j2 Hj1 Hj2 Heq. apply in_seq in Hj1, Hj2.
    assert (Hdiv : ((c + Z.of_nat j1) - (c + Z.of_nat j2)) mod W = 0).
    { rewrite Zminus_mod, Heq, Z.sub_diag. apply Zmod_0_l. }
    apply Z.mod_divide in Hdiv; [|lia]. destruct Hdiv as [q Hq].
    assert (q = 0) by nia. subst q. lia.
  - rewrite !length_map, !length_seq. reflexivity.
  - intros x Hx. apply in_map_iff in Hx. destruct Hx as (j & <- & _).
    pose proof (Z.mod_pos_bound (c + Z.of_nat j) W HW) as Hb.
    apply in_map_iff. exists (Z.to_nat ((c + Z.of_nat j) mod W)).
    split; [lia|]. apply in_seq. lia.
Qed.

(** Over the offsets [0 .. W-1] the walk stops at position [i] exactly
    [w_i] times. *)
Lemma first_exceeding_counts (instances : list ServiceInstance) (i : nat)
    (instance : ServiceInstance) :
  instances !! i = Some instance ->
  Z.of_nat (times_chosen i
    (map (fun offset => first_exceeding scan offset instances)
         (map Z.of_nat (seq 0 (Z.to_nat (weight_sum scan instances))))))
  = getWeight scan instance.
Proof.
  revert i. induction instances as [|x l IH]; intros i Hi; [discriminate|].
  cbn [weight_sum fold_right]. fold (weight_sum scan l).
  pose proof (getWeight_bounds x) as Hw.
  pose proof (weight_sum_ge_len l) as Hl. unfold len in Hl.
  rewrite Z2Nat.inj_add by lia.
  rewrite seq_app, !map_app. unfold times_chosen. rewrite count_occ_app.
  cbn [Nat.add].
  (* offsets below the first weight stop at position 0 *)
  assert (Hfirst : forall n : nat, (n <= Z.to_nat (getWeight scan x))%nat ->
    map (fun offset => first_exceeding scan offset (x :: l)) (map Z.of_nat (seq 0 n))
    = repeat (Some 0%nat) n).
  { induction n as [|n IHn]; intros Hn; [reflexivity|].
    rewrite seq_S, !map_app, IHn by lia. cbn [Nat.add map first_exceeding].
    destruct (Z.ltb_spec (Z.of_nat n) (getWeight scan x)); [|lia].
    rewrite <- repeat_cons. reflexivity. }
  rewrite Hfirst by lia.
  (* the others continue the walk in the tail *)
  assert (Hrest :
    map (fun offset => first_exceeding scan offset (x :: l))
        (map Z.of_nat (seq (Z.to_nat (getWeight scan x)) (Z.to_nat (weight_sum scan l))))
    = map (fmap S)
        (map (fun offset => first_exceeding scan offset l)
             (map Z.of_nat (seq 0 (Z.to_nat (weight_sum scan l)))))).
  { generalize (Z.to_nat (weight_sum scan l)). intros n.
    induction n as [|n IHn]; [reflexivity|].
    rewrite !seq_S, !map_app, IHn. f_equal.
    cbn [Nat.add map first_exceeding].
    destruct (Z.ltb_spec (Z.of_nat (Z.to_nat (getWeight scan x) + n)) (getWeight scan x));
      [lia|].
    do 3 f_equal. lia. }
  rewrite Hrest.
  destruct i as [|i].
  - cbn in Hi. injection Hi as ->.
    rewrite count_occ_repeat_eq by reflexivity.
    replace (count_occ option_eq_dec (map (fmap S) _) (Some 0%nat)) with 0%nat; [lia|].
    symmetry. apply count_occ_not_In. intros Hin.
    apply in_map_iff in Hin. destruct Hin as ([j|] & Hj & _); discriminate.
  - cbn in Hi. rewrite count_occ_repeat_neq by discriminate.
    rewrite <- (IH i Hi). unfold times_chosen. cbn [Nat.add]. f_equal.
    generalize (map (fun offset => first_exceeding scan offset l)
                 (map Z.of_nat (seq 0 (Z.to_nat (weight_sum scan l))))).
    intros ps. induction ps as [|p ps IHps]; [reflexivity|].
    cbn [map count_occ]. rewrite IHps.
    destruct p as [j|]; cbn [fmap option_fmap option_map].
    + destruct (option_eq_dec (Some (S j)) (Some (S i)));
        destruct (option_eq_dec (Some j) (Some i)); congruence.
    + destruct (option_eq_dec None (Some (S i)));
        destruct (option_eq_dec None (Some i)); congruence.
Qed.

(** C7, as amended: every weight is at least 1; while the weights add up
    within [int] and the counter stays below [2^63], each [Select]
    advances the counter, takes [offset = counter mod total_weight] and
    returns the first instance whose cumulative weight strictly exceeds the
    offset; so the [k = sum of the weights] consecutive selections over a
    fixed non-empty list choose each position [i] exactly [w_i] times. *)
Theorem Weighted_distribution_in_int_range
    (instances : list ServiceInstance) (c : Z) :
  instances <> [] ->
  weight_sum scan instances <= max_int ->
  0 <= c -> c + weight_sum scan instances < 2 ^ 63 ->
  (forall instance, 1 <= getWeight scan instance) /\
  (forall k : nat, Z.of_nat k <= weight_sum scan instances ->
     @Selects _ (Weighted_LoadBalancer scan) k {| w_counter := c |} instances
     = map (fun p => Ret (at_position instances p))
           (spec_positions scan k c instances) /\
     Forall (fun p => exists i, p = Some i /\ (i < length instances)%nat)
            (spec_positions scan k c instances)) /\
  (forall i instance, instances !! i = Some instance ->
     Z.of_nat (times_chosen i
       (spec_positions scan (Z.to_nat (weight_sum scan instances)) c instances))
     = getWeight scan instance).
Proof.
  intros Hne Hsum H0 Hc.
  pose proof (weight_sum_pos instances Hne) as HW.
  split; [intros x; apply getWeight_bounds|]. split.
  - intros k Hk. apply Weighted_run; auto. lia.
  - intros i x Hi. rewrite spec_positions_map.
    rewrite <- (first_exceeding_counts instances i x Hi).
    unfold times_chosen. f_equal.
    apply Permutation_count_occ, Permutation_map, offsets_window. exact HW.
Qed.

(** C10, as amended: [getWeight] returns at least 1 for every instance,
    and 1 when the weight entry is missing, unparseable or not positive;
    the sum of the weights is at least the list length, and the total the
    balancer computes is that sum reduced to an [int]; so for a non-empty
    list whose weights add up within [int] the computed total is at least
    the list length and the [totalWeight == 0] branch is not taken. *)
Theorem getWeight_total_in_int_range (instances : list ServiceInstance) :
  instances <> [] ->
  weight_sum scan instances <= max_int ->
  (forall instance, 1 <= getWeight scan instance <= max_int) /\
  (forall instance, weight_defaulted scan instance -> getWeight scan instance = 1) /\
  len instances <= weight_sum scan instances /\
  totalWeight_of scan instances = wrap_int (weight_sum scan instances) /\
  len instances <= totalWeight_of scan instances /\
  (totalWeight_of scan instances =? 0)%Z = false.
Proof.
  intros Hne Hsum.
  pose proof (weight_sum_ge_len instances) as Hlen.
  pose proof (len_pos instances Hne) as Hpos.
  split; [apply getWeight_bounds|]. split.
  { intros x. unfold weight_defaulted, getWeight.
    destruct (Metadata x) as [metadata|]; [|reflexivity].
    destruct (metadata !! "weight") as [weightStr|]; [|reflexivity].
    destruct (Sscanf_int scan weightStr) as [weight|]; [|reflexivity].
    intros Hle. destruct (Z.ltb_spec 0 weight); [lia|reflexivity]. }
  split; [exact Hlen|]. split; [apply totalWeight_wraps|].
  rewrite (totalWeight_exact instances Hsum).
  split; [exact Hlen|]. apply Z.eqb_neq. lia.
Qed.

End WeightedFacts.

Section WeightedExamples.

Import GoInt GoRun Registry Balancer Examples.

(** The specification's scenario, one window: weights 1 and 3, four
    selections, the second instance chosen three times. *)
Lemma Weighted_distribution_in_int_range_witness :
  Z.of_nat (times_chosen 1 (spec_positions scan_decimal 4 0 [light; triple])) = 3.
Proof.
  exact (proj2 (proj2 (Weighted_distribution_in_int_range scan_decimal
           [light; triple] 0
           ltac:(discriminate) ltac:(vm_compute; discriminate)
           ltac:(lia) ltac:(vm_compute; reflexivity)))
         1%nat triple eq_refl).
Defined.

Lemma getWeight_total_in_int_range_witness :
  len [light; triple] <= totalWeight_of scan_decimal [light; triple] /\
  (totalWeight_of scan_decimal [light; triple] =? 0)%Z = false.
Proof.
  apply (getWeight_total_in_int_range scan_decimal [light; triple]);
    [discriminate | vm_compute; discriminate].
Defined.

(** Four weights of [2^62] add up to [2^64]: the total the balancer
    computes is 0, and a fresh balancer falls back to round-robin, which
    returns the second instance where the walk of the specification stops
    at the first. *)
Lemma heavy_four_total :
  weight_sum scan_decimal heavy_four = 2 ^ 64 /\
  totalWeight_of scan_decimal heavy_four = 0 /\
  snd (Weighted_Select scan_decimal NewWeightedLoadBalancer heavy_four)
    = Ret (Some (heavy "h1")) /\
  at_position heavy_four (spec_position scan_decimal 0 heavy_four)
    = Some (heavy "h0").
Proof. vm_compute. auto. Qed.

(** The selection rule as the claim words it fails once the weights
    overflow the total: over [heavy_four] a fresh balancer returns the
    second instance, not the first one whose cumulative weight exceeds
    the offset 1. *)
Lemma Weighted_Select_differs_when_total_wraps :
  ~ (forall (lb : WeightedLoadBalancer) (instances : list ServiceInstance),
       instances <> [] ->
       snd (Weighted_Select scan_decimal lb instances)
       = Ret (at_position instances
                (spec_position scan_decimal (w_counter lb) instances))).
Proof.
  intros Hclaim.
  specialize (Hclaim NewWeightedLoadBalancer heavy_four ltac:(discriminate)).
  destruct heavy_four_total as (_ & _ & Hcode & Hspec).
  rewrite Hcode in Hclaim. cbn [w_counter NewWeightedLoadBalancer] in Hclaim.
  rewrite Hspec in Hclaim.
  assert (Hid : ID (heavy "h1") = ID (heavy "h0")) by congruence.
  cbv [heavy echo_instance ID] in Hid. discriminate Hid.
Qed.

(** The total is not always at least the list length, and the
    [totalWeight == 0] branch can be taken: over [heavy_four] the computed
    total is 0. *)
Lemma totalWeight_zero_reachable :
  ~ (forall instances : list ServiceInstance,
       instances <> [] ->
       len instances <= totalWeight_of scan_decimal instances /\
       (totalWeight_of scan_decimal instances =? 0)%Z = false).
Proof.
  intros Hclaim.
  destruct (Hclaim heavy_four ltac:(discriminate)) as [_ Hnz].
  destruct heavy_four_total as (_ & Htotal & _).
  rewrite Htotal in Hnz. discriminate Hnz.
Qed.

End WeightedExamples.

(** ** The connection pool *)
Section PoolFacts.

Import Pool.
Local Open Scope string_scope.

Variable dial_ok : Transport -> string -> bool.

(** A call that finds no usable entry for the target dials. *)
Lemma GetConnection_miss_dials (p : ConnectionPool) (t : Transport) (target : string) :
  connections p !! target = None ->
  dialled (snd (fst (GetConnection dial_ok p t target))) = target :: dialled t.
Proof.
  intros Hmiss. unfold GetConnection, GetConnection_locked, Dial.
  rewrite Hmiss. destruct (dial_ok t target); reflexivity.
Qed.

(** The shape of a failed call: the entry found, if any, was unusable and
    has been closed and deleted; the dial was attempted and failed. *)
Lemma GetConnection_failed (p p' : ConnectionPool) (t t' : Transport)
    (target : string) (err : DialError) :
  GetConnection dial_ok p t target = (p', t', inr err) ->
  err = DialFailed target /\
  connections p' = delete target (connections p) /\
  dialled t' = target :: dialled t.
Proof.
  unfold GetConnection, GetConnection_locked.
  destruct (connections p !! target) as [conn|] eqn:Hlook.
  - destruct (usable (GetState t conn)); [discriminate|].
    unfold Dial. destruct (dial_ok (Close_conn t conn) target); [discriminate|].
    intros [= <- <- <-]. auto.
  - unfold Dial. destruct (dial_ok t target); [discriminate|].
    intros [= <- <- <-]. repeat split.
    symmetry. apply delete_id. exact Hlook.
Qed.

(** C9, as amended: when the dial for a target fails, [GetConnection]
    returns the dial error and inserts nothing: the map it leaves has no
    entry for the target and is the map it found less the unusable entry
    of that target, which it evicted before dialling (so it is unchanged
    when the target had no entry); the failed dial is not cached, a
    subsequent [GetConnection] for the same target dials again. *)
Theorem GetConnection_dial_failure (p p' : ConnectionPool) (t t' : Transport)
    (target : string) (err : DialError) :
  GetConnection dial_ok p t target = (p', t', inr err) ->
  err = DialFailed target /\
  connections p' !! target = None /\
  connections p' = delete target (connections p) /\
  (forall other, other <> target ->
     connections p' !! other = connections p !! other) /\
  (connections p !! target = None -> connections p' = connections p) /\
  dialled t' = target :: dialled t /\
  (forall t2 : Transport,
     dialled (snd (fst (GetConnection dial_ok p' t2 target)))
     = target :: dialled t2).
Proof.
  intros Hget. apply GetConnection_failed in Hget.
  destruct Hget as (Herr & Hmap & Hlog).
  assert (Hnone : connections p' !! target = None).
  { rewrite Hmap. apply lookup_delete_eq. }
  repeat split; auto.
  - intros other Hne. rewrite Hmap. apply lookup_delete_ne. congruence.
  - intros Hmiss. rewrite Hmap. apply delete_id. exact Hmiss.
  - intros t2. apply GetConnection_miss_dials. exact Hnone.
Qed.

End PoolFacts.

Section PoolExamples.

Import Pool Examples.
Local Open Scope string_scope.

Lemma stale_pool_get :
  GetConnection unreachable stale_pool stale_transport "10.0.0.1:50051"
  = ({| connections := ∅ |},
     {| conn_state := {[ 1%positive := Shutdown ]};
        dialled := ["10.0.0.1:50051"; "10.0.0.1:50051"];
        next_conn := 2%positive |},
     inr (DialFailed "10.0.0.1:50051")).
Proof.
  vm_compute. reflexivity.
Qed.

Lemma GetConnection_dial_failure_witness :
  connections (fst (fst (GetConnection unreachable stale_pool stale_transport
                            "10.0.0.1:50051"))) !! "10.0.0.1:50051" = None.
Proof.
  exact (proj1 (proj2 (GetConnection_dial_failure unreachable
           stale_pool _ stale_transport _ "10.0.0.1:50051" _ stale_pool_get))).
Defined.

(** The map is not left unchanged when the target had an unusable entry:
    the failed call has evicted it. *)
Lemma GetConnection_failure_evicts_stale :
  ~ (forall (dial_ok : Transport -> string -> bool) (p p' : ConnectionPool)
            (t t' : Transport) (target : string) (err : DialError),
       GetConnection dial_ok p t target = (p', t', inr err) ->
       connections p' = connections p).
Proof.
  intros Hclaim.
  specialize (Hclaim _ _ _ _ _ _ _ stale_pool_get).
  cbn [connections stale_pool] in Hclaim.
  assert (Hlook : (∅ : gmap string positive) !! "10.0.0.1:50051" = Some 1%positive).
  { rewrite Hclaim. apply lookup_singleton_eq. }
  rewrite lookup_empty in Hlook. discriminate.
Qed.

End PoolExamples.

(** ** The descriptor loader *)
Section LoaderFacts.

Import Loader.
Local Open Scope string_scope.

(** Induction over a message descriptor and its nested types. *)
Lemma DescriptorProto_nested_ind (P : DescriptorProto -> Prop) :
  (forall name nested, Forall P nested -> P (Descriptor name nested)) ->
  forall d, P d.
Proof.
  intros Hstep. fix IH 1. intros [name nested]. apply Hstep.
  induction nested as [|x l IHl]; constructor; [apply IH|exact IHl].
Qed.

Lemma findNestedMessage_among (msg : DescriptorProto) (fullName prefix : string) :
  findNestedMessage msg fullName prefix
  = findNestedAmong (NestedType msg) fullName prefix.
Proof.
  destruct msg as [name nested]. cbn [findNestedMessage NestedType].
  induction nested as [|x l IHl]; [reflexivity|].
  cbn [findNestedAmong]. rewrite <- IHl. reflexivity.
Qed.

Lemma findMessageInFile_among (msgs : list DescriptorProto) (fullName pkg : string) :
  findMessageInFile msgs fullName pkg = findNestedAmong msgs fullName pkg.
Proof.
  induction msgs as [|x l IHl]; [reflexivity|].
  cbn [findMessageInFile findNestedAmong]. rewrite IHl. reflexivity.
Qed.

Lemma declared_under_tail (x : DescriptorProto) (msgs : list DescriptorProto)
    (prefix fullName : string) (d : DescriptorProto) :
  declared_under msgs prefix fullName d ->
  declared_under (x :: msgs) prefix fullName d.
Proof.
  intros H. destruct H as [msgs prefix d Hin | msgs prefix outer fullName d Hin Hd].
  - apply declared_here. right. exact Hin.
  - apply (declared_nested _ _ outer); [right; exact Hin|exact Hd].
Qed.

Lemma declared_under_cons (x : DescriptorProto) (msgs : list DescriptorProto)
    (prefix fullName : string) (d : DescriptorProto) :
  declared_under (x :: msgs) prefix fullName d ->
  fullName = prefix ++ "." ++ GetName x \/
  declared_under (NestedType x) (prefix ++ "." ++ GetName x) fullName d \/
  declared_under msgs prefix fullName d.
Proof.
  intros H. inversion H as [ms pf d' Hin | ms pf outer fn d' Hin Hd]; subst.
  - destruct Hin as [->|Hin]; [left; reflexivity|].
    right; right. apply declared_here. exact Hin.
  - destruct Hin as [->|Hin]; [right; left; exact Hd|].
    right; right. apply (declared_nested _ _ outer); assumption.
Qed.

(** What the search among a list of messages returns is declared there
    under the name searched for. *)
Lemma findNestedAmong_sound (msgs : list DescriptorProto) :
  forall fullName prefix d,
    findNestedAmong msgs fullName prefix = Some d ->
    declared_under msgs prefix fullName d.
Proof.
  induction msgs as [|x l IHl]; intros fullName prefix d; [discriminate|].
  revert l IHl fullName prefix d.
  induction x as [name nested IHnested] using DescriptorProto_nested_ind.
  intros l IHl fullName prefix d. cbn [findNestedAmong GetName].
  destruct (String.eqb_spec (prefix ++ "." ++ name) fullName) as [<-|Hne].
  - intros [= <-]. apply (declared_here _ _ (Descriptor name nested)). left. reflexivity.
  - rewrite findNestedMessage_among. cbn [NestedType].
    destruct (findNestedAmong nested fullName (prefix ++ "." ++ name)) as [found|] eqn:Hfound.
    + intros [= <-].
      apply (declared_nested _ _ (Descriptor name nested)); [left; reflexivity|].
      cbn [NestedType GetName].
      clear IHl Hne. revert fullName found Hfound.
      generalize (prefix ++ "." ++ name). clear prefix name.
      induction IHnested as [|y nested' Hy Hrest IH']; intros pf fullName found Hfound;
        [discriminate|].
      apply (Hy nested' (fun fn p d' H' => IH' p fn d' H') fullName pf found Hfound).
    + intros Hrest. apply declared_under_tail. apply IHl. exact Hrest.
Qed.

(** A name declared among a list of messages is found by the search. *)
Lemma findNestedAmong_complete (msgs : list DescriptorProto) :
  forall fullName prefix d,
    declared_under msgs prefix fullName d ->
    is_Some (findNestedAmong msgs fullName prefix).
Proof.
  induction msgs as [|x l IHl]; intros fullName prefix d Hd.
  { inversion Hd as [ms pf d' Hin | ms pf outer fn d' Hin _]; destruct Hin. }
  revert l IHl fullName prefix d Hd.
  induction x as [name nested IHnested] using DescriptorProto_nested_ind.
  intros l IHl fullName prefix d Hd. cbn [findNestedAmong GetName].
  destruct (String.eqb_spec (prefix ++ "." ++ name) fullName) as [Heq|Hne]; [eauto|].
  rewrite findNestedMessage_among. cbn [NestedType].
  apply declared_under_cons in Hd. cbn [GetName NestedType] in Hd.
  destruct Hd as [Heq | [Hnested | Hrest]]; [congruence| |].
  - assert (Hs : is_Some (findNestedAmong nested fullName (prefix ++ "." ++ name))).
    { clear IHl Hne. revert fullName d Hnested.
      generalize (prefix ++ "." ++ name). clear prefix name.
      induction IHnested as [|y nested' Hy Hrest IH']; intros pf fullName d Hnested.
      { inversion Hnested as [ms p d' Hin | ms p outer fn d' Hin _]; destruct Hin. }
      apply (Hy nested' (fun fn p d' H' => IH' p fn d' H') fullName pf d Hnested). }
    destruct Hs as [found ->]. eauto.
  - destruct (findNestedAmong nested fullName (prefix ++ "." ++ name)); [eauto|].
    apply (IHl _ _ d). exact Hrest.
Qed.

Lemma FindMessageDescriptor_sound (fileSet : FileDescriptorSet)
    (fullName : string) (d : DescriptorProto) :
  FindMessageDescriptor fileSet fullName = Some d -> declared fileSet fullName d.
Proof.
  induction fileSet as [|file rest IH]; [discriminate|].
  cbn [FindMessageDescriptor]. rewrite findMessageInFile_among.
  destruct (findNestedAmong (MessageType file) fullName (package file)) as [msg|] eqn:Hf.
  - intros [= <-]. exists file. split; [left; reflexivity|].
    apply findNestedAmong_sound. exact Hf.
  - intros Hrest. destruct (IH Hrest) as (f & Hin & Hd).
    exists f. split; [right; exact Hin|exact Hd].
Qed.

Lemma FindMessageDescriptor_complete (fileSet : FileDescriptorSet)
    (fullName : string) (d : DescriptorProto) :
  declared fileSet fullName d -> is_Some (FindMessageDescriptor fileSet fullName).
Proof.
  intros (file & Hin & Hd).
  induction fileSet as [|f rest IH]; [destruct Hin|].
  cbn [FindMessageDescriptor]. rewrite findMessageInFile_among.
  destruct (findNestedAmong (MessageType f) fullName (package f)) as [msg|] eqn:Hf;
    [eauto|].
  destruct Hin as [->|Hin]; [|apply IH; exact Hin].
  apply findNestedAmong_complete in Hd. rewrite Hf in Hd. destruct Hd; discriminate.
Qed.

Lemma findMethod_In (methods : list MethodDescriptorProto) (methodName : string)
    (m : MethodDescriptorProto) :
  findMethod methods methodName = Some m -> In m methods.
Proof.
  induction methods as [|x l IH]; [discriminate|]. cbn [findMethod].
  destruct (String.eqb (method_name x) methodName).
  - intros [= <-]. left. reflexivity.
  - intros H. right. apply IH. exact H.
Qed.

Lemma findServiceInFile_In (pkg : string) (services : list ServiceDescriptorProto)
    (fullName : string) (s : ServiceDescriptorProto) :
  findServiceInFile pkg services fullName = Some s -> In s services.
Proof.
  induction services as [|x l IH]; [discriminate|]. cbn [findServiceInFile].
  destruct (String.eqb (pkg ++ "." ++ service_name x) fullName).
  - intros [= <-]. left. reflexivity.
  - intros H. right. apply IH. exact H.
Qed.

(** [FindMethodDescriptor] returns method descriptors of the set. *)
Lemma FindMethodDescriptor_in (fileSet : FileDescriptorSet)
    (serviceName methodName : string) (m : MethodDescriptorProto) :
  FindMethodDescriptor fileSet serviceName methodName = Some m ->
  method_in fileSet m.
Proof.
  unfold FindMethodDescriptor.
  destruct (FindServiceDescriptor fileSet serviceName) as [s|] eqn:Hs; [|discriminate].
  intros Hm. apply findMethod_In in Hm.
  induction fileSet as [|file rest IH]; [discriminate|].
  cbn [FindServiceDescriptor] in Hs.
  destruct (findServiceInFile (package file) (Service file) serviceName) as [s'|] eqn:Hf.
  - injection Hs as ->. apply findServiceInFile_In in Hf.
    exists file, s. repeat split; [left; reflexivity|exact Hf|exact Hm].
  - destruct (IH Hs) as (f & s' & Hin & Hsv & Hmm).
    exists f, s'. repeat split; [right; exact Hin|exact Hsv|exact Hmm].
Qed.

(** C3, as amended: for every method descriptor of the loaded set,
    [FindMessageDescriptor] resolves its [input_type] to a descriptor
    exactly when that string is the name, composed by concatenation from
    the package and the names of the enclosing messages, of a message
    declared in the set; the descriptor returned is then such a message. *)
Theorem FindMessageDescriptor_input_type (fileSet : FileDescriptorSet)
    (m : MethodDescriptorProto) :
  method_in fileSet m ->
  (is_Some (FindMessageDescriptor fileSet (input_type m)) <->
   exists d, declared fileSet (input_type m) d) /\
  (forall d, FindMessageDescriptor fileSet (input_type m) = Some d ->
             declared fileSet (input_type m) d).
Proof.
  intros _. split; [split|].
  - intros [d Hd]. exists d. apply FindMessageDescriptor_sound. exact Hd.
  - intros [d Hd]. apply (FindMessageDescriptor_complete _ _ d). exact Hd.
  - intros d. apply FindMessageDescriptor_sound.
Qed.

End LoaderFacts.

Section LoaderExamples.

Import Loader Examples.
Local Open Scope string_scope.

Lemma say_method_in (input output : string) :
  method_in [echo_file input output] (say_method input output).
Proof.
  exists (echo_file input output),
         {| service_name := "Echo"; Method := [say_method input output] |}.
  repeat split; left; reflexivity.
Qed.

Lemma FindMessageDescriptor_input_type_witness :
  is_Some (FindMessageDescriptor plain_files "echo.EchoRequest") <->
  exists d, declared plain_files "echo.EchoRequest" d.
Proof.
  exact (proj1 (FindMessageDescriptor_input_type plain_files
                  (say_method "echo.EchoRequest" "echo.EchoReply")
                  (say_method_in _ _))).
Defined.

(** A method of the set whose [input_type] does not resolve: the type name
    as a schema compiler writes it, with its leading dot. *)
Lemma FindMessageDescriptor_dotted_input_type :
  ~ (forall (fileSet : FileDescriptorSet) (m : MethodDescriptorProto),
       method_in fileSet m ->
       is_Some (FindMessageDescriptor fileSet (input_type m))).
Proof.
  intros Hclaim.
  destruct (Hclaim dotted_files (say_method ".echo.EchoRequest" ".echo.EchoReply")
              (say_method_in _ _)) as [d Hd].
  vm_compute in Hd. discriminate Hd.
Qed.

End LoaderExamples.

(** ** gRPC ingress *)
Section GrpcIngressFacts.

Import GoStrings GoRun Registry Balancer Pool HttpProxy GrpcIngress.
Local Open Scope string_scope.

Lemma append_empty (s : string) : "" ++ s = s.
Proof. reflexivity. Qed.

Lemma append_String (c : ascii) (s r : string) :
  String c s ++ r = String c (s ++ r).
Proof. reflexivity. Qed.

Lemma Index_lower (s : string) (sep : ascii) : (-1 <= Index s sep)%Z.
Proof.
  induction s as [|c s IH]; cbn [Index]; [lia|].
  destruct (is_byte sep c); [lia|].
  destruct (Z.ltb_spec (Index s sep) 0); lia.
Qed.

Lemma contains_cons (c : ascii) (s : string) (sep : ascii) :
  contains (String c s) sep = false ->
  is_byte sep c = false /\ contains s sep = false.
Proof.
  unfold contains. cbn [Index]. destruct (is_byte sep c); [discriminate|].
  intros H. split; [reflexivity|].
  pose proof (Index_lower s sep).
  destruct (Z.ltb_spec (Index s sep) 0); apply Z.leb_gt; apply Z.leb_gt in H; lia.
Qed.

(** The first separator after a separator-free prefix. *)
Lemma Index_after_prefix (s rest : string) (sep : ascii) :
  contains s sep = false ->
  Index (s ++ String sep rest) sep = Z.of_nat (String.length s).
Proof.
  induction s as [|c s IH]; intros Hs.
  - rewrite append_empty. cbn [Index String.length]. unfold is_byte.
    rewrite Ascii.eqb_refl. reflexivity.
  - apply contains_cons in Hs. destruct Hs as [Hc Hs].
    rewrite append_String. cbn [Index String.length]. rewrite Hc, (IH Hs).
    destruct (Z.ltb_spec (Z.of_nat (String.length s)) 0); lia.
Qed.

Lemma slice_to_prefix (s rest : string) :
  slice_to (s ++ rest) (String.length s) = s.
Proof.
  induction s as [|c s IH].
  - reflexivity.
  - rewrite append_String. cbn [slice_to String.length]. rewrite IH. reflexivity.
Qed.

Lemma slice_from_prefix (s rest : string) (c : ascii) :
  slice_from (s ++ String c rest) (String.length s + 1) = rest.
Proof.
  induction s as [|c' s IH].
  - rewrite append_empty. reflexivity.
  - rewrite append_String. cbn [slice_from String.length Nat.add]. exact IH.
Qed.

(** A string without separator is its own single component. *)
Lemma Split_no_separator (s : string) (sep : ascii) :
  contains s sep = false -> Split s sep = [s].
Proof.
  induction s as [|c s IH]; intros Hs; [reflexivity|].
  apply contains_cons in Hs. destruct Hs as [Hc Hs].
  cbn [Split]. rewrite Hc, (IH Hs). reflexivity.
Qed.

(** A standard method path [/package.Service/Method] parses into its
    service and its method. *)
Lemma ParseServiceAndMethod_standard (service method : string) :
  contains service slash = false ->
  ParseServiceAndMethod {| MethodFromServerStream := Some ("/" ++ service ++ "/" ++ method) |}
  = inl (service, method).
Proof.
  intros Hs. unfold ParseServiceAndMethod. cbn [MethodFromServerStream].
  change ("/" ++ service ++ "/" ++ method)
    with (String slash (service ++ String slash method)).
  cbn [TrimPrefix].
  replace (is_byte slash slash) with true by reflexivity.
  rewrite (Index_after_prefix service method slash Hs).
  destruct (Z.eqb_spec (Z.of_nat (String.length service)) (-1)); [lia|].
  rewrite Nat2Z.id.
  replace (Z.to_nat (Z.of_nat (String.length service) + 1))
    with (String.length service + 1)%nat by lia.
  rewrite slice_to_prefix, slice_from_prefix. reflexivity.
Qed.

Context {B : Type} `{LoadBalancer B}.

Variable Discover : string -> list ServiceInstance + string.
Variable dial_ok : Transport -> string -> bool.
Variable NewStream : positive -> string -> string -> option string.
Variable forwardStream : ServerStream -> positive -> option GoError.

(** The forwarder is handed the method name where it expects the full
    method path: once a backend connection is at hand, a method name
    without ['/'] splits into one component and [methodNams[1]] is out of
    range. *)
Lemma ProxyStream_panics (p : GRPCProxy) (t t' : Transport)
    (serviceName fullMethod : string) (stream : ServerStream)
    (instances : list ServiceInstance) (lb : B) (instance : ServiceInstance)
    (pool : ConnectionPool) (conn : positive) :
  contains fullMethod slash = false ->
  Discover serviceName = inl instances -> instances <> [] ->
  Select (loadBalance p) instances = (lb, Ret (Some instance)) ->
  GetConnection dial_ok (connPool p) t
    (Address instance ++ ":" ++ format_int (Port instance)) = (pool, t', inl conn) ->
  ProxyStream Discover dial_ok NewStream forwardStream p t serviceName fullMethod stream
  = ({| connPool := pool; loadBalance := lb |}, t', Panic "index out of range").
Proof.
  intros Hm Hd Hne Hsel Hconn. unfold ProxyStream.
  rewrite Hd, (len_eqb_nonempty instances Hne), Hsel, Hconn.
  rewrite (Split_no_separator fullMethod slash Hm). reflexivity.
Qed.

(** C4 fails on the code: for a standard path [/package.Service/Method]
    with a discoverable, selectable and reachable backend, the
    unknown-service handler panics with an index out of range. *)
Theorem handleUnknownService_panics (s : Server) (p : GRPCProxy) (t t' : Transport)
    (service method : string)
    (instances : list ServiceInstance) (lb : B) (instance : ServiceInstance)
    (pool : ConnectionPool) (conn : positive) :
  contains service slash = false ->
  contains method slash = false ->
  proxy s = Some p ->
  Discover service = inl instances -> instances <> [] ->
  Select (loadBalance p) instances = (lb, Ret (Some instance)) ->
  GetConnection dial_ok (connPool p) t
    (Address instance ++ ":" ++ format_int (Port instance)) = (pool, t', inl conn) ->
  handleUnknownService Discover dial_ok NewStream forwardStream s t
    {| MethodFromServerStream := Some ("/" ++ service ++ "/" ++ method) |}
  = ({| proxy := Some {| connPool := pool; loadBalance := lb |} |}, t',
     Panic "index out of range").
Proof.
  intros Hs Hm Hp Hd Hne Hsel Hconn. unfold handleUnknownService.
  rewrite (ParseServiceAndMethod_standard service method Hs), Hp.
  rewrite (ProxyStream_panics p t t' service method _ instances lb instance pool conn
             Hm Hd Hne Hsel Hconn).
  reflexivity.
Qed.

End GrpcIngressFacts.

Section GrpcIngressExamples.

Import GoRun Registry Balancer Pool HttpProxy GrpcIngress Examples.
Local Open Scope string_scope.

(** The standard path [/echo.Echo/Say] with one registered, reachable
    instance: the handler panics. *)
Lemma handleUnknownService_panics_witness :
  snd (handleUnknownService discover_echo reachable
         (fun _ _ _ => None) (fun _ _ => None)
         grpc_server fresh_transport
         {| MethodFromServerStream := Some "/echo.Echo/Say" |})
  = Panic "index out of range".
Proof.
  exact (f_equal snd
    (handleUnknownService_panics discover_echo reachable
       (fun _ _ _ => None) (fun _ _ => None)
       grpc_server
       {| connPool := NewConnectionPool; loadBalance := NewRoundRobinLoadBalancer |}
       fresh_transport
       {| conn_state := {[ 1%positive := Idle ]};
          dialled := ["10.0.0.1:50051"]; next_conn := 2%positive |}
       "echo.Echo" "Say" [echo_1] {| rr_counter := 1 |} echo_1
       {| connections := {[ "10.0.0.1:50051" := 1%positive ]} |} 1%positive
       eq_refl eq_refl eq_refl eq_refl ltac:(discriminate)
       eq_refl ltac:(vm_compute; reflexivity))).
Defined.

End GrpcIngressExamples.

(** ** The transcoder *)
Section TranscoderFacts.

Import GoRun Registry Balancer Pool Loader HttpProxy.
Local Open Scope string_scope.

Context {B : Type} `{LoadBalancer B}.

Variable NewFile_ok : FileDescriptorProto -> bool.
Variable Unmarshal : list byte -> Message -> Message * option string.
Variable Marshal : Message -> list byte + string.
Variable Discover : string -> list ServiceInstance + string.
Variable dial_ok : Transport -> string -> bool.
Variable backend : positive -> string -> Message -> list byte + GoError.

(** On a cache hit the caller receives a clone: a message allocated by
    this call, distinct from every cached prototype, with the prototype's
    contents; the cache is as it was. *)
Lemma createDynamicMessage_hit_clones (p : @HTTPProxy B) (h : Heap)
    (messageType : string) (cached : positive) :
  msgCache p !! messageType = Some cached ->
  cache_allocated p h ->
  exists h' clone,
    createDynamicMessage NewFile_ok p h messageType = (p, h', inl clone) /\
    clone = next_ref h /\
    (forall name r, msgCache p !! name = Some r -> r <> clone) /\
    deref h' clone = deref h cached.
Proof.
  intros Hhit Halloc. unfold createDynamicMessage, Clone, alloc. rewrite Hhit.
  eexists _, _. split; [reflexivity|]. split; [reflexivity|]. split.
  - intros name r Hr Heq. apply Halloc in Hr. lia.
  - unfold deref at 1. cbn [cells]. rewrite lookup_insert_eq. reflexivity.
Qed.

(** C1 fails on the code: on the request that populates the cache for a
    message type, the message returned to the caller is the very instance
    stored in the prototype cache. *)
Theorem createDynamicMessage_miss_returns_cached (p : @HTTPProxy B) (h : Heap)
    (messageType : string) (desc : MessageDescriptor) :
  msgCache p !! messageType = None ->
  findFullMessageDescriptor NewFile_ok (protoLoader p) messageType = Some desc ->
  exists p' h' msg,
    createDynamicMessage NewFile_ok p h messageType = (p', h', inl msg) /\
    msgCache p' !! messageType = Some msg.
Proof.
  intros Hmiss Hdesc. unfold createDynamicMessage, NewMessage, alloc.
  rewrite Hmiss, Hdesc. eexists _, _, _. split; [reflexivity|].
  cbn [msgCache set_msgCache]. apply lookup_insert_eq.
Qed.

(** What follows from it: the first request decodes its body into the
    cached prototype itself. *)
Lemma jsonToProtobuf_first_request_fills_prototype (p : @HTTPProxy B) (h : Heap)
    (jsonData : list byte) (messageType : string) (desc : MessageDescriptor)
    (decoded : Message) :
  msgCache p !! messageType = None ->
  findFullMessageDescriptor NewFile_ok (protoLoader p) messageType = Some desc ->
  Unmarshal jsonData {| type_name := FullName desc; contents := [] |} = (decoded, None) ->
  exists p' h' msg,
    jsonToProtobuf NewFile_ok Unmarshal p h jsonData messageType = (p', h', inl msg) /\
    msgCache p' !! messageType = Some msg /\
    deref h' msg = decoded.
Proof.
  intros Hmiss Hdesc Hun.
  unfold jsonToProtobuf, createDynamicMessage, NewMessage, alloc.
  rewrite Hmiss, Hdesc. unfold deref at 1. cbn [cells].
  rewrite lookup_insert_eq. cbn [default from_option]. unfold id. rewrite Hun.
  eexists _, _, _. split; [reflexivity|]. split.
  - cbn [msgCache set_msgCache]. apply lookup_insert_eq.
  - unfold deref, store. cbn [cells]. rewrite lookup_insert_eq. reflexivity.
Qed.

End TranscoderFacts.

Section TranscoderExamples.

Import GoRun Registry Balancer Pool Loader HttpProxy Examples.
Local Open Scope string_scope.

Lemma createDynamicMessage_miss_returns_cached_witness :
  exists p' h' msg,
    createDynamicMessage all_files_build (new_proxy plain_files) (heap fresh_world)
      "echo.EchoRequest" = (p', h', inl msg) /\
    msgCache p' !! "echo.EchoRequest" = Some msg.
Proof.
  exact (createDynamicMessage_miss_returns_cached all_files_build
           (new_proxy plain_files) (heap fresh_world) "echo.EchoRequest"
           {| FullName := "echo.EchoRequest";
              descriptor_proto := Descriptor "EchoRequest" [Descriptor "Options" []] |}
           eq_refl eq_refl).
Defined.

End TranscoderExamples.

(** ** The transcoder's error paths *)
Section ProxyErrors.

Import GoRun Registry Balancer Pool Loader HttpProxy.
Local Open Scope string_scope.

Context {B : Type} `{LoadBalancer B}.

Variable NewFile_ok : FileDescriptorProto -> bool.
Variable Unmarshal : list byte -> Message -> Message * option string.
Variable Marshal : Message -> list byte + string.
Variable Discover : string -> list ServiceInstance + string.
Variable dial_ok : Transport -> string -> bool.
Variable backend : positive -> string -> Message -> list byte + GoError.

Abbreviation Proxy :=
  (ProxyHTTPRequest NewFile_ok Unmarshal Marshal Discover dial_ok backend).

Lemma eqb_non_empty (s : string) : s <> "" -> String.eqb s "" = false.
Proof. apply String.eqb_neq. Qed.

Lemma ProxyHTTPRequest_method_missing (p : @HTTPProxy B) (w : World)
    (serviceName methodName : string) (jsonBody : list byte) :
  FindMethodDescriptor (protoLoader p) serviceName methodName = None ->
  Proxy p w serviceName methodName jsonBody
  = (p, w, Ret (inr (StatusError NotFound
                       ("method not found: " ++ serviceName ++ "/" ++ methodName)))).
Proof. intros Hm. unfold ProxyHTTPRequest. rewrite Hm. reflexivity. Qed.

Lemma ProxyHTTPRequest_bad_body (p p1 : @HTTPProxy B) (w : World) (h1 : Heap)
    (serviceName methodName : string) (jsonBody : list byte)
    (methodDesc : MethodDescriptorProto) (err : string) :
  FindMethodDescriptor (protoLoader p) serviceName methodName = Some methodDesc ->
  input_type methodDesc <> "" ->
  jsonToProtobuf NewFile_ok Unmarshal p (heap w) jsonBody (input_type methodDesc)
    = (p1, h1, inr err) ->
  Proxy p w serviceName methodName jsonBody
  = (p1, set_heap w h1,
     Ret (inr (StatusError InvalidArgument ("failed to unmarshal request: " ++ err)))).
Proof.
  intros Hm Hi Hj. unfold ProxyHTTPRequest.
  rewrite Hm, (eqb_non_empty _ Hi), Hj. reflexivity.
Qed.

Section AfterDecoding.

(** The request got as far as discovery: the method is in the descriptor
    set and the body has been decoded into [requestMsg]. *)
Variables (p p1 : @HTTPProxy B) (w : World) (h1 : Heap).
Variables (serviceName methodName : string) (jsonBody : list byte).
Variables (methodDesc : MethodDescriptorProto) (requestMsg : positive).
Hypothesis Hmethod :
  FindMethodDescriptor (protoLoader p) serviceName methodName = Some methodDesc.
Hypothesis Hinput : input_type methodDesc <> "".
Hypothesis Hdecoded :
  jsonToProtobuf NewFile_ok Unmarshal p (heap w) jsonBody (input_type methodDesc)
  = (p1, h1, inl requestMsg).

Lemma ProxyHTTPRequest_discover_error (err : string) :
  Discover serviceName = inr err ->
  Proxy p w serviceName methodName jsonBody
  = (p1, set_heap w h1,
     Ret (inr (StatusError Unavailable
       ("failed to discover service " ++ serviceName ++ ": " ++ err)))).
Proof.
  intros Hd. unfold ProxyHTTPRequest.
  rewrite Hmethod, (eqb_non_empty _ Hinput), Hdecoded, Hd. reflexivity.
Qed.

Lemma ProxyHTTPRequest_no_instances :
  Discover serviceName = inl [] ->
  Proxy p w serviceName methodName jsonBody
  = (p1, set_heap w h1,
     Ret (inr (StatusError Unavailable
       ("no available instances for service: " ++ serviceName)))).
Proof.
  intros Hd. unfold ProxyHTTPRequest.
  rewrite Hmethod, (eqb_non_empty _ Hinput), Hdecoded, Hd. reflexivity.
Qed.

Lemma ProxyHTTPRequest_select_nil (instances : list ServiceInstance) (lb : B) :
  Discover serviceName = inl instances -> instances <> [] ->
  Select (loadBalance p1) instances = (lb, Ret None) ->
  Proxy p w serviceName methodName jsonBody
  = (set_loadBalance p1 lb, set_heap w h1,
     Ret (inr (StatusError Unavailable
       ("failed to select instance for service: " ++ serviceName)))).
Proof.
  intros Hd Hne Hsel. unfold ProxyHTTPRequest.
  rewrite Hmethod, (eqb_non_empty _ Hinput), Hdecoded, Hd.
  rewrite (len_eqb_nonempty instances Hne), Hsel. reflexivity.
Qed.

Lemma ProxyHTTPRequest_dial_failure (instances : list ServiceInstance) (lb : B)
    (instance : ServiceInstance) (pool : ConnectionPool) (t : Transport)
    (why : string) :
  Discover serviceName = inl instances -> instances <> [] ->
  Select (loadBalance p1) instances = (lb, Ret (Some instance)) ->
  GetConnection dial_ok (connPool p1) (transport w)
    (Address instance ++ ":" ++ format_int (Port instance))
    = (pool, t, inr (DialFailed why)) ->
  Proxy p w serviceName methodName jsonBody
  = (set_connPool (set_loadBalance p1 lb) pool,
     set_transport (set_heap w h1) t,
     Ret (inr (StatusError Unavailable
       ("failed to connect to backend "
        ++ (Address instance ++ ":" ++ format_int (Port instance)) ++ ": " ++ why)))).
Proof.
  intros Hd Hne Hsel Hconn. unfold ProxyHTTPRequest.
  rewrite Hmethod, (eqb_non_empty _ Hinput), Hdecoded, Hd.
  rewrite (len_eqb_nonempty instances Hne), Hsel.
  cbn [connPool set_loadBalance transport set_heap]. rewrite Hconn. reflexivity.
Qed.

(** The backend's error comes back as it is, after exactly one call. *)
Lemma ProxyHTTPRequest_backend_error (instances : list ServiceInstance) (lb : B)
    (instance : ServiceInstance) (pool : ConnectionPool) (t : Transport)
    (conn : positive) (p2 : @HTTPProxy B) (h2 : Heap) (responseMsg : positive)
    (err : GoError) :
  Discover serviceName = inl instances -> instances <> [] ->
  Select (loadBalance p1) instances = (lb, Ret (Some instance)) ->
  GetConnection dial_ok (connPool p1) (transport w)
    (Address instance ++ ":" ++ format_int (Port instance))
    = (pool, t, inl conn) ->
  output_type methodDesc <> "" ->
  createDynamicMessage NewFile_ok (set_connPool (set_loadBalance p1 lb) pool) h1
    (output_type methodDesc) = (p2, h2, inl responseMsg) ->
  backend conn ("/" ++ serviceName ++ "/" ++ methodName) (deref h2 requestMsg)
    = inr err ->
  exists w',
    Proxy p w serviceName methodName jsonBody = (p2, w', Ret (inr err)) /\
    invoked w' = (conn, "/" ++ serviceName ++ "/" ++ methodName) :: invoked w.
Proof.
  intros Hd Hne Hsel Hconn Hout Hresp Hback. unfold ProxyHTTPRequest.
  rewrite Hmethod, (eqb_non_empty _ Hinput), Hdecoded, Hd.
  rewrite (len_eqb_nonempty instances Hne), Hsel.
  cbn [connPool set_loadBalance transport set_heap]. rewrite Hconn.
  unfold invokeUnary. rewrite (eqb_non_empty _ Hout).
  cbn [heap set_transport set_heap]. rewrite Hresp.
  unfold Invoke. cbn [heap set_heap]. rewrite Hback.
  eexists. split; reflexivity.
Qed.

End AfterDecoding.

(** C8: [ProxyHTTPRequest] fails with [NotFound] when the method is not in
    the descriptor set; for a request that reaches discovery it fails with
    [Unavailable] when discovery fails or returns no instance, when the
    balancer selects nil and when the pool cannot dial; and when the
    backend call returns an error, that error is the result as it is,
    status code and message included, after exactly one call to the
    backend. *)
Theorem ProxyHTTPRequest_error_codes (p : @HTTPProxy B) (w : World)
    (serviceName methodName : string) (jsonBody : list byte) :
  (FindMethodDescriptor (protoLoader p) serviceName methodName = None ->
   exists message,
     Proxy p w serviceName methodName jsonBody
     = (p, w, Ret (inr (StatusError NotFound message)))) /\
  (forall methodDesc p1 h1 requestMsg,
     FindMethodDescriptor (protoLoader p) serviceName methodName = Some methodDesc ->
     input_type methodDesc <> "" ->
     jsonToProtobuf NewFile_ok Unmarshal p (heap w) jsonBody (input_type methodDesc)
       = (p1, h1, inl requestMsg) ->
     (forall err, Discover serviceName = inr err ->
        exists message,
          Proxy p w serviceName methodName jsonBody
          = (p1, set_heap w h1, Ret (inr (StatusError Unavailable message)))) /\
     (Discover serviceName = inl [] ->
        exists message,
          Proxy p w serviceName methodName jsonBody
          = (p1, set_heap w h1, Ret (inr (StatusError Unavailable message)))) /\
     (forall instances lb,
        Discover serviceName = inl instances -> instances <> [] ->
        Select (loadBalance p1) instances = (lb, Ret None) ->
        exists message,
          Proxy p w serviceName methodName jsonBody
          = (set_loadBalance p1 lb, set_heap w h1,
             Ret (inr (StatusError Unavailable message)))) /\
     (forall instances lb instance,
        Discover serviceName = inl instances -> instances <> [] ->
        Select (loadBalance p1) instances = (lb, Ret (Some instance)) ->
        let target := Address instance ++ ":" ++ format_int (Port instance) in
        (forall pool t err,
           GetConnection dial_ok (connPool p1) (transport w) target
             = (pool, t, inr err) ->
           exists message,
             Proxy p w serviceName methodName jsonBody
             = (set_connPool (set_loadBalance p1 lb) pool,
                set_transport (set_heap w h1) t,
                Ret (inr (StatusError Unavailable message)))) /\
        (forall pool t conn p2 h2 responseMsg err,
           GetConnection dial_ok (connPool p1) (transport w) target
             = (pool, t, inl conn) ->
           output_type methodDesc <> "" ->
           createDynamicMessage NewFile_ok (set_connPool (set_loadBalance p1 lb) pool)
             h1 (output_type methodDesc) = (p2, h2, inl responseMsg) ->
           backend conn ("/" ++ serviceName ++ "/" ++ methodName) (deref h2 requestMsg)
             = inr err ->
           exists w',
             Proxy p w serviceName methodName jsonBody = (p2, w', Ret (inr err)) /\
             invoked w' = (conn, "/" ++ serviceName ++ "/" ++ methodName) :: invoked w))).
Proof.
  split.
  - intros Hm. eexists. apply ProxyHTTPRequest_method_missing. exact Hm.
  - intros methodDesc p1 h1 requestMsg Hm Hi Hj. split; [|split; [|split]].
    + intros err Hd. eexists.
      apply (ProxyHTTPRequest_discover_error p p1 w h1 _ _ _ methodDesc requestMsg); eauto.
    + intros Hd. eexists.
      apply (ProxyHTTPRequest_no_instances p p1 w h1 _ _ _ methodDesc requestMsg); eauto.
    + intros instances lb Hd Hne Hsel. eexists.
      apply (ProxyHTTPRequest_select_nil p p1 w h1 _ _ _ methodDesc requestMsg Hm Hi Hj
               instances lb); eauto.
    + intros instances lb instance Hd Hne Hsel target. split.
      * intros pool t [why] Hconn. eexists.
        apply (ProxyHTTPRequest_dial_failure p p1 w h1 _ _ _ methodDesc requestMsg Hm Hi Hj
                 instances lb instance pool t why); eauto.
      * intros pool t conn p2 h2 responseMsg err Hconn Hout Hresp Hback.
        apply (ProxyHTTPRequest_backend_error p p1 w h1 _ _ _ methodDesc requestMsg Hm Hi Hj
                 instances lb instance pool t conn p2 h2 responseMsg err); eauto.
Qed.

End ProxyErrors.

Section ProxyExamples.

Import GoRun Registry Balancer Pool Loader HttpProxy Examples.
Local Open Scope string_scope.

(** A backend that refuses the call: its [PermissionDenied] status is the
    transcoder's result, after one call to [/echo.Echo/Say]. *)
Lemma ProxyHTTPRequest_error_codes_witness :
  exists p2 w',
    ProxyHTTPRequest all_files_build unmarshal_nonempty marshal_contents
      discover_echo reachable refusing_backend
      (new_proxy plain_files) fresh_world "echo.Echo" "Say" ["a"%byte]
    = (p2, w', Ret (inr (StatusError PermissionDenied "tenant not allowed"))) /\
    invoked w' = [(1%positive, "/echo.Echo/Say")].
Proof.
  destruct (ProxyHTTPRequest_error_codes all_files_build unmarshal_nonempty
              marshal_contents discover_echo reachable refusing_backend
              (new_proxy plain_files) fresh_world "echo.Echo" "Say" ["a"%byte])
    as [_ Hfound].
  edestruct Hfound as (_ & _ & _ & Hselected);
    [vm_compute; reflexivity | discriminate | vm_compute; reflexivity |].
  edestruct Hselected as [_ Hinvoked];
    [reflexivity | discriminate | reflexivity |].
  eexists. eapply Hinvoked;
    [vm_compute; reflexivity | discriminate | vm_compute; reflexivity | reflexivity].
Defined.

End ProxyExamples.

(** ** The HTTP handler *)
Section HandlerFacts.

Import GoRun Registry Balancer Pool Loader HttpProxy HttpIngress.
Local Open Scope string_scope.

Context {B : Type} `{LoadBalancer B}.

Variable NewFile_ok : FileDescriptorProto -> bool.
Variable Unmarshal : list byte -> Message -> Message * option string.
Variable Marshal : Message -> list byte + string.
Variable Discover : string -> list ServiceInstance + string.
Variable dial_ok : Transport -> string -> bool.
Variable backend : positive -> string -> Message -> list byte + GoError.

Abbreviation Handle :=
  (handleRequest NewFile_ok Unmarshal Marshal Discover dial_ok backend).

(** C2, as amended: for a POST to [/rpc/...] whose path parses and whose
    body fails to decode into the request message, the transcoder
    classifies the failure as [InvalidArgument], and the handler, which
    answers every transcoder error alike, responds with status 500 and the
    error text. *)
Theorem handleRequest_bad_body (s : @Server B) (proxy p1 : @HTTPProxy B)
    (w : World) (h1 : Heap) (r : Request) (body : list byte)
    (httpReq : HTTPRequest) (methodDesc : MethodDescriptorProto) (err : string) :
  URL_Path r <> "/health" ->
  httpProxy s = Some proxy ->
  Http_Method r = "POST" ->
  ReadAll_Body r = inl body ->
  ParseHTTPRequest (URL_Path r) body = inl httpReq ->
  FindMethodDescriptor (protoLoader proxy) (ServiceName httpReq) (MethodName httpReq)
    = Some methodDesc ->
  input_type methodDesc <> "" ->
  jsonToProtobuf NewFile_ok Unmarshal proxy (heap w) body (input_type methodDesc)
    = (p1, h1, inr err) ->
  ProxyHTTPRequest NewFile_ok Unmarshal Marshal Discover dial_ok backend
    proxy w (ServiceName httpReq) (MethodName httpReq) body
  = (p1, set_heap w h1,
     Ret (inr (StatusError InvalidArgument ("failed to unmarshal request: " ++ err)))) /\
  Handle s w r
  = ({| httpProxy := Some p1 |}, set_heap w h1,
     Ret {| StatusCode := 500; Content_Type := None;
            Written := Text ("RPC call failed: "
              ++ Error (StatusError InvalidArgument
                          ("failed to unmarshal request: " ++ err))) |}).
Proof.
  intros Hpath Hproxy Hpost Hbody Hparse Hm Hi Hj.
  pose proof (ProxyHTTPRequest_bad_body NewFile_ok Unmarshal Marshal Discover dial_ok
                backend proxy p1 w h1 _ _ body methodDesc err Hm Hi Hj) as Hp.
  split; [exact Hp|].
  unfold handleRequest.
  apply String.eqb_neq in Hpath. rewrite Hpath, Hproxy, Hpost, Hbody, Hparse, Hp.
  reflexivity.
Qed.

End HandlerFacts.

Section HandlerExamples.

Import GoRun Registry Balancer Pool Loader HttpProxy HttpIngress Examples.
Local Open Scope string_scope.

(** An empty body posted to [/rpc/echo.Echo/Say]: the decoder rejects it
    and the response status is 500. *)
Lemma empty_body_response :
  snd (handleRequest all_files_build unmarshal_nonempty marshal_contents
         discover_echo reachable echo_backend
         (http_server plain_files) fresh_world (post "/rpc/echo.Echo/Say" []))
  = Ret {| StatusCode := 500; Content_Type := None;
           Written := Text "RPC call failed: rpc error: code = InvalidArgument desc = failed to unmarshal request: failed to unmarshal JSON: unexpected end of input" |}.
Proof. vm_compute. reflexivity. Qed.

Lemma handleRequest_bad_body_witness :
  snd (handleRequest all_files_build unmarshal_nonempty marshal_contents
         discover_echo reachable echo_backend
         (http_server plain_files) fresh_world (post "/rpc/echo.Echo/Say" []))
  = Ret {| StatusCode := 500; Content_Type := None;
           Written := Text ("RPC call failed: "
             ++ Error (StatusError InvalidArgument
                  "failed to unmarshal request: failed to unmarshal JSON: unexpected end of input")) |}.
Proof.
  refine (f_equal snd (proj2
    (handleRequest_bad_body all_files_build unmarshal_nonempty marshal_contents
       discover_echo reachable echo_backend
       (http_server plain_files) (new_proxy plain_files) _ fresh_world _
       (post "/rpc/echo.Echo/Say" []) []
       {| Tenant := ""; ServiceName := "echo.Echo"; MethodName := "Say"; Body := [] |}
       (say_method "echo.EchoRequest" "echo.EchoReply")
       "failed to unmarshal JSON: unexpected end of input"
       ltac:(discriminate) eq_refl eq_refl eq_refl eq_refl eq_refl
       ltac:(discriminate) _)));
  vm_compute; reflexivity.
Defined.

(** The response to a body that fails to decode is not a 400. *)
Lemma handleRequest_bad_body_not_400 :
  ~ (forall (s : @Server RoundRobinLoadBalancer) (proxy : HTTPProxy)
            (w : World) (r : Request) (body : list byte)
            (httpReq : HTTPRequest) (methodDesc : MethodDescriptorProto)
            (err : string),
       URL_Path r <> "/health" ->
       httpProxy s = Some proxy ->
       Http_Method r = "POST" ->
       ReadAll_Body r = inl body ->
       ParseHTTPRequest (URL_Path r) body = inl httpReq ->
       FindMethodDescriptor (protoLoader proxy) (ServiceName httpReq)
         (MethodName httpReq) = Some methodDesc ->
       input_type methodDesc <> "" ->
       snd (jsonToProtobuf all_files_build unmarshal_nonempty proxy (heap w) body
              (input_type methodDesc)) = inr err ->
       exists response,
         snd (handleRequest all_files_build unmarshal_nonempty marshal_contents
                discover_echo reachable echo_backend s w r) = Ret response /\
         StatusCode response = 400).
Proof.
  intros Hclaim.
  destruct (Hclaim (http_server plain_files) (new_proxy plain_files) fresh_world
               (post "/rpc/echo.Echo/Say" []) []
               {| Tenant := ""; ServiceName := "echo.Echo"; MethodName := "Say";
                  Body := [] |}
               (say_method "echo.EchoRequest" "echo.EchoReply")
               "failed to unmarshal JSON: unexpected end of input")
    as (response & Hresp & Hcode);
    [discriminate | reflexivity | reflexivity | reflexivity | reflexivity
    | reflexivity | discriminate | reflexivity |].
  rewrite empty_body_response in Hresp. injection Hresp as <-.
  cbn [StatusCode] in Hcode. discriminate Hcode.
Qed.

End HandlerExamples.

(** * Further properties of the ingress parsers *)
Section ParserMore.

Import GoStrings HttpIngress.
Local Open Scope string_scope.

Lemma Split_not_nil (s : string) (sep : ascii) : Split s sep <> [].
Proof.
  destruct s as [|c s]; cbn [Split]; [discriminate|].
  destruct (is_byte sep c); [discriminate|].
  destruct (Split s sep); discriminate.
Qed.

Lemma part_last (parts : list string) :
  part parts (length parts - 1) = List.last parts "".
Proof.
  unfold part. induction parts as [|p l IH]; [reflexivity|].
  destruct l as [|q l]; [reflexivity|].
  cbn [length List.last] in *. rewrite <- IH.
  replace (S (S (length l)) - 1)%nat with (S (S (length l) - 1)) by lia.
  reflexivity.
Qed.

(** A string trimmed on the right ends in a non-empty component, unless it
    is empty. *)
Lemma TrimRight_last_component (s : string) (sep : ascii) :
  TrimRight s sep <> "" -> List.last (Split (TrimRight s sep) sep) "" <> "".
Proof.
  induction s as [|c s IH]; cbn [TrimRight]; [congruence|].
  destruct (TrimRight s sep) as [|c' r] eqn:Hr.
  - destruct (is_byte sep c) eqn:Hc; [congruence|]. intros _.
    cbn [Split]. rewrite Hc. cbn. discriminate.
  - intros _. specialize (IH ltac:(discriminate)).
    remember (String c' r) as t eqn:Ht. clear Ht Hr.
    pose proof (Split_not_nil t sep) as Hne.
    cbn [Split]. destruct (is_byte sep c);
      destruct (Split t sep) as [|q qs]; try congruence.
    + exact IH.
    + destruct qs as [|q' qs]; [discriminate|exact IH].
Qed.

Lemma parse_by_cases (path : string) (body : list byte) :
  let parts := components path in
  ParseHTTPRequest path body =
    if (length parts <? 3)%nat then inr (ErrPathFormat (Trim path slash))
    else if negb (String.eqb (part parts 0) "rpc") then inr (ErrRpcPrefix (part parts 0))
    else if String.eqb (part parts (length parts - 1)) "" then inr ErrEmptyMethod
    else if String.eqb (part parts (length parts - 2)) "" then inr ErrEmptyService
    else inl {| Tenant := if (3 <? length parts)%nat then part parts 1 else "";
                ServiceName := part parts (length parts - 2);
                MethodName := part parts (length parts - 1);
                Body := body |}.
Proof. reflexivity. Qed.

(** The parser accepts exactly the paths with at least three components
    after trimming, the first being [rpc] and the next-to-last non-empty;
    every other path gets the format, prefix or empty-service error, in
    this order of precedence. *)
Theorem ParseHTTPRequest_accepts_iff (path : string) (body : list byte) :
  let parts := components path in
  ((exists r, ParseHTTPRequest path body = inl r) <->
   (3 <= length parts)%nat /\ part parts 0 = "rpc" /\
   part parts (length parts - 2) <> "") /\
  ((length parts < 3)%nat ->
   ParseHTTPRequest path body = inr (ErrPathFormat (Trim path slash))) /\
  ((3 <= length parts)%nat -> part parts 0 <> "rpc" ->
   ParseHTTPRequest path body = inr (ErrRpcPrefix (part parts 0))) /\
  ((3 <= length parts)%nat -> part parts 0 = "rpc" ->
   part parts (length parts - 2) = "" ->
   ParseHTTPRequest path body = inr ErrEmptyService).
Proof.
  intros parts.
  assert (Hlast : (3 <= length parts)%nat -> part parts (length parts - 1) <> "").
  { intros Hlen. rewrite part_last. unfold parts, components, Trim.
    apply TrimRight_last_component. intros Hempty.
    unfold parts, components, Trim in Hlen. rewrite Hempty in Hlen.
    cbn in Hlen. lia. }
  rewrite parse_by_cases. fold parts.
  destruct (Nat.ltb_spec (length parts) 3) as [Hlt|Hge];
    [|specialize (Hlast Hge);
      destruct (String.eqb_spec (part parts 0) "rpc") as [Hrpc|Hrpc]; cbn [negb];
      [destruct (String.eqb_spec (part parts (length parts - 1)) "") as [Hm|Hm];
       [tauto|];
       destruct (String.eqb_spec (part parts (length parts - 2)) "") as [Hs|Hs]|]];
    (split;
     [split;
      [intros [r Hr]; try discriminate Hr; repeat split; assumption
      |intros (H1 & H2 & H3); try lia; try congruence; eauto]
     |repeat split; intros; try reflexivity; try lia; try congruence]).
Qed.

(** Trimming makes the last component of a path of three or more
    components non-empty: the parser never reports an empty method name. *)
Theorem ParseHTTPRequest_never_empty_method (path : string) (body : list byte) :
  ParseHTTPRequest path body <> inr ErrEmptyMethod.
Proof.
  rewrite parse_by_cases. set (parts := components path).
  destruct (Nat.ltb_spec (length parts) 3) as [Hlt|Hge]; [discriminate|].
  destruct (negb (String.eqb (part parts 0) "rpc")); [discriminate|].
  destruct (String.eqb_spec (part parts (length parts - 1)) "") as [Hm|Hm].
  - exfalso. rewrite part_last in Hm. revert Hm. unfold parts, components, Trim.
    apply TrimRight_last_component. intros Hempty.
    unfold parts, components, Trim in Hge. rewrite Hempty in Hge.
    cbn in Hge. lia.
  - destruct (String.eqb (part parts (length parts - 2)) ""); discriminate.
Qed.

Lemma TrimRight_app_sep (s : string) (sep : ascii) :
  TrimRight (s ++ String sep "") sep = TrimRight s sep.
Proof.
  induction s as [|c s IH].
  - rewrite append_empty. cbn [TrimRight]. unfold is_byte.
    rewrite Ascii.eqb_refl. reflexivity.
  - change (String c s ++ String sep "") with (String c (s ++ String sep "")).
    cbn [TrimRight]. rewrite IH. reflexivity.
Qed.

Lemma TrimLeft_app_sep (s : string) (sep : ascii) :
  TrimLeft (s ++ String sep "") sep
  = match TrimLeft s sep with
    | "" => ""
    | t => t ++ String sep ""
    end.
Proof.
  induction s as [|c s IH].
  - rewrite append_empty. cbn [TrimLeft]. unfold is_byte.
    rewrite Ascii.eqb_refl. reflexivity.
  - change (String c s ++ String sep "") with (String c (s ++ String sep "")).
    cbn [TrimLeft]. destruct (is_byte sep c); [exact IH|reflexivity].
Qed.

Lemma Trim_leading (s : string) : Trim (String slash s) slash = Trim s slash.
Proof. reflexivity. Qed.

Lemma Trim_trailing (s : string) : Trim (s ++ "/") slash = Trim s slash.
Proof.
  unfold Trim. change "/" with (String slash ""). rewrite TrimLeft_app_sep.
  destruct (TrimLeft s slash) as [|c t]; [reflexivity|].
  apply TrimRight_app_sep.
Qed.

(** Leading and trailing slashes do not matter to the parser. *)
Theorem ParseHTTPRequest_ignores_outer_slashes (path : string) (body : list byte) :
  ParseHTTPRequest ("/" ++ path) body = ParseHTTPRequest path body /\
  ParseHTTPRequest (path ++ "/") body = ParseHTTPRequest path body.
Proof.
  split.
  - reflexivity.
  - unfold ParseHTTPRequest. rewrite Trim_trailing. reflexivity.
Qed.

End ParserMore.

Section GrpcIngressMore.

Import GoStrings GoRun Registry Balancer Pool HttpProxy GrpcIngress.
Local Open Scope string_scope.

Lemma is_byte_true (sep c : ascii) : is_byte sep c = true -> c = sep.
Proof. unfold is_byte. apply Ascii.eqb_eq. Qed.

(** A string is cut at its first separator into a separator-free prefix
    and the rest. *)
Lemma cut_at_Index (s : string) (sep : ascii) :
  (0 <= Index s sep)%Z ->
  s = slice_to s (Z.to_nat (Index s sep))
      ++ String sep (slice_from s (Z.to_nat (Index s sep + 1))) /\
  contains (slice_to s (Z.to_nat (Index s sep))) sep = false.
Proof.
  induction s as [|c s IH]; cbn [Index]; [lia|].
  destruct (is_byte sep c) eqn:Hc.
  - intros _. apply is_byte_true in Hc. subst c. split; reflexivity.
  - pose proof (Index_lower s sep) as Hlow.
    destruct (Z.ltb_spec (Index s sep) 0) as [Hneg|Hpos]; [lia|]. intros _.
    destruct (IH Hpos) as [Hcut Hfree].
    replace (Z.to_nat (Index s sep + 1)) with (S (Z.to_nat (Index s sep))) in * by lia.
    replace (Z.to_nat (Index s sep + 1 + 1)) with (S (S (Z.to_nat (Index s sep)))) by lia.
    cbn [slice_to slice_from]. split.
    + rewrite append_String. f_equal. exact Hcut.
    + unfold contains in *. cbn [Index]. rewrite Hc.
      apply Z.leb_gt. apply Z.leb_gt in Hfree.
      destruct (Z.ltb_spec (Index (slice_to s (Z.to_nat (Index s sep))) sep) 0); lia.
Qed.

(** [ParseServiceAndMethod] fails only when the stream carries no method;
    otherwise it drops one leading slash and cuts at the first remaining
    slash: the service has no slash and service, slash and method make up
    the path again; without a slash the service is empty and the method
    is the whole of it. *)
Theorem ParseServiceAndMethod_cuts_at_first_slash (fullMethod : string) :
  ParseServiceAndMethod {| MethodFromServerStream := None |}
    = inr "failed to get method from stream" /\
  exists service method,
    ParseServiceAndMethod {| MethodFromServerStream := Some fullMethod |}
      = inl (service, method) /\
    contains service slash = false /\
    if contains (TrimPrefix fullMethod slash) slash
    then TrimPrefix fullMethod slash = service ++ "/" ++ method
    else service = "" /\ method = TrimPrefix fullMethod slash.
Proof.
  split; [reflexivity|].
  unfold ParseServiceAndMethod. cbn [MethodFromServerStream].
  set (rest := TrimPrefix fullMethod slash).
  pose proof (Index_lower rest slash) as Hlow.
  unfold contains at 2.
  destruct (Z.eqb_spec (Index rest slash) (-1)) as [Hnone|Hsome].
  - exists "", rest. rewrite Hnone. cbn. auto.
  - destruct (cut_at_Index rest slash ltac:(lia)) as [Hcut Hfree].
    eexists _, _. split; [reflexivity|]. split; [exact Hfree|].
    destruct (Z.leb_spec 0 (Index rest slash)); [|lia]. exact Hcut.
Qed.

(** A string with a separator has at least two components. *)
Lemma Split_with_separator (s : string) (sep : ascii) :
  contains s sep = true ->
  exists first second others, Split s sep = first :: second :: others.
Proof.
  induction s as [|c s IH]; [discriminate|].
  unfold contains. cbn [Index Split].
  destruct (is_byte sep c) eqn:Hc.
  - intros _. pose proof (Split_not_nil s sep).
    destruct (Split s sep) as [|q qs]; [congruence|]. eauto.
  - pose proof (Index_lower s sep).
    destruct (Z.ltb_spec (Index s sep) 0); [discriminate|]. intros _.
    destruct IH as (a & b & l & ->); [apply Z.leb_le; lia|]. eauto.
Qed.

Lemma go_index_second {A} (a b : A) (l : list A) :
  go_index (a :: b :: l) 1 = Ret b.
Proof.
  destruct (go_index_in_range (a :: b :: l) 1) as (x & Hx & ->).
  - unfold len. cbn [length]. lia.
  - change ((a :: b :: l) !! Z.to_nat 1) with (Some b) in Hx. congruence.
Qed.

Context {B : Type} `{LoadBalancer B}.

Variable Discover : string -> list ServiceInstance + string.
Variable dial_ok : Transport -> string -> bool.
Variable NewStream : positive -> string -> string -> option string.
Variable forwardStream : ServerStream -> positive -> option GoError.

Abbreviation Forward :=
  (ProxyStream Discover dial_ok NewStream forwardStream).

(** Without a backend the forwarder answers [Unavailable], for each of the
    four ways there can be none: discovery fails, discovery returns no
    instance, the balancer selects nil, the dial fails. It opens no stream
    then, and dials only in the last case. *)
Theorem ProxyStream_unavailable (p : GRPCProxy) (t : Transport)
    (serviceName fullMethod : string) (stream : ServerStream) :
  (forall err, Discover serviceName = inr err ->
     exists message,
       Forward p t serviceName fullMethod stream
       = (p, t, Ret (Some (StatusError Unavailable message)))) /\
  (Discover serviceName = inl [] ->
     exists message,
       Forward p t serviceName fullMethod stream
       = (p, t, Ret (Some (StatusError Unavailable message)))) /\
  (forall instances lb,
     Discover serviceName = inl instances -> instances <> [] ->
     Select (loadBalance p) instances = (lb, Ret None) ->
     exists message,
       Forward p t serviceName fullMethod stream
       = ({| connPool := connPool p; loadBalance := lb |}, t,
          Ret (Some (StatusError Unavailable message)))) /\
  (forall instances lb instance pool t' err,
     Discover serviceName = inl instances -> instances <> [] ->
     Select (loadBalance p) instances = (lb, Ret (Some instance)) ->
     GetConnection dial_ok (connPool p) t
       (Address instance ++ ":" ++ format_int (Port instance)) = (pool, t', inr err) ->
     exists message,
       Forward p t serviceName fullMethod stream
       = ({| connPool := pool; loadBalance := lb |}, t',
          Ret (Some (StatusError Unavailable message)))).
Proof.
  unfold ProxyStream. repeat split.
  - intros err ->. eauto.
  - intros ->. eauto.
  - intros instances lb -> Hne ->. rewrite (len_eqb_nonempty _ Hne). eauto.
  - intros instances lb instance pool t' [why] -> Hne -> ->.
    rewrite (len_eqb_nonempty _ Hne). eauto.
Qed.

(** With a backend at hand, a method argument that contains a slash gets
    past the index: the stream is opened under the name of its second
    component, for the method argument itself. *)
Lemma ProxyStream_with_slash (p : GRPCProxy) (t t' : Transport)
    (serviceName fullMethod : string) (stream : ServerStream)
    (instances : list ServiceInstance) (lb : B) (instance : ServiceInstance)
    (pool : ConnectionPool) (conn : positive) :
  contains fullMethod slash = true ->
  Discover serviceName = inl instances -> instances <> [] ->
  Select (loadBalance p) instances = (lb, Ret (Some instance)) ->
  GetConnection dial_ok (connPool p) t
    (Address instance ++ ":" ++ format_int (Port instance)) = (pool, t', inl conn) ->
  exists first streamName others,
    Split fullMethod slash = first :: streamName :: others /\
    Forward p t serviceName fullMethod stream
    = ({| connPool := pool; loadBalance := lb |}, t',
       Ret (match NewStream conn streamName fullMethod with
            | Some err =>
                Some (StatusError Internal ("failed to create client stream: " ++ err))
            | None => forwardStream stream conn
            end)).
Proof.
  intros Hslash Hd Hne Hsel Hconn.
  destruct (Split_with_separator fullMethod slash Hslash) as (a & b & l & Hsplit).
  exists a, b, l. split; [exact Hsplit|].
  unfold ProxyStream. rewrite Hd, (len_eqb_nonempty _ Hne), Hsel, Hconn, Hsplit.
  rewrite go_index_second. destruct (NewStream conn b fullMethod); reflexivity.
Qed.

(** What the unknown-service handler forwards: on a path
    [/service/a/b...] whose method part has a slash of its own, it does not
    panic, and the backend stream is opened for the method part [a/b...],
    not for the inbound path. *)
Theorem handleUnknownService_forwards_method_part (s : Server) (p : GRPCProxy)
    (t t' : Transport) (service method : string)
    (instances : list ServiceInstance) (lb : B) (instance : ServiceInstance)
    (pool : ConnectionPool) (conn : positive) :
  contains service slash = false ->
  contains method slash = true ->
  proxy s = Some p ->
  Discover service = inl instances -> instances <> [] ->
  Select (loadBalance p) instances = (lb, Ret (Some instance)) ->
  GetConnection dial_ok (connPool p) t
    (Address instance ++ ":" ++ format_int (Port instance)) = (pool, t', inl conn) ->
  exists first streamName others,
    Split method slash = first :: streamName :: others /\
    handleUnknownService Discover dial_ok NewStream forwardStream s t
      {| MethodFromServerStream := Some ("/" ++ service ++ "/" ++ method) |}
    = ({| proxy := Some {| connPool := pool; loadBalance := lb |} |}, t',
       Ret (match NewStream conn streamName method with
            | Some err =>
                Some (StatusError Internal ("failed to create client stream: " ++ err))
            | None =>
                forwardStream
                  {| MethodFromServerStream := Some ("/" ++ service ++ "/" ++ method) |}
                  conn
            end)).
Proof.
  intros Hs Hm Hp Hd Hne Hsel Hconn.
  destruct (ProxyStream_with_slash p t t' service method
              {| MethodFromServerStream := Some ("/" ++ service ++ "/" ++ method) |}
              instances lb instance pool conn Hm Hd Hne Hsel Hconn)
    as (a & b & l & Hsplit & Hfwd).
  exists a, b, l. split; [exact Hsplit|].
  unfold handleUnknownService.
  rewrite (ParseServiceAndMethod_standard service method Hs), Hp, Hfwd. reflexivity.
Qed.

(** The handler refuses, without panicking and without touching the
    transport, a stream that carries no method and any call made before a
    registry has been set. *)
Theorem handleUnknownService_refuses (s : Server) (t : Transport)
    (stream : ServerStream) :
  (MethodFromServerStream stream = None \/ proxy s = None) ->
  exists text,
    handleUnknownService Discover dial_ok NewStream forwardStream s t stream
    = (s, t, Ret (Some (PlainError text))).
Proof.
  unfold handleUnknownService, ParseServiceAndMethod.
  intros [Hnone|Hproxy].
  - rewrite Hnone. eauto.
  - destruct (MethodFromServerStream stream) as [fullMethod|]; [|eauto].
    destruct (Index (TrimPrefix fullMethod slash) slash =? -1)%Z;
      rewrite Hproxy; eauto.
Qed.

End GrpcIngressMore.

Section GrpcIngressMoreExamples.

Import GoStrings GoRun Registry Balancer Pool HttpProxy GrpcIngress Examples.
Local Open Scope string_scope.

Lemma handleUnknownService_forwards_method_part_witness :
  exists first streamName others,
    Split "v1/Say" slash = first :: streamName :: others /\
    handleUnknownService discover_echo reachable
      (fun _ _ _ => None) (fun _ _ => None) grpc_server fresh_transport
      {| MethodFromServerStream := Some ("/" ++ "echo.Echo" ++ "/" ++ "v1/Say") |}
    = ({| proxy := Some {| connPool :=
                             {| connections := {[ "10.0.0.1:50051" := 1%positive ]} |};
                           loadBalance := {| rr_counter := 1 |} |} |},
       {| conn_state := {[ 1%positive := Idle ]};
          dialled := ["10.0.0.1:50051"]; next_conn := 2%positive |},
       Ret None).
Proof.
  exact (handleUnknownService_forwards_method_part discover_echo reachable
           (fun _ _ _ => None) (fun _ _ => None) grpc_server
           {| connPool := NewConnectionPool; loadBalance := NewRoundRobinLoadBalancer |}
           fresh_transport
           {| conn_state := {[ 1%positive := Idle ]};
              dialled := ["10.0.0.1:50051"]; next_conn := 2%positive |}
           "echo.Echo" "v1/Say" [echo_1] {| rr_counter := 1 |} echo_1
           {| connections := {[ "10.0.0.1:50051" := 1%positive ]} |} 1%positive
           eq_refl eq_refl eq_refl eq_refl ltac:(discriminate)
           eq_refl ltac:(vm_compute; reflexivity)).
Defined.

Lemma handleUnknownService_refuses_witness :
  exists text,
    handleUnknownService discover_echo reachable
      (fun _ _ _ => None) (fun _ _ => None)
      {| proxy := @None (@GRPCProxy RoundRobinLoadBalancer) |} fresh_transport
      {| MethodFromServerStream := Some "/echo.Echo/Say" |}
    = ({| proxy := None |}, fresh_transport, Ret (Some (PlainError text))).
Proof.
  exact (handleUnknownService_refuses discover_echo reachable
           (fun _ _ _ => None) (fun _ _ => None)
           {| proxy := None |} fresh_transport
           {| MethodFromServerStream := Some "/echo.Echo/Say" |}
           (or_intror eq_refl)).
Defined.

End GrpcIngressMoreExamples.

(** * Further properties of the load balancers *)
Section BalancerMore.

Import GoInt GoRun Registry Balancer.
Local Open Scope string_scope.

Lemma go_index_member {A} (l : list A) (i : Z) (x : A) :
  go_index l i = Ret x -> In x l.
Proof.
  unfold go_index. destruct ((i <? 0)%Z || (len l <=? i)%Z); [discriminate|].
  destruct (l !! Z.to_nat i) as [y|] eqn:Hy; [|discriminate].
  intros [= <-]. apply list_elem_of_In. eapply list_elem_of_lookup_2. exact Hy.
Qed.

Lemma go_index_outcome {A} (l : list A) (i : Z) :
  (exists reason, go_map Some (go_index l i) = Panic reason) \/
  (exists x, go_map Some (go_index l i) = Ret (Some x) /\ In x l).
Proof.
  destruct (go_index l i) as [x|reason] eqn:Hi.
  - right. exists x. split; [reflexivity|]. apply (go_index_member l i). exact Hi.
  - left. exists reason. reflexivity.
Qed.

(** The round-robin balancer returns nil for the empty list and leaves its
    counter alone; for a non-empty list it advances the counter by one
    (modulo [2^64]) and, whatever the counter, either panics on the index
    or returns an instance of the list, never nil. *)
Theorem RoundRobin_Select_safe (lb : RoundRobinLoadBalancer)
    (instances : list ServiceInstance) :
  RoundRobin_Select lb [] = (lb, Ret None) /\
  (instances <> [] ->
   rr_counter (fst (RoundRobin_Select lb instances))
     = wrap_uint64 (rr_counter lb + 1) /\
   ((exists reason, snd (RoundRobin_Select lb instances) = Panic reason) \/
    (exists x, snd (RoundRobin_Select lb instances) = Ret (Some x) /\
               In x instances))).
Proof.
  split; [reflexivity|]. intros Hne. unfold RoundRobin_Select.
  rewrite (len_eqb_nonempty _ Hne). cbn [fst snd rr_counter].
  split; [reflexivity|]. apply go_index_outcome.
Qed.

Variable scan : string -> option Z.

Lemma walk_member (instances : list ServiceInstance) (offset currentWeight : Z)
    (x : ServiceInstance) :
  walk scan offset currentWeight instances = Some x -> In x instances.
Proof.
  revert currentWeight. induction instances as [|y l IH]; intros cw; [discriminate|].
  cbn [walk]. destruct (offset <? int_add cw (getWeight scan y))%Z.
  - intros [= <-]. left. reflexivity.
  - intros Hw. right. apply (IH _ Hw).
Qed.

(** The same for the weighted balancer, whatever the weights and the
    counter. *)
Theorem Weighted_Select_safe (lb : WeightedLoadBalancer)
    (instances : list ServiceInstance) :
  Weighted_Select scan lb [] = (lb, Ret None) /\
  (instances <> [] ->
   w_counter (fst (Weighted_Select scan lb instances))
     = wrap_uint64 (w_counter lb + 1) /\
   ((exists reason, snd (Weighted_Select scan lb instances) = Panic reason) \/
    (exists x, snd (Weighted_Select scan lb instances) = Ret (Some x) /\
               In x instances))).
Proof.
  split; [reflexivity|]. intros Hne. unfold Weighted_Select.
  rewrite (len_eqb_nonempty _ Hne).
  destruct (totalWeight_of scan instances =? 0)%Z; cbn [fst snd w_counter].
  - split; [reflexivity|]. apply go_index_outcome.
  - split; [reflexivity|].
    destruct (walk scan _ 0 instances) as [x|] eqn:Hw.
    + right. exists x. split; [reflexivity|]. apply (walk_member _ _ _ _ Hw).
    + apply go_index_outcome.
Qed.

(** While the counter stays below [2^63], two consecutive round-robin
    selections over two or more instances choose different positions, and
    the choice repeats after [n] selections. *)
Theorem RoundRobin_consecutive_distinct (c : Z) (instances : list ServiceInstance) :
  2 <= len instances -> 0 <= c -> c + len instances + 1 < 2 ^ 63 ->
  RoundRobin_position {| rr_counter := c |} instances
    <> RoundRobin_position {| rr_counter := c + 1 |} instances /\
  RoundRobin_position {| rr_counter := c + len instances |} instances
    = RoundRobin_position {| rr_counter := c |} instances.
Proof.
  intros Hn H0 Hc.
  assert (Hne : instances <> []) by (intros ->; unfold len in Hn; cbn [length] in Hn; lia).
  destruct (RoundRobin_step c instances Hne H0 ltac:(lia)) as (_ & -> & _).
  destruct (RoundRobin_step (c + 1) instances Hne ltac:(lia) ltac:(lia)) as (_ & -> & _).
  destruct (RoundRobin_step (c + len instances) instances Hne ltac:(lia) ltac:(lia))
    as (_ & -> & _).
  set (n := len instances) in *. split.
  - intros Heq.
    assert (Hd : ((c + 1 + 1) - (c + 1)) mod n = 0).
    { rewrite Zminus_mod, Heq, Z.sub_diag. apply Zmod_0_l. }
    replace (c + 1 + 1 - (c + 1)) with 1 in Hd by lia.
    rewrite Z.mod_small in Hd by lia. discriminate Hd.
  - replace (c + n + 1) with (c + 1 + 1 * n) by lia. apply Z.mod_add. lia.
Qed.

Lemma getWeight_defaulted (instance : ServiceInstance) :
  weight_defaulted scan instance -> getWeight scan instance = 1.
Proof.
  unfold weight_defaulted, getWeight.
  destruct (Metadata instance) as [metadata|]; [|reflexivity].
  destruct (metadata !! "weight") as [weightStr|]; [|reflexivity].
  destruct (Sscanf_int scan weightStr) as [weight|]; [|reflexivity].
  intros Hle. destruct (Z.ltb_spec 0 weight); [lia|reflexivity].
Qed.

Lemma unit_weights_sum (instances : list ServiceInstance) :
  Forall (weight_defaulted scan) instances ->
  weight_sum scan instances = len instances.
Proof.
  induction 1 as [|x l Hx _ IH]; [reflexivity|].
  cbn [weight_sum fold_right]. fold (weight_sum scan l).
  rewrite IH, (getWeight_defaulted x Hx). unfold len. cbn [length]. lia.
Qed.

Lemma unit_weights_first_exceeding (instances : list ServiceInstance) (offset : Z) :
  Forall (weight_defaulted scan) instances ->
  0 <= offset < len instances ->
  first_exceeding scan offset instances = Some (Z.to_nat offset).
Proof.
  intros Hall. revert offset.
  induction Hall as [|x l Hx _ IH]; intros offset Hoff.
  - unfold len in Hoff. cbn [length] in Hoff. lia.
  - cbn [first_exceeding]. rewrite (getWeight_defaulted x Hx).
    destruct (Z.ltb_spec offset 1).
    + replace offset with 0 by lia. reflexivity.
    + rewrite IH by (unfold len in *; cbn [length] in Hoff; lia).
      cbn. f_equal. lia.
Qed.

(** Instances that carry no usable weight are balanced round-robin: over
    a list whose weights all default to 1, the weighted balancer selects
    what the round-robin balancer selects at the same counter. *)
Theorem Weighted_unit_weights_round_robin (c : Z)
    (instances : list ServiceInstance) :
  instances <> [] ->
  Forall (weight_defaulted scan) instances ->
  len instances <= max_int ->
  0 <= c -> c + 1 < 2 ^ 63 ->
  snd (Weighted_Select scan {| w_counter := c |} instances)
    = snd (RoundRobin_Select {| rr_counter := c |} instances) /\
  w_counter (fst (Weighted_Select scan {| w_counter := c |} instances))
    = rr_counter (fst (RoundRobin_Select {| rr_counter := c |} instances)).
Proof.
  intros Hne Hall Hlen H0 H1.
  pose proof (unit_weights_sum instances Hall) as Hsum.
  destruct (Weighted_step scan c instances Hne ltac:(lia) H0 H1) as [-> _].
  destruct (RoundRobin_step c instances Hne H0 H1) as (-> & _ & _).
  cbn [fst snd w_counter rr_counter]. split; [|reflexivity].
  unfold spec_position. rewrite Hsum.
  rewrite unit_weights_first_exceeding;
    [reflexivity|exact Hall|apply Z.mod_pos_bound; apply len_pos; exact Hne].
Qed.

End BalancerMore.

Section BalancerMoreExamples.

Import GoInt GoRun Registry Balancer Examples.

Lemma RoundRobin_consecutive_distinct_witness :
  RoundRobin_position {| rr_counter := 4 |} [echo_1; echo_2; echo_3]
    <> RoundRobin_position {| rr_counter := 4 + 1 |} [echo_1; echo_2; echo_3].
Proof.
  exact (proj1 (RoundRobin_consecutive_distinct 4 [echo_1; echo_2; echo_3]
                  ltac:(vm_compute; discriminate) ltac:(lia)
                  ltac:(vm_compute; reflexivity))).
Defined.

Lemma Weighted_unit_weights_round_robin_witness :
  snd (Weighted_Select scan_decimal {| w_counter := 7 |} [echo_1; echo_2; echo_3])
    = snd (RoundRobin_Select {| rr_counter := 7 |} [echo_1; echo_2; echo_3]).
Proof.
  exact (proj1 (Weighted_unit_weights_round_robin scan_decimal 7
                  [echo_1; echo_2; echo_3]
                  ltac:(discriminate)
                  ltac:(repeat constructor)
                  ltac:(vm_compute; discriminate) ltac:(lia)
                  ltac:(vm_compute; reflexivity))).
Defined.

End BalancerMoreExamples.

(** * Further properties of the connection pool *)
Section PoolMore.

Import Pool.
Local Open Scope string_scope.

Variable dial_ok : Transport -> string -> bool.

Lemma GetConnection_returns_pooled (p p' : ConnectionPool) (t t' : Transport)
    (target : string) (conn : positive) :
  GetConnection dial_ok p t target = (p', t', inl conn) ->
  connections p' !! target = Some conn /\ usable (GetState t' conn) = true.
Proof.
  unfold GetConnection, GetConnection_locked.
  destruct (connections p !! target) as [old|] eqn:Hlook.
  - destruct (usable (GetState t old)) eqn:Hu.
    + intros [= <- <- <-]. auto.
    + unfold Dial. destruct (dial_ok (Close_conn t old) target); [|discriminate].
      intros [= <- <- <-]. cbn [connections]. split.
      * apply lookup_insert_eq.
      * unfold GetState, Close_conn. cbn [conn_state next_conn].
        rewrite lookup_insert_eq. reflexivity.
  - unfold Dial. destruct (dial_ok t target); [|discriminate].
    intros [= <- <- <-]. cbn [connections]. split.
    + apply lookup_insert_eq.
    + unfold GetState. cbn [conn_state]. rewrite lookup_insert_eq. reflexivity.
Qed.

(** A successful call returns a channel that is usable and is the pool's
    entry for the target; the entries of other targets are as before. *)
Theorem GetConnection_success (p p' : ConnectionPool) (t t' : Transport)
    (target : string) (conn : positive) :
  GetConnection dial_ok p t target = (p', t', inl conn) ->
  connections p' !! target = Some conn /\
  usable (GetState t' conn) = true /\
  (forall other, other <> target ->
     connections p' !! other = connections p !! other).
Proof.
  intros Hget.
  destruct (GetConnection_returns_pooled _ _ _ _ _ _ Hget) as [Hlook Hu].
  split; [exact Hlook|]. split; [exact Hu|].
  intros other Hne. revert Hget. unfold GetConnection, GetConnection_locked.
  destruct (connections p !! target) as [old|].
  - destruct (usable (GetState t old)).
    + intros [= <- _ _]. reflexivity.
    + unfold Dial. destruct (dial_ok (Close_conn t old) target); [|discriminate].
      intros [= <- _ _]. cbn [connections].
      rewrite lookup_insert_ne by congruence. apply lookup_delete_ne. congruence.
  - unfold Dial. destruct (dial_ok t target); [|discriminate].
    intros [= <- _ _]. cbn [connections]. apply lookup_insert_ne. congruence.
Qed.

(** Pool idempotence: after a successful call, a further call for the same
    target returns the same channel, for as long as the channel is usable,
    without dialling and without changing the pool. *)
Theorem GetConnection_reuses (p p' : ConnectionPool) (t t' t2 : Transport)
    (target : string) (conn : positive) :
  GetConnection dial_ok p t target = (p', t', inl conn) ->
  usable (GetState t2 conn) = true ->
  GetConnection dial_ok p' t' target = (p', t', inl conn) /\
  GetConnection dial_ok p' t2 target = (p', t2, inl conn).
Proof.
  intros Hget Hu2. apply GetConnection_returns_pooled in Hget.
  destruct Hget as (Hlook & Hu).
  unfold GetConnection. rewrite Hlook, Hu, Hu2. auto.
Qed.

(** An unusable entry is evicted, closed and replaced: when the target's
    channel is in [Shutdown] or [TransientFailure] and the dial succeeds,
    the call returns a channel dialled by this call, records it for the
    target and leaves the old one closed. *)
Theorem GetConnection_replaces_unusable (p : ConnectionPool) (t : Transport)
    (target : string) (old : positive) :
  connections p !! target = Some old ->
  usable (GetState t old) = false ->
  dial_ok (Close_conn t old) target = true ->
  (old < next_conn t)%positive ->
  exists p' t',
    GetConnection dial_ok p t target = (p', t', inl (next_conn t)) /\
    next_conn t <> old /\
    connections p' = <[target := next_conn t]> (connections p) /\
    GetState t' old = Shutdown /\
    dialled t' = target :: dialled t.
Proof.
  intros Hlook Hu Hdial Hold.
  unfold GetConnection, GetConnection_locked, Dial. rewrite Hlook, Hu, Hdial.
  eexists _, _. split; [reflexivity|]. cbn [connections Close_conn next_conn dialled].
  split; [lia|]. split; [apply insert_delete_eq|]. split; [|reflexivity].
  unfold GetState, Close_conn. cbn [conn_state next_conn].
  rewrite lookup_insert_ne by lia. rewrite lookup_insert_eq. reflexivity.
Qed.

(** [GetConnection] keeps the pool well formed: every pooled channel has
    been dialled, and no channel is shared between two targets. *)
Theorem GetConnection_preserves_pool_wf (p p' : ConnectionPool) (t t' : Transport)
    (target : string) (r : positive + DialError) :
  pool_wf p t ->
  GetConnection dial_ok p t target = (p', t', r) ->
  pool_wf p' t'.
Proof.
  intros [Halloc Hinj].
  assert (Hdel : pool_wf {| connections := delete target (connections p) |} t).
  { split; cbn [connections].
    - intros k c Hk. apply lookup_delete_Some in Hk. destruct Hk as [_ Hk].
      apply (Halloc k c Hk).
    - intros k1 k2 c H1 H2. apply lookup_delete_Some in H1, H2.
      destruct H1 as [_ H1]. destruct H2 as [_ H2]. apply (Hinj k1 k2 c H1 H2). }
  assert (Hstep : forall (q : ConnectionPool) (u : Transport),
            pool_wf q u -> next_conn u = next_conn t ->
            forall q' u' r',
              (let '(u1, s) := Dial dial_ok u target in
               match s with
               | inl c => ({| connections := <[target := c]> (connections q) |}, u1, inl c)
               | inr err => (q, u1, inr err)
               end) = (q', u', r') ->
              pool_wf q' u').
  { intros q u [Qalloc Qinj] Hnext q' u' r'. unfold Dial.
    destruct (dial_ok u target); intros [= <- <- <-]; [|split; assumption].
    split; cbn [connections next_conn].
    - intros k c Hk. apply lookup_insert_Some in Hk.
      destruct Hk as [[_ <-]|[_ Hk]]; [lia|]. apply Qalloc in Hk. lia.
    - intros k1 k2 c H1 H2. apply lookup_insert_Some in H1, H2.
      destruct H1 as [[<- <-]|[Hn1 H1]]; destruct H2 as [[<- Hc]|[Hn2 H2]];
        try reflexivity.
      + apply Qalloc in H2. lia.
      + subst c. apply Qalloc in H1. lia.
      + apply (Qinj k1 k2 c H1 H2). }
  unfold GetConnection, GetConnection_locked.
  destruct (connections p !! target) as [old|] eqn:Hlook.
  - destruct (usable (GetState t old)).
    + intros [= <- <- <-]. split; assumption.
    + apply Hstep; [|reflexivity].
      destruct Hdel as [Dalloc Dinj]. split; assumption.
  - apply Hstep; [split; assumption|reflexivity].
Qed.

(** [RemoveConnection] closes and forgets the target's channel and nothing
    else; without an entry it does nothing. *)
Theorem RemoveConnection_removes (p : ConnectionPool) (t : Transport)
    (target : string) :
  let '(p', t') := RemoveConnection p t target in
  connections p' !! target = None /\
  (forall other, other <> target ->
     connections p' !! other = connections p !! other) /\
  (forall conn, connections p !! target = Some conn ->
     GetState t' conn = Shutdown) /\
  (connections p !! target = None -> p' = p /\ t' = t) /\
  dialled t' = dialled t.
Proof.
  unfold RemoveConnection.
  destruct (connections p !! target) as [conn|] eqn:Hlook; cbn [connections].
  - repeat split.
    + apply lookup_delete_eq.
    + intros other Hne. apply lookup_delete_ne. congruence.
    + intros c [= <-]. unfold GetState, Close_conn. cbn [conn_state].
      rewrite lookup_insert_eq. reflexivity.
    + discriminate.
    + discriminate.
  - repeat split; auto. discriminate.
Qed.

Lemma GetState_Close_conn (t : Transport) (closed conn : positive) :
  GetState (Close_conn t closed) conn
  = if decide (conn = closed) then Shutdown else GetState t conn.
Proof.
  unfold GetState, Close_conn. cbn [conn_state].
  destruct (decide (conn = closed)) as [->|Hne].
  - rewrite lookup_insert_eq. reflexivity.
  - rewrite lookup_insert_ne by congruence. reflexivity.
Qed.

Lemma Close_fold (p : ConnectionPool) (t : Transport)
    (entries : list (string * positive)) :
  let r := foldr (fun entry acc =>
                    ({| connections := delete (fst entry) (connections (fst acc)) |},
                     Close_conn (snd acc) (snd entry)))
                 (p, t) entries in
  (forall k, connections (fst r) !! k
             = if decide (k ∈ map fst entries) then None else connections p !! k) /\
  (forall c, GetState (snd r) c
             = if decide (c ∈ map snd entries) then Shutdown else GetState t c) /\
  dialled (snd r) = dialled t /\ next_conn (snd r) = next_conn t.
Proof.
  induction entries as [|[k0 c0] l IH]; cbn [foldr map fst snd].
  - repeat split; intros; rewrite decide_False; auto; apply not_elem_of_nil.
  - cbv zeta in IH. destruct IH as (IHp & IHt & IHd & IHn).
    cbn [connections]. repeat split.
    + intros k. destruct (decide (k = k0)) as [->|Hne].
      * rewrite lookup_delete_eq, decide_True; [reflexivity|left].
      * rewrite lookup_delete_ne by congruence. rewrite IHp.
        destruct (decide (k ∈ map fst l)) as [Hin|Hout].
        -- rewrite decide_True; [reflexivity|right; exact Hin].
        -- rewrite decide_False; [reflexivity|].
           intros Hin. apply elem_of_cons in Hin. tauto.
    + intros c. rewrite GetState_Close_conn.
      destruct (decide (c = c0)) as [->|Hne].
      * rewrite decide_True; [reflexivity|left].
      * rewrite IHt.
        destruct (decide (c ∈ map snd l)) as [Hin|Hout].
        -- rewrite decide_True; [reflexivity|right; exact Hin].
        -- rewrite decide_False; [reflexivity|].
           intros Hin. apply elem_of_cons in Hin. tauto.
    + exact IHd.
    + exact IHn.
Qed.

(** [Close] empties the pool and leaves every channel it held shut down;
    channels it did not hold keep their state, and nothing is dialled. *)
Theorem Close_closes_all (p : ConnectionPool) (t : Transport) :
  connections (fst (Close p t)) = ∅ /\
  (forall target conn, connections p !! target = Some conn ->
     GetState (snd (Close p t)) conn = Shutdown) /\
  (forall conn, (forall target, connections p !! target <> Some conn) ->
     GetState (snd (Close p t)) conn = GetState t conn) /\
  dialled (snd (Close p t)) = dialled t.
Proof.
  unfold Close.
  destruct (Close_fold p t (map_to_list (connections p))) as (Hp & Ht & Hd & _).
  cbv zeta in *. repeat split.
  - apply map_eq. intros k. rewrite Hp, lookup_empty.
    destruct (decide (k ∈ map fst (map_to_list (connections p)))) as [Hin|Hout];
      [reflexivity|].
    destruct (connections p !! k) as [c|] eqn:Hk; [|reflexivity].
    exfalso. apply Hout. apply list_elem_of_fmap. exists (k, c).
    split; [reflexivity|]. apply elem_of_map_to_list. exact Hk.
  - intros target conn Hk. rewrite Ht. rewrite decide_True; [reflexivity|].
    apply list_elem_of_fmap. exists (target, conn).
    split; [reflexivity|]. apply elem_of_map_to_list. exact Hk.
  - intros conn Hfree. rewrite Ht. rewrite decide_False; [reflexivity|].
    intros Hin. apply list_elem_of_fmap in Hin. destruct Hin as ([k c] & -> & Hin).
    apply elem_of_map_to_list in Hin. apply (Hfree k). exact Hin.
  - exact Hd.
Qed.

End PoolMore.

Section PoolMoreExamples.

Import Pool Examples.
Local Open Scope string_scope.

Lemma fresh_get :
  GetConnection reachable NewConnectionPool fresh_transport "10.0.0.1:50051"
  = ({| connections := {[ "10.0.0.1:50051" := 1%positive ]} |},
     {| conn_state := {[ 1%positive := Idle ]};
        dialled := ["10.0.0.1:50051"]; next_conn := 2%positive |},
     inl 1%positive).
Proof. vm_compute. reflexivity. Qed.

Lemma GetConnection_success_witness :
  usable (GetState {| conn_state := {[ 1%positive := Idle ]};
                      dialled := ["10.0.0.1:50051"]; next_conn := 2%positive |}
                   1%positive) = true.
Proof.
  exact (proj1 (proj2 (GetConnection_success reachable _ _ _ _ _ _ fresh_get))).
Defined.

Lemma GetConnection_reuses_witness :
  GetConnection reachable
    {| connections := {[ "10.0.0.1:50051" := 1%positive ]} |}
    {| conn_state := {[ 1%positive := Ready ]};
       dialled := ["10.0.0.1:50051"]; next_conn := 2%positive |}
    "10.0.0.1:50051"
  = ({| connections := {[ "10.0.0.1:50051" := 1%positive ]} |},
     {| conn_state := {[ 1%positive := Ready ]};
        dialled := ["10.0.0.1:50051"]; next_conn := 2%positive |},
     inl 1%positive).
Proof.
  assert (Hu : usable (GetState
                 {| conn_state := {[ 1%positive := Ready ]};
                    dialled := ["10.0.0.1:50051"]; next_conn := 2%positive |}
                 1%positive) = true) by (vm_compute; reflexivity).
  exact (proj2 (GetConnection_reuses reachable _ _ _ _ _ _ _ fresh_get Hu)).
Defined.

Lemma GetConnection_replaces_unusable_witness :
  exists p' t',
    GetConnection reachable stale_pool stale_transport "10.0.0.1:50051"
      = (p', t', inl 2%positive) /\
    2%positive <> 1%positive /\
    connections p' = <[ "10.0.0.1:50051" := 2%positive ]> (connections stale_pool) /\
    GetState t' 1%positive = Shutdown /\
    dialled t' = "10.0.0.1:50051" :: dialled stale_transport.
Proof.
  exact (GetConnection_replaces_unusable reachable stale_pool stale_transport
           "10.0.0.1:50051" 1%positive
           ltac:(vm_compute; reflexivity) ltac:(vm_compute; reflexivity)
           eq_refl ltac:(vm_compute; reflexivity)).
Defined.

Lemma stale_pool_wf : pool_wf stale_pool stale_transport.
Proof.
  split; cbn [connections stale_pool stale_transport next_conn].
  - intros k c Hk. apply lookup_singleton_Some in Hk. destruct Hk as [_ <-]. lia.
  - intros k1 k2 c H1 H2. apply lookup_singleton_Some in H1, H2.
    destruct H1 as [<- _]. destruct H2 as [<- _]. reflexivity.
Qed.

Lemma GetConnection_preserves_pool_wf_witness :
  pool_wf {| connections := ∅ |}
          {| conn_state := {[ 1%positive := Shutdown ]};
             dialled := ["10.0.0.1:50051"; "10.0.0.1:50051"];
             next_conn := 2%positive |}.
Proof.
  exact (GetConnection_preserves_pool_wf unreachable _ _ _ _ _ _
           stale_pool_wf stale_pool_get).
Defined.

End PoolMoreExamples.

(** * Further properties of the descriptor loader *)
Section LoaderMore.

Import Loader.
Local Open Scope string_scope.

Lemma findServiceInFile_sound (pkg : string) (services : list ServiceDescriptorProto)
    (fullName : string) (s : ServiceDescriptorProto) :
  findServiceInFile pkg services fullName = Some s ->
  In s services /\ pkg ++ "." ++ service_name s = fullName.
Proof.
  induction services as [|x l IH]; [discriminate|]. cbn [findServiceInFile].
  destruct (String.eqb_spec (pkg ++ "." ++ service_name x) fullName) as [Heq|Hne].
  - intros [= <-]. split; [left; reflexivity|exact Heq].
  - intros Hf. destruct (IH Hf). split; [right|]; assumption.
Qed.

Lemma findServiceInFile_complete (pkg : string) (services : list ServiceDescriptorProto)
    (fullName : string) (s : ServiceDescriptorProto) :
  In s services -> pkg ++ "." ++ service_name s = fullName ->
  is_Some (findServiceInFile pkg services fullName).
Proof.
  induction services as [|x l IH]; [intros []|]. cbn [findServiceInFile].
  destruct (String.eqb_spec (pkg ++ "." ++ service_name x) fullName) as [Heq|Hne];
    [eauto|].
  intros [->|Hin] Hname; [congruence|]. apply IH; assumption.
Qed.

(** [FindServiceDescriptor] finds a service exactly when some file of the
    set declares one whose package and name compose the full name; what
    it returns is such a service. *)
Theorem FindServiceDescriptor_declared (fileSet : FileDescriptorSet)
    (fullName : string) :
  (forall s, FindServiceDescriptor fileSet fullName = Some s ->
             service_declared fileSet fullName s) /\
  (is_Some (FindServiceDescriptor fileSet fullName) <->
   exists s, service_declared fileSet fullName s).
Proof.
  assert (Hsound : forall s, FindServiceDescriptor fileSet fullName = Some s ->
                             service_declared fileSet fullName s).
  { induction fileSet as [|file rest IH]; [discriminate|].
    intros s. cbn [FindServiceDescriptor].
    destruct (findServiceInFile (package file) (Service file) fullName) as [s'|] eqn:Hf.
    - intros [= <-]. apply findServiceInFile_sound in Hf. destruct Hf as [Hin Hname].
      exists file. repeat split; [left; reflexivity|exact Hin|exact Hname].
    - intros Hrest. destruct (IH s Hrest) as (f & Hin & Hs & Hname).
      exists f. repeat split; [right; exact Hin|exact Hs|exact Hname]. }
  split; [exact Hsound|]. split.
  - intros [s Hs]. exists s. apply Hsound. exact Hs.
  - intros (s & file & Hin & Hs & Hname).
    induction fileSet as [|f rest IH]; [destruct Hin|].
    cbn [FindServiceDescriptor].
    destruct (findServiceInFile (package f) (Service f) fullName) as [s'|] eqn:Hf;
      [eauto|].
    destruct Hin as [->|Hin].
    + pose proof (findServiceInFile_complete _ _ _ _ Hs Hname) as Hc.
      rewrite Hf in Hc. destruct Hc; discriminate.
    + apply IH; [|exact Hin].
      intros s0 Hs0. specialize (Hsound s0). cbn [FindServiceDescriptor] in Hsound.
      rewrite Hf in Hsound. destruct (Hsound Hs0) as (f0 & [->|Hin0] & Hs1 & Hn1).
      * pose proof (findServiceInFile_complete _ _ _ _ Hs1 Hn1) as Hc.
        rewrite Hf in Hc. destruct Hc; discriminate.
      * exists f0. auto.
Qed.

Lemma findMethod_named (methods : list MethodDescriptorProto) (methodName : string)
    (m : MethodDescriptorProto) :
  findMethod methods methodName = Some m -> method_name m = methodName.
Proof.
  induction methods as [|x l IH]; [discriminate|]. cbn [findMethod].
  destruct (String.eqb_spec (method_name x) methodName) as [Heq|Hne].
  - intros [= <-]. exact Heq.
  - exact IH.
Qed.

Lemma findMethod_none (methods : list MethodDescriptorProto) (methodName : string) :
  findMethod methods methodName = None <->
  forall m, In m methods -> method_name m <> methodName.
Proof.
  induction methods as [|x l IH]; cbn [findMethod].
  - split; [intros _ m []|reflexivity].
  - destruct (String.eqb_spec (method_name x) methodName) as [Heq|Hne].
    + split; [discriminate|]. intros Hall. exfalso. apply (Hall x); [left; reflexivity|exact Heq].
    + rewrite IH. split.
      * intros Hall m [<-|Hin]; [exact Hne|apply Hall; exact Hin].
      * intros Hall m Hin. apply Hall. right. exact Hin.
Qed.

(** [FindMethodDescriptor] looks the method up in the first service of
    that full name only: it returns a method of that service with the
    name asked for, and nil when the set has no such service or that
    service has no method of the name. *)
Theorem FindMethodDescriptor_in_first_service (fileSet : FileDescriptorSet)
    (serviceName methodName : string) :
  (forall m, FindMethodDescriptor fileSet serviceName methodName = Some m ->
     exists s, FindServiceDescriptor fileSet serviceName = Some s /\
               In m (Method s) /\ method_name m = methodName) /\
  (FindMethodDescriptor fileSet serviceName methodName = None <->
   FindServiceDescriptor fileSet serviceName = None \/
   exists s, FindServiceDescriptor fileSet serviceName = Some s /\
             forall m, In m (Method s) -> method_name m <> methodName).
Proof.
  unfold FindMethodDescriptor.
  destruct (FindServiceDescriptor fileSet serviceName) as [s|]; split.
  - intros m Hm. exists s. split; [reflexivity|].
    split; [apply (findMethod_In _ _ _ Hm)|apply (findMethod_named _ _ _ Hm)].
  - rewrite findMethod_none. split.
    + intros Hall. right. exists s. auto.
    + intros [Hnone|(s' & [= <-] & Hall)]; [discriminate|exact Hall].
  - discriminate.
  - split; auto.
Qed.

Lemma FindServiceDescriptor_app (fileSet loaded : FileDescriptorSet) (name : string) :
  FindServiceDescriptor (fileSet ++ loaded)%list name
  = match FindServiceDescriptor fileSet name with
    | Some s => Some s
    | None => FindServiceDescriptor loaded name
    end.
Proof.
  induction fileSet as [|file rest IH]; [reflexivity|].
  cbn [app FindServiceDescriptor].
  destruct (findServiceInFile (package file) (Service file) name); [reflexivity|exact IH].
Qed.

Lemma FindMethodDescriptor_app (fileSet loaded : FileDescriptorSet)
    (serviceName methodName : string) :
  FindMethodDescriptor (fileSet ++ loaded)%list serviceName methodName
  = match FindServiceDescriptor fileSet serviceName with
    | Some _ => FindMethodDescriptor fileSet serviceName methodName
    | None => FindMethodDescriptor loaded serviceName methodName
    end.
Proof.
  unfold FindMethodDescriptor. rewrite FindServiceDescriptor_app.
  destruct (FindServiceDescriptor fileSet serviceName); reflexivity.
Qed.

Lemma FindMessageDescriptor_app (fileSet loaded : FileDescriptorSet) (name : string) :
  FindMessageDescriptor (fileSet ++ loaded)%list name
  = match FindMessageDescriptor fileSet name with
    | Some d => Some d
    | None => FindMessageDescriptor loaded name
    end.
Proof.
  induction fileSet as [|file rest IH]; [reflexivity|].
  cbn [app FindMessageDescriptor].
  destruct (findMessageInFile (MessageType file) name (package file));
    [reflexivity|exact IH].
Qed.

Lemma GetFileDescriptor_app (fileSet loaded : FileDescriptorSet) (name : string) :
  GetFileDescriptor (fileSet ++ loaded)%list name
  = match GetFileDescriptor fileSet name with
    | Some file => Some file
    | None => GetFileDescriptor loaded name
    end.
Proof.
  induction fileSet as [|file rest IH]; [reflexivity|].
  cbn [app GetFileDescriptor].
  destruct (String.eqb (file_name file) name); [reflexivity|exact IH].
Qed.

(** Lookups in a set extended at its end: what the first part resolves,
    it resolves as before; only what it does not resolve is looked up in
    the extension. For a method the deciding part is the one with the
    service. *)
Theorem lookups_after_append (fileSet loaded : FileDescriptorSet) :
  (forall name,
     FindServiceDescriptor (fileSet ++ loaded)%list name
     = match FindServiceDescriptor fileSet name with
       | Some s => Some s
       | None => FindServiceDescriptor loaded name
       end) /\
  (forall serviceName methodName,
     FindMethodDescriptor (fileSet ++ loaded)%list serviceName methodName
     = match FindServiceDescriptor fileSet serviceName with
       | Some _ => FindMethodDescriptor fileSet serviceName methodName
       | None => FindMethodDescriptor loaded serviceName methodName
       end) /\
  (forall name,
     FindMessageDescriptor (fileSet ++ loaded)%list name
     = match FindMessageDescriptor fileSet name with
       | Some d => Some d
       | None => FindMessageDescriptor loaded name
       end) /\
  (forall name,
     GetFileDescriptor (fileSet ++ loaded)%list name
     = match GetFileDescriptor fileSet name with
       | Some file => Some file
       | None => GetFileDescriptor loaded name
       end).
Proof.
  split; [apply FindServiceDescriptor_app|].
  split; [apply FindMethodDescriptor_app|].
  split; [apply FindMessageDescriptor_app|apply GetFileDescriptor_app].
Qed.

Variable Unmarshal_set : list byte -> FileDescriptorSet + string.
Variable ReadFile : string -> list byte + string.

(** Loading merges by appending: a load that fails leaves the set as it
    was; after one that succeeds, every service, message and file that
    resolved before resolves to the same descriptor, and the methods of a
    service already in the set are those it had. A reload cannot replace
    or extend what is already loaded. *)
Theorem LoadProtosetData_keeps_resolutions (fileSet fileSet' : FileDescriptorSet)
    (data : list byte) (err : option string) :
  LoadProtosetData Unmarshal_set fileSet data = (fileSet', err) ->
  (err <> None -> fileSet' = fileSet) /\
  (err = None ->
   (exists loaded, Unmarshal_set data = inl loaded /\
                   fileSet' = (fileSet ++ loaded)%list) /\
   (forall name s, FindServiceDescriptor fileSet name = Some s ->
      FindServiceDescriptor fileSet' name = Some s) /\
   (forall serviceName methodName,
      is_Some (FindServiceDescriptor fileSet serviceName) ->
      FindMethodDescriptor fileSet' serviceName methodName
      = FindMethodDescriptor fileSet serviceName methodName) /\
   (forall name d, FindMessageDescriptor fileSet name = Some d ->
      FindMessageDescriptor fileSet' name = Some d) /\
   (forall name file, GetFileDescriptor fileSet name = Some file ->
      GetFileDescriptor fileSet' name = Some file)).
Proof.
  unfold LoadProtosetData. destruct (Unmarshal_set data) as [loaded|e].
  - intros [= <- <-]. split; [congruence|]. intros _.
    split; [eauto|]. repeat split.
    + intros name s Hfound. rewrite FindServiceDescriptor_app, Hfound. reflexivity.
    + intros serviceName methodName [s Hfound].
      rewrite FindMethodDescriptor_app, Hfound. reflexivity.
    + intros name d Hfound. rewrite FindMessageDescriptor_app, Hfound. reflexivity.
    + intros name file Hfound. rewrite GetFileDescriptor_app, Hfound. reflexivity.
  - intros [= <- <-]. split; [reflexivity|discriminate].
Qed.

End LoaderMore.

Section LoaderMoreExamples.

Import Loader Examples.
Local Open Scope string_scope.

Lemma LoadProtosetData_keeps_resolutions_witness :
  FindMessageDescriptor (plain_files ++ dotted_files)%list "echo.EchoReply"
  = Some (Descriptor "EchoReply" []).
Proof.
  destruct (LoadProtosetData_keeps_resolutions (fun _ => inl dotted_files)
              plain_files (plain_files ++ dotted_files)%list [] None eq_refl)
    as [_ Hloaded].
  destruct (Hloaded eq_refl) as (_ & _ & _ & Hmessage & _).
  exact (Hmessage "echo.EchoReply" (Descriptor "EchoReply" []) eq_refl).
Defined.

End LoaderMoreExamples.

(** * Further properties of the transcoder *)
Section TranscoderMore.

Import GoRun Registry Balancer Pool Loader HttpProxy.
Local Open Scope string_scope.

Context {B : Type} `{LoadBalancer B}.

Variable NewFile_ok : FileDescriptorProto -> bool.
Variable Unmarshal : list byte -> Message -> Message * option string.
Variable Marshal : Message -> list byte + string.
Variable Discover : string -> list ServiceInstance + string.
Variable dial_ok : Transport -> string -> bool.
Variable backend : positive -> string -> Message -> list byte + GoError.

Abbreviation Transcode :=
  (ProxyHTTPRequest NewFile_ok Unmarshal Marshal Discover dial_ok backend).

Lemma deref_store (h : Heap) (r : positive) (m : Message) :
  deref (store h r m) r = m.
Proof. unfold deref, store. cbn [cells]. rewrite lookup_insert_eq. reflexivity. Qed.

Lemma findTopLevel_sound (pkg : string) (msgs : list DescriptorProto)
    (fullName : string) (d : MessageDescriptor) :
  findTopLevel pkg msgs fullName = Some d ->
  In (descriptor_proto d) msgs /\ FullName d = fullName /\
  top_level_name pkg (descriptor_proto d) = fullName.
Proof.
  induction msgs as [|x l IH]; [discriminate|]. cbn [findTopLevel].
  destruct (String.eqb_spec (top_level_name pkg x) fullName) as [Heq|Hne].
  - intros [= <-]. cbn [descriptor_proto FullName].
    split; [left; reflexivity|]. split; exact Heq.
  - intros Hf. destruct (IH Hf) as (Hin & Hn & Ht).
    split; [right; exact Hin|]. split; assumption.
Qed.

Lemma findTopLevel_complete (pkg : string) (msgs : list DescriptorProto)
    (fullName : string) (msg : DescriptorProto) :
  In msg msgs -> top_level_name pkg msg = fullName ->
  is_Some (findTopLevel pkg msgs fullName).
Proof.
  induction msgs as [|x l IH]; [intros []|]. cbn [findTopLevel].
  destruct (String.eqb_spec (top_level_name pkg x) fullName) as [Heq|Hne]; [eauto|].
  intros [->|Hin] Hname; [congruence|]. apply IH; assumption.
Qed.

Lemma findFullMessageDescriptor_sound (files : FileDescriptorSet)
    (fullName : string) (d : MessageDescriptor) :
  findFullMessageDescriptor NewFile_ok files fullName = Some d ->
  FullName d = fullName /\
  exists file, In file files /\ NewFile_ok file = true /\
               In (descriptor_proto d) (MessageType file) /\
               top_level_name (package file) (descriptor_proto d) = fullName.
Proof.
  induction files as [|file rest IH]; [discriminate|].
  cbn [findFullMessageDescriptor].
  destruct (NewFile_ok file) eqn:Hok.
  - destruct (findTopLevel (package file) (MessageType file) fullName) as [d'|] eqn:Hf.
    + intros [= <-]. apply findTopLevel_sound in Hf. destruct Hf as (Hin & Hn & Ht).
      split; [exact Hn|]. exists file. repeat split; auto. left. reflexivity.
    + intros Hr. destruct (IH Hr) as (Hn & f & Hin & Hrest).
      split; [exact Hn|]. exists f. split; [right; exact Hin|exact Hrest].
  - intros Hr. destruct (IH Hr) as (Hn & f & Hin & Hrest).
    split; [exact Hn|]. exists f. split; [right; exact Hin|exact Hrest].
Qed.

(** The transcoder resolves top-level messages only: what
    [findFullMessageDescriptor] returns is a message declared at the top
    of a file that builds, under the name asked for; and it finds a name
    exactly when there is such a message. Nested message types are never
    resolved. *)
Theorem findFullMessageDescriptor_top_level (files : FileDescriptorSet)
    (fullName : string) :
  (forall d, findFullMessageDescriptor NewFile_ok files fullName = Some d ->
     FullName d = fullName /\
     exists file, In file files /\ NewFile_ok file = true /\
                  In (descriptor_proto d) (MessageType file) /\
                  top_level_name (package file) (descriptor_proto d) = fullName) /\
  (is_Some (findFullMessageDescriptor NewFile_ok files fullName) <->
   exists file msg, In file files /\ NewFile_ok file = true /\
                    In msg (MessageType file) /\
                    top_level_name (package file) msg = fullName).
Proof.
  split; [apply findFullMessageDescriptor_sound|]. split.
  - intros [d Hd].
    destruct (findFullMessageDescriptor_sound _ _ _ Hd)
      as (_ & file & Hin & Hok & Hmsg & Hname).
    exists file, (descriptor_proto d). auto.
  - intros (file & msg & Hin & Hok & Hmsg & Hname).
    induction files as [|f rest IH]; [destruct Hin|].
    cbn [findFullMessageDescriptor].
    destruct Hin as [->|Hin].
    + rewrite Hok.
      destruct (findTopLevel_complete _ _ _ _ Hmsg Hname) as [d ->]. eauto.
    + destruct (NewFile_ok f); [|apply IH; exact Hin].
      destruct (findTopLevel (package f) (MessageType f) fullName); [eauto|].
      apply IH. exact Hin.
Qed.

(** A type the transcoder cannot resolve is reported and leaves no trace:
    neither the cache nor the heap changes. *)
Theorem createDynamicMessage_unknown_type (p : @HTTPProxy B) (h : Heap)
    (messageType : string) :
  msgCache p !! messageType = None ->
  findFullMessageDescriptor NewFile_ok (protoLoader p) messageType = None ->
  createDynamicMessage NewFile_ok p h messageType
  = (p, h, inr ("message descriptor not found: " ++ messageType)).
Proof.
  intros Hmiss Hnone. unfold createDynamicMessage. rewrite Hmiss, Hnone. reflexivity.
Qed.


Section Reached.

(** A request that has found its method, decoded its body, selected an
    instance and obtained a connection. *)
Variables (p p1 p2 : @HTTPProxy B) (w : World) (h1 h2 : Heap).
Variables (serviceName methodName : string) (jsonBody : list byte).
Variables (methodDesc : MethodDescriptorProto) (requestMsg responseMsg : positive).
Variables (instances : list ServiceInstance) (lb : B) (instance : ServiceInstance).
Variables (pool : ConnectionPool) (t : Transport) (conn : positive).
Hypothesis Hmethod :
  FindMethodDescriptor (protoLoader p) serviceName methodName = Some methodDesc.
Hypothesis Hinput : input_type methodDesc <> "".
Hypothesis Hdecoded :
  jsonToProtobuf NewFile_ok Unmarshal p (heap w) jsonBody (input_type methodDesc)
  = (p1, h1, inl requestMsg).
Hypothesis Hdiscovered : Discover serviceName = inl instances.
Hypothesis Hsome : instances <> [].
Hypothesis Hselected : Select (loadBalance p1) instances = (lb, Ret (Some instance)).
Hypothesis Hconnected :
  GetConnection dial_ok (connPool p1) (transport w)
    (Address instance ++ ":" ++ format_int (Port instance)) = (pool, t, inl conn).

Lemma Transcode_reached :
  Transcode p w serviceName methodName jsonBody
  = (let '(p, w, r) :=
       invokeUnary NewFile_ok Marshal backend
         (set_connPool (set_loadBalance p1 lb) pool)
         (set_transport (set_heap w h1) t) conn
         ("/" ++ serviceName ++ "/" ++ methodName) requestMsg methodDesc in
     (p, w, Ret r)).
Proof.
  unfold ProxyHTTPRequest.
  rewrite Hmethod, (eqb_non_empty _ Hinput), Hdecoded, Hdiscovered.
  rewrite (len_eqb_nonempty _ Hsome), Hselected.
  cbn [connPool set_loadBalance transport set_heap]. rewrite Hconnected. reflexivity.
Qed.

(** The call that succeeds: the backend is called once, on the selected
    instance's connection, at [/service/method], with the decoded request;
    its reply is decoded into the response message and marshalled back. *)
Lemma Transcode_success (reply bytes : list byte) :
  output_type methodDesc <> "" ->
  createDynamicMessage NewFile_ok (set_connPool (set_loadBalance p1 lb) pool) h1
    (output_type methodDesc) = (p2, h2, inl responseMsg) ->
  backend conn ("/" ++ serviceName ++ "/" ++ methodName) (deref h2 requestMsg)
    = inl reply ->
  Marshal {| type_name := type_name (deref h2 responseMsg); contents := reply |}
    = inl bytes ->
  exists w',
    Transcode p w serviceName methodName jsonBody = (p2, w', Ret (inl bytes)) /\
    invoked w' = (conn, "/" ++ serviceName ++ "/" ++ methodName) :: invoked w /\
    contents (deref (heap w') responseMsg) = reply /\
    transport w' = t.
Proof.
  intros Hout Hresp Hback Hmarshal. rewrite Transcode_reached.
  unfold invokeUnary. rewrite (eqb_non_empty _ Hout).
  cbn [heap set_transport set_heap]. rewrite Hresp.
  unfold Invoke. cbn [heap set_heap]. rewrite Hback.
  cbn [heap set_heap]. rewrite deref_store, Hmarshal.
  eexists. split; [reflexivity|]. cbn [invoked heap transport set_heap set_transport].
  split; [reflexivity|]. split; [|reflexivity].
  rewrite deref_store. reflexivity.
Qed.

(** A method without output type, or whose output type cannot be
    resolved, fails with [Internal], after the backend has been selected
    and connected to, and without calling it. *)
Lemma Transcode_output_internal :
  (output_type methodDesc = "" ->
   Transcode p w serviceName methodName jsonBody
   = (set_connPool (set_loadBalance p1 lb) pool, set_transport (set_heap w h1) t,
      Ret (inr (StatusError Internal "method output type not specified")))) /\
  (forall err,
     output_type methodDesc <> "" ->
     createDynamicMessage NewFile_ok (set_connPool (set_loadBalance p1 lb) pool) h1
       (output_type methodDesc) = (p2, h2, inr err) ->
     Transcode p w serviceName methodName jsonBody
     = (p2, set_heap (set_transport (set_heap w h1) t) h2,
        Ret (inr (StatusError Internal
                    ("failed to create response message: " ++ err))))).
Proof.
  split.
  - intros Hout. rewrite Transcode_reached. unfold invokeUnary. rewrite Hout.
    reflexivity.
  - intros err Hout Hresp. rewrite Transcode_reached. unfold invokeUnary.
    rewrite (eqb_non_empty _ Hout). cbn [heap set_transport set_heap].
    rewrite Hresp. reflexivity.
Qed.

End Reached.

(** The unary call that succeeds, end to end. *)
Theorem ProxyHTTPRequest_success (p p1 p2 : @HTTPProxy B) (w : World) (h1 h2 : Heap)
    (serviceName methodName : string) (jsonBody : list byte)
    (methodDesc : MethodDescriptorProto) (requestMsg responseMsg : positive)
    (instances : list ServiceInstance) (lb : B) (instance : ServiceInstance)
    (pool : ConnectionPool) (t : Transport) (conn : positive)
    (reply bytes : list byte) :
  FindMethodDescriptor (protoLoader p) serviceName methodName = Some methodDesc ->
  input_type methodDesc <> "" ->
  jsonToProtobuf NewFile_ok Unmarshal p (heap w) jsonBody (input_type methodDesc)
    = (p1, h1, inl requestMsg) ->
  Discover serviceName = inl instances -> instances <> [] ->
  Select (loadBalance p1) instances = (lb, Ret (Some instance)) ->
  GetConnection dial_ok (connPool p1) (transport w)
    (Address instance ++ ":" ++ format_int (Port instance)) = (pool, t, inl conn) ->
  output_type methodDesc <> "" ->
  createDynamicMessage NewFile_ok (set_connPool (set_loadBalance p1 lb) pool) h1
    (output_type methodDesc) = (p2, h2, inl responseMsg) ->
  backend conn ("/" ++ serviceName ++ "/" ++ methodName) (deref h2 requestMsg)
    = inl reply ->
  Marshal {| type_name := type_name (deref h2 responseMsg); contents := reply |}
    = inl bytes ->
  exists w',
    Transcode p w serviceName methodName jsonBody = (p2, w', Ret (inl bytes)) /\
    invoked w' = (conn, "/" ++ serviceName ++ "/" ++ methodName) :: invoked w /\
    contents (deref (heap w') responseMsg) = reply /\
    transport w' = t.
Proof.
  intros. eapply Transcode_success; eassumption.
Qed.

(** The [Internal] failures: a method without input type fails at once,
    the state untouched; a method without output type, or with one that
    cannot be resolved, fails only after the backend has been selected
    and connected to, and the backend is not called. *)
Theorem ProxyHTTPRequest_internal (p : @HTTPProxy B) (w : World)
    (serviceName methodName : string) (jsonBody : list byte)
    (methodDesc : MethodDescriptorProto) :
  FindMethodDescriptor (protoLoader p) serviceName methodName = Some methodDesc ->
  (input_type methodDesc = "" ->
   Transcode p w serviceName methodName jsonBody
   = (p, w, Ret (inr (StatusError Internal "method input type not specified")))) /\
  (forall p1 h1 requestMsg instances lb instance pool t conn,
     input_type methodDesc <> "" ->
     jsonToProtobuf NewFile_ok Unmarshal p (heap w) jsonBody (input_type methodDesc)
       = (p1, h1, inl requestMsg) ->
     Discover serviceName = inl instances -> instances <> [] ->
     Select (loadBalance p1) instances = (lb, Ret (Some instance)) ->
     GetConnection dial_ok (connPool p1) (transport w)
       (Address instance ++ ":" ++ format_int (Port instance)) = (pool, t, inl conn) ->
     (output_type methodDesc = "" ->
      Transcode p w serviceName methodName jsonBody
      = (set_connPool (set_loadBalance p1 lb) pool, set_transport (set_heap w h1) t,
         Ret (inr (StatusError Internal "method output type not specified")))) /\
     (forall p2 h2 err,
        output_type methodDesc <> "" ->
        createDynamicMessage NewFile_ok (set_connPool (set_loadBalance p1 lb) pool) h1
          (output_type methodDesc) = (p2, h2, inr err) ->
        Transcode p w serviceName methodName jsonBody
        = (p2, set_heap (set_transport (set_heap w h1) t) h2,
           Ret (inr (StatusError Internal
                       ("failed to create response message: " ++ err)))))).
Proof.
  intros Hm. split.
  - intros Hi. unfold ProxyHTTPRequest. rewrite Hm, Hi. reflexivity.
  - intros p1 h1 requestMsg instances lb instance pool t conn Hi Hj Hd Hne Hsel Hconn.
    split.
    + apply (Transcode_output_internal p p1 p1 w h1 h1 _ _ _ methodDesc requestMsg
               instances lb instance pool t conn Hm Hi Hj Hd Hne Hsel Hconn).
    + intros p2 h2 err.
      apply (Transcode_output_internal p p1 p2 w h1 h2 _ _ _ methodDesc requestMsg
               instances lb instance pool t conn Hm Hi Hj Hd Hne Hsel Hconn).
Qed.

Lemma top_level_name_dot (pkg : string) (msg : DescriptorProto) :
  starts_with_dot pkg = false ->
  starts_with_dot (GetName msg) = false ->
  starts_with_dot (top_level_name pkg msg) = false.
Proof.
  intros Hpkg Hname. unfold top_level_name.
  destruct pkg as [|c pkg]; [exact Hname|].
  cbn [String.eqb]. rewrite append_String. exact Hpkg.
Qed.

(** A type name written fully qualified, with a leading dot, is not
    resolved by the transcoder: over a descriptor set none of whose
    package and message names begins with a dot, every request for a
    method whose input type is written that way fails with
    [InvalidArgument], whatever its body. *)
Theorem ProxyHTTPRequest_dotted_input_type (p : @HTTPProxy B) (w : World)
    (serviceName methodName : string) (jsonBody : list byte)
    (methodDesc : MethodDescriptorProto) :
  (forall file, In file (protoLoader p) ->
     starts_with_dot (package file) = false /\
     forall msg, In msg (MessageType file) -> starts_with_dot (GetName msg) = false) ->
  FindMethodDescriptor (protoLoader p) serviceName methodName = Some methodDesc ->
  starts_with_dot (input_type methodDesc) = true ->
  msgCache p !! input_type methodDesc = None ->
  Transcode p w serviceName methodName jsonBody
  = (p, w,
     Ret (inr (StatusError InvalidArgument
       ("failed to unmarshal request: message descriptor not found: "
        ++ input_type methodDesc)))).
Proof.
  intros Hnames Hm Hdot Hmiss.
  assert (Hnone : findFullMessageDescriptor NewFile_ok (protoLoader p)
                    (input_type methodDesc) = None).
  { destruct (findFullMessageDescriptor NewFile_ok (protoLoader p)
                (input_type methodDesc)) as [d|] eqn:Hd; [|reflexivity].
    apply findFullMessageDescriptor_sound in Hd.
    destruct Hd as (_ & file & Hin & _ & Hmsg & Hname).
    destruct (Hnames file Hin) as [Hpkg Hmsgs].
    pose proof (top_level_name_dot (package file) (descriptor_proto d) Hpkg
                  (Hmsgs _ Hmsg)) as Hno.
    rewrite Hname, Hdot in Hno. discriminate Hno. }
  assert (Hi : input_type methodDesc <> "").
  { intros He. rewrite He in Hdot. discriminate Hdot. }
  rewrite (ProxyHTTPRequest_bad_body NewFile_ok Unmarshal Marshal Discover dial_ok backend
             p p w (heap w) serviceName methodName jsonBody methodDesc
             ("message descriptor not found: " ++ input_type methodDesc) Hm Hi).
  - destruct w. reflexivity.
  - unfold jsonToProtobuf, createDynamicMessage. rewrite Hmiss, Hnone. reflexivity.
Qed.

End TranscoderMore.

Section TranscoderMoreExamples.

Import GoRun Registry Balancer Pool Loader HttpProxy Examples.
Local Open Scope string_scope.

Lemma warm_cache_allocated : cache_allocated warm_proxy warm_heap.
Proof.
  intros name r Hr. cbn [msgCache warm_proxy] in Hr.
  apply lookup_singleton_Some in Hr. destruct Hr as [_ <-]. reflexivity.
Qed.

Lemma createDynamicMessage_hit_clones_witness :
  exists h' clone,
    createDynamicMessage all_files_build warm_proxy warm_heap "echo.EchoRequest"
      = (warm_proxy, h', inl clone) /\
    clone = next_ref warm_heap /\
    (forall name r, msgCache warm_proxy !! name = Some r -> r <> clone) /\
    deref h' clone = deref warm_heap 1%positive.
Proof.
  exact (createDynamicMessage_hit_clones all_files_build warm_proxy warm_heap
           "echo.EchoRequest" 1%positive eq_refl warm_cache_allocated).
Defined.

Lemma createDynamicMessage_unknown_type_witness :
  createDynamicMessage all_files_build (new_proxy plain_files) (heap fresh_world)
    "echo.EchoRequest.Options"
  = (new_proxy plain_files, heap fresh_world,
     inr "message descriptor not found: echo.EchoRequest.Options").
Proof.
  exact (createDynamicMessage_unknown_type all_files_build (new_proxy plain_files)
           (heap fresh_world) "echo.EchoRequest.Options" eq_refl eq_refl).
Defined.



Lemma ProxyHTTPRequest_success_witness :
  exists p2 w',
    ProxyHTTPRequest all_files_build unmarshal_nonempty marshal_contents
      discover_echo reachable echo_backend
      (new_proxy plain_files) fresh_world "echo.Echo" "Say" ["a"%byte]
    = (p2, w', Ret (inl ["a"%byte])) /\
    invoked w' = [(1%positive, "/echo.Echo/Say")].
Proof.
  pose proof (fun p1 p2 h1 h2 =>
                ProxyHTTPRequest_success all_files_build unmarshal_nonempty
                  marshal_contents discover_echo reachable echo_backend
                  (new_proxy plain_files) p1 p2 fresh_world h1 h2
                  "echo.Echo" "Say" ["a"%byte]) as Hsuccess.
  edestruct Hsuccess as (w' & Hrun & Hlog & _);
    [vm_compute; reflexivity | discriminate | vm_compute; reflexivity
    | reflexivity | discriminate | reflexivity | vm_compute; reflexivity
    | discriminate | vm_compute; reflexivity | vm_compute; reflexivity
    | vm_compute; reflexivity |].
  eexists _, w'. split; [exact Hrun|exact Hlog].
Defined.

Lemma ProxyHTTPRequest_internal_witness :
  ProxyHTTPRequest all_files_build unmarshal_nonempty marshal_contents
    discover_echo reachable echo_backend
    (new_proxy [echo_file "" "echo.EchoReply"]) fresh_world "echo.Echo" "Say" ["a"%byte]
  = (new_proxy [echo_file "" "echo.EchoReply"], fresh_world,
     Ret (inr (StatusError Internal "method input type not specified"))).
Proof.
  exact (proj1 (ProxyHTTPRequest_internal all_files_build unmarshal_nonempty
                  marshal_contents discover_echo reachable echo_backend
                  (new_proxy [echo_file "" "echo.EchoReply"]) fresh_world
                  "echo.Echo" "Say" ["a"%byte] (say_method "" "echo.EchoReply")
                  eq_refl) eq_refl).
Defined.

Lemma ProxyHTTPRequest_dotted_input_type_witness :
  ProxyHTTPRequest all_files_build unmarshal_nonempty marshal_contents
    discover_echo reachable echo_backend
    (new_proxy dotted_files) fresh_world "echo.Echo" "Say" ["a"%byte]
  = (new_proxy dotted_files, fresh_world,
     Ret (inr (StatusError InvalidArgument
       "failed to unmarshal request: message descriptor not found: .echo.EchoRequest"))).
Proof.
  refine (ProxyHTTPRequest_dotted_input_type all_files_build unmarshal_nonempty
            marshal_contents discover_echo reachable echo_backend
            (new_proxy dotted_files) fresh_world "echo.Echo" "Say" ["a"%byte]
            (say_method ".echo.EchoRequest" ".echo.EchoReply")
            _ eq_refl eq_refl eq_refl).
  intros file [<-|[]]. split; [reflexivity|].
  intros msg [<-|[<-|[]]]; reflexivity.
Defined.

End TranscoderMoreExamples.


(** * Properties of the hot-reload manager *)
Section HotReloadFacts.

Import Loader HotReload.
Local Open Scope string_scope.

Variable Unmarshal_set : list byte -> FileDescriptorSet + string.
Variable NewRequest_error : string -> option string.
Variable Do : string -> option string -> Z * list byte + string.
Variable CreateTemp : gmap string (list byte) -> string + string.
Variable Copy_error : list byte -> option (list byte * string).

Context {App : Type}.
Variable loader : App -> FileDescriptorSet.
Variable set_loader : App -> FileDescriptorSet -> App.

Abbreviation download :=
  (@downloadProtoset NewRequest_error Do CreateTemp Copy_error App).
Abbreviation reload :=
  (reloadProtoset Unmarshal_set NewRequest_error Do CreateTemp Copy_error
     loader set_loader).
Abbreviation reload_service :=
  (ReloadServiceProtoset Unmarshal_set NewRequest_error Do CreateTemp Copy_error
     loader set_loader).

(** What a download leaves behind: on failure no new file; on success
    the temporary file, holding the body of a 200 response. *)
Lemma downloadProtoset_cases (m : HotReloadManager) (files files' : gmap string (list byte))
    (url : string) (r : string + string) :
  download m files url = (files', r) ->
  match r with
  | inr _ => files' = files \/
             exists name, CreateTemp files = inl name /\ files' = delete name files
  | inl name => CreateTemp files = inl name /\
                exists body, Do url (authorization m) = inl (200%Z, body) /\
                             files' = <[name := body]> files
  end.
Proof.
  unfold downloadProtoset.
  destruct (NewRequest_error url); [intros [= <- <-]; auto|].
  destruct (Do url (authorization m)) as [[status body]|err];
    [|intros [= <- <-]; auto].
  destruct (Z.eqb_spec status 200) as [->|Hne]; cbn [negb];
    [|intros [= <- <-]; auto].
  destruct (CreateTemp files) as [name|err]; [|intros [= <- <-]; auto].
  destruct (Copy_error body) as [[written err]|].
  - intros [= <- <-]. right. exists name. split; [reflexivity|].
    unfold Remove. apply delete_insert_eq.
  - intros [= <- <-]. eauto.
Qed.

Lemma reloadProtoset_error_keeps (m : HotReloadManager) (app app' : App)
    (files files' : gmap string (list byte)) (info : ProtoSetInfo) (err : string) :
  reload m app files info = (app', files', Some err) -> app' = app.
Proof.
  unfold reloadProtoset.
  destruct (negb (String.eqb (URL info) "")).
  - destruct (download m files (URL info)) as [files1 [tempFile|e]];
      [|intros [= <- _ _]; reflexivity].
    destruct (ReadFile files1 tempFile) as [data|e];
      [|intros [= <- _ _]; reflexivity].
    unfold LoadProtosetData. destruct (Unmarshal_set data);
      [discriminate 1|intros [= <- _ _]; reflexivity].
  - destruct (negb (String.eqb (Path info) "")); [|discriminate 1].
    unfold LoadProtoset. destruct (ReadFile files (Path info)) as [data|e];
      [|intros [= <- _ _]; reflexivity].
    destruct (Unmarshal_set data); [discriminate 1|intros [= <- _ _]; reflexivity].
Qed.

(** A reload that reports an error has changed nothing of the
    application: the descriptor set is the one from before and the cache
    callback has not run. This holds for a service that is not
    registered, a failed download, an unreadable file and data that does
    not decode. *)
Theorem ReloadServiceProtoset_error_keeps_state (m : HotReloadManager)
    (app app' : App) (files files' : gmap string (list byte))
    (serviceName err : string) :
  reload_service m app files serviceName = (app', files', Some err) ->
  app' = app.
Proof.
  unfold ReloadServiceProtoset.
  destruct (protosets m !! serviceName) as [ps|].
  - apply reloadProtoset_error_keeps.
  - intros [= <- _ _]. reflexivity.
Qed.

(** No temporary file outlives a reload: when [os.CreateTemp] returns a
    name that is not in use, the files after [reloadProtoset] are the
    files before it, whether the reload succeeds or fails at any step. *)
Theorem reloadProtoset_removes_temp_file (m : HotReloadManager) (app app' : App)
    (files files' : gmap string (list byte)) (info : ProtoSetInfo)
    (result : option string) :
  (forall name, CreateTemp files = inl name -> files !! name = None) ->
  reload m app files info = (app', files', result) ->
  files' = files.
Proof.
  intros Hfresh. unfold reloadProtoset.
  destruct (negb (String.eqb (URL info) "")).
  - destruct (download m files (URL info)) as [files1 r] eqn:Hd.
    apply downloadProtoset_cases in Hd. destruct r as [tempFile|e].
    + destruct Hd as (Hname & body & _ & ->).
      assert (Remove (<[tempFile := body]> files) tempFile = files) as Hrm.
      { unfold Remove. rewrite delete_insert_eq. apply delete_id.
        apply Hfresh. exact Hname. }
      destruct (ReadFile (<[tempFile := body]> files) tempFile) as [data|e].
      * destruct (LoadProtosetData Unmarshal_set (loader app) data) as [fs [e|]];
          intros [= _ <- _]; exact Hrm.
      * intros [= _ <- _]. exact Hrm.
    + intros [= _ <- _]. destruct Hd as [->|(name & Hname & ->)]; [reflexivity|].
      apply delete_id. apply Hfresh. exact Hname.
  - destruct (negb (String.eqb (Path info) "")).
    + destruct (LoadProtoset Unmarshal_set (ReadFile files) (loader app) (Path info))
        as [fs [e|]]; intros [= _ <- _]; reflexivity.
    + intros [= _ <- _]. reflexivity.
Qed.

Lemma reloadProtoset_appended (m : HotReloadManager) (app app' : App)
    (files files' : gmap string (list byte)) (info : ProtoSetInfo) :
  reload m app files info = (app', files', None) ->
  app' = clear_cache m app \/
  exists loaded, app' = clear_cache m (set_loader app (loader app ++ loaded)%list).
Proof.
  unfold reloadProtoset.
  destruct (negb (String.eqb (URL info) "")).
  - destruct (download m files (URL info)) as [files1 [tempFile|e]]; [|discriminate 1].
    destruct (ReadFile files1 tempFile) as [data|e]; [|discriminate 1].
    unfold LoadProtosetData. destruct (Unmarshal_set data) as [loaded|e];
      [|discriminate 1].
    intros [= <- _]. right. exists loaded. reflexivity.
  - destruct (negb (String.eqb (Path info) "")); [|intros [= <- _]; left; reflexivity].
    unfold LoadProtoset. destruct (ReadFile files (Path info)) as [data|e];
      [|discriminate 1].
    destruct (Unmarshal_set data) as [loaded|e]; [|discriminate 1].
    intros [= <- _]. right. exists loaded. reflexivity.
Qed.

(** What a successful reload has loaded. With a URL, the body of the 200
    response to the request carrying the configured bearer token is
    decoded and appended, and the path is not looked at; without a URL,
    the file at the path; with neither, nothing is loaded. In each case
    the cache callback then runs. *)
Theorem reloadProtoset_success (m : HotReloadManager) (app app' : App)
    (files files' : gmap string (list byte)) (info : ProtoSetInfo) :
  reload m app files info = (app', files', None) ->
  (URL info <> "" ->
     exists body loaded,
       Do (URL info) (authorization m) = inl (200%Z, body) /\
       Unmarshal_set body = inl loaded /\
       app' = clear_cache m (set_loader app (loader app ++ loaded)%list)) /\
  (URL info = "" -> Path info <> "" ->
     exists data loaded,
       files !! Path info = Some data /\
       Unmarshal_set data = inl loaded /\
       app' = clear_cache m (set_loader app (loader app ++ loaded)%list)) /\
  (URL info = "" -> Path info = "" -> app' = clear_cache m app).
Proof.
  unfold reloadProtoset.
  destruct (String.eqb_spec (URL info) "") as [Hurl|Hurl]; cbn [negb].
  - destruct (String.eqb_spec (Path info) "") as [Hpath|Hpath]; cbn [negb].
    + intros [= <- _]. split; [congruence|]. split; [congruence|]. reflexivity.
    + unfold LoadProtoset, ReadFile.
      destruct (files !! Path info) as [data|] eqn:Hfile; [|discriminate 1].
      destruct (Unmarshal_set data) as [loaded|e] eqn:Hdec; [|discriminate 1].
      intros [= <- _]. split; [congruence|]. split; [|congruence].
      intros _ _. exists data, loaded. auto.
  - destruct (download m files (URL info)) as [files1 r] eqn:Hd.
    apply downloadProtoset_cases in Hd. destruct r as [tempFile|e]; [|discriminate 1].
    destruct Hd as (_ & body & Hdo & ->).
    unfold ReadFile. rewrite lookup_insert_eq. unfold LoadProtosetData.
    destruct (Unmarshal_set body) as [loaded|e] eqn:Hdec; [|discriminate 1].
    intros [= <- _]. split; [|split; congruence].
    intros _. exists body, loaded. auto.
Qed.

(** Registration round trip: a registered protoset is the one a manual
    reload of its service runs, a later registration under the same
    service name replaces an earlier one, and once unregistered the
    service is reported as not found, with nothing touched. *)
Theorem RegisterProtoset_round_trip (m : HotReloadManager) (app : App)
    (files : gmap string (list byte)) (info newer : ProtoSetInfo) :
  reload_service (RegisterProtoset m info) app files (ServiceName info)
  = reload m app files info /\
  (ServiceName newer = ServiceName info ->
   reload_service (RegisterProtoset (RegisterProtoset m info) newer) app files
     (ServiceName info)
   = reload m app files newer) /\
  reload_service (UnregisterProtoset (RegisterProtoset m info) (ServiceName info))
    app files (ServiceName info)
  = (app, files, Some ("protoset not found for service: " ++ ServiceName info)).
Proof.
  unfold ReloadServiceProtoset, RegisterProtoset, UnregisterProtoset.
  cbn [protosets]. repeat split.
  - rewrite lookup_insert_eq. reflexivity.
  - intros <-. rewrite lookup_insert_eq. reflexivity.
  - rewrite lookup_delete_eq. reflexivity.
Qed.

End HotReloadFacts.

(** * The hot-reload manager over the transcoder *)
Section HotReloadOverTranscoder.

Import Loader HttpProxy HotReload.
Local Open Scope string_scope.

Context {B : Type}.

Variable NewFile_ok : FileDescriptorProto -> bool.
Variable Unmarshal_set : list byte -> FileDescriptorSet + string.
Variable NewRequest_error : string -> option string.
Variable Do : string -> option string -> Z * list byte + string.
Variable CreateTemp : gmap string (list byte) -> string + string.
Variable Copy_error : list byte -> option (list byte * string).

Abbreviation reload_transcoder :=
  (reloadProtoset Unmarshal_set NewRequest_error Do CreateTemp Copy_error
     (@protoLoader B) set_protoLoader).

Lemma findFullMessageDescriptor_app (fileSet loaded : FileDescriptorSet)
    (fullName : string) :
  findFullMessageDescriptor NewFile_ok (fileSet ++ loaded)%list fullName
  = match findFullMessageDescriptor NewFile_ok fileSet fullName with
    | Some d => Some d
    | None => findFullMessageDescriptor NewFile_ok loaded fullName
    end.
Proof.
  induction fileSet as [|file rest IH]; [reflexivity|].
  cbn [app findFullMessageDescriptor].
  destruct (NewFile_ok file); [|exact IH].
  destruct (findTopLevel (package file) (MessageType file) fullName);
    [reflexivity|exact IH].
Qed.

(** Hot reload adds, it never replaces. After a successful reload by the
    manager wired to the transcoder, the prototype cache is empty and
    the pool and balancer are untouched; but every message type the
    transcoder resolved before resolves to the same descriptor, and for
    every service known before, every method lookup gives what it gave
    before: a changed or extended definition of a known service or
    message in the reloaded set is not seen. *)
Theorem reloadProtoset_never_replaces (cfg : ProtoHotReloadConfig)
    (infos : list ProtoSetInfo) (p p' : @HTTPProxy B)
    (files files' : gmap string (list byte)) (info : ProtoSetInfo) :
  reload_transcoder (transcoder_manager cfg infos) p files info = (p', files', None) ->
  msgCache p' = ∅ /\ connPool p' = connPool p /\ loadBalance p' = loadBalance p /\
  (forall fullName d,
     findFullMessageDescriptor NewFile_ok (protoLoader p) fullName = Some d ->
     findFullMessageDescriptor NewFile_ok (protoLoader p') fullName = Some d) /\
  (forall serviceName methodName,
     is_Some (FindServiceDescriptor (protoLoader p) serviceName) ->
     FindMethodDescriptor (protoLoader p') serviceName methodName
     = FindMethodDescriptor (protoLoader p) serviceName methodName).
Proof.
  intros Hreload.
  assert (exists loaded,
            p' = ClearMessageCache (set_protoLoader p (protoLoader p ++ loaded)%list))
    as [loaded ->].
  { destruct (reloadProtoset_appended _ _ _ _ _ _ _ _ _ _ _ _ _ Hreload)
      as [->|[loaded ->]].
    - exists []. rewrite app_nil_r. destruct p. reflexivity.
    - exists loaded. reflexivity. }
  cbn. repeat split.
  - intros fullName d Hfound. rewrite findFullMessageDescriptor_app, Hfound. reflexivity.
  - intros serviceName methodName [s Hfound].
    rewrite FindMethodDescriptor_app, Hfound. reflexivity.
Qed.

End HotReloadOverTranscoder.

Section HotReloadExamples.

Import Loader HttpProxy HotReload Examples.
Local Open Scope string_scope.

Lemma ReloadServiceProtoset_error_keeps_state_witness :
  exists files' err,
    ReloadServiceProtoset decode_newer request_ok repository_refuses temp_name
      copy_succeeds protoLoader set_protoLoader
      (transcoder_manager hot_reload_config [echo_protoset]) warm_proxy ∅ "echo.Echo"
    = (warm_proxy, files', Some err).
Proof.
  destruct (ReloadServiceProtoset decode_newer request_ok repository_refuses temp_name
              copy_succeeds protoLoader set_protoLoader
              (transcoder_manager hot_reload_config [echo_protoset]) warm_proxy ∅
              "echo.Echo") as [[p' files'] result] eqn:Hrun.
  assert (result = Some ("failed to download protoset from http://repo/echo.pb: "
                         ++ "download failed with status code 403")) as ->.
  { vm_compute in Hrun. injection Hrun as _ _ <-. reflexivity. }
  rewrite (ReloadServiceProtoset_error_keeps_state _ _ _ _ _ _ _ _ _ _ _ _ _ _ Hrun).
  eauto.
Defined.

Lemma reloadProtoset_removes_temp_file_witness :
  exists p',
    reloadProtoset decode_newer request_ok repository_serves temp_name
      copy_succeeds protoLoader set_protoLoader
      (transcoder_manager hot_reload_config [echo_protoset]) warm_proxy ∅ echo_protoset
    = (p', ∅, None).
Proof.
  destruct (reloadProtoset decode_newer request_ok repository_serves temp_name
              copy_succeeds protoLoader set_protoLoader
              (transcoder_manager hot_reload_config [echo_protoset]) warm_proxy ∅
              echo_protoset) as [[p' files'] result] eqn:Hrun.
  assert (result = None) as ->.
  { vm_compute in Hrun. injection Hrun as _ _ <-. reflexivity. }
  rewrite (reloadProtoset_removes_temp_file decode_newer request_ok repository_serves
             temp_name copy_succeeds protoLoader set_protoLoader _ _ _ _ _ _ _
             (fun name _ => lookup_empty name) Hrun).
  eauto.
Defined.

Lemma reloadProtoset_success_witness :
  exists body loaded,
    repository_serves "http://repo/echo.pb" (Some "Bearer secret") = inl (200%Z, body) /\
    decode_newer body = inl loaded.
Proof.
  destruct (reloadProtoset decode_newer request_ok repository_serves temp_name
              copy_succeeds protoLoader set_protoLoader
              (transcoder_manager hot_reload_config [echo_protoset]) warm_proxy ∅
              echo_protoset) as [[p' files'] result] eqn:Hrun.
  assert (result = None) as ->.
  { vm_compute in Hrun. injection Hrun as _ _ <-. reflexivity. }
  destruct (reloadProtoset_success _ _ _ _ _ _ _ _ _ _ _ _ _ Hrun) as (Hurl & _).
  destruct Hurl as (body & loaded & Hdo & Hdec & _); [discriminate 1|].
  exists body, loaded. split; [exact Hdo|exact Hdec].
Defined.

Lemma reloadProtoset_never_replaces_witness :
  exists p',
    reloadProtoset decode_newer request_ok repository_serves temp_name
      copy_succeeds protoLoader set_protoLoader
      (transcoder_manager hot_reload_config [echo_protoset]) warm_proxy ∅ echo_protoset
    = (p', ∅, None) /\
    msgCache p' = ∅ /\
    FindMethodDescriptor newer_files "echo.Echo" "Shout" <> None /\
    FindMethodDescriptor (protoLoader p') "echo.Echo" "Shout" = None.
Proof.
  destruct (reloadProtoset decode_newer request_ok repository_serves temp_name
              copy_succeeds protoLoader set_protoLoader
              (transcoder_manager hot_reload_config [echo_protoset]) warm_proxy ∅
              echo_protoset) as [[p' files'] result] eqn:Hrun.
  assert (files' = ∅ /\ result = None) as [-> ->].
  { vm_compute in Hrun. injection Hrun as _ <- <-. split; reflexivity. }
  destruct (reloadProtoset_never_replaces all_files_build _ _ _ _ _ _ _ _ _ _ _ _ Hrun)
    as (Hcache & _ & _ & _ & Hmethods).
  exists p'. split; [reflexivity|]. split; [exact Hcache|].
  split; [discriminate 1|].
  rewrite (Hmethods "echo.Echo" "Shout"); [reflexivity|eexists; reflexivity].
Defined.

End HotReloadExamples.

(** * Further properties of the HTTP handler *)
Section HandlerMore.

Import GoRun Registry Balancer Pool Loader HttpProxy HttpIngress.
Local Open Scope string_scope.

Context {B : Type} `{LoadBalancer B}.

Variable NewFile_ok : FileDescriptorProto -> bool.
Variable Unmarshal : list byte -> Message -> Message * option string.
Variable Marshal : Message -> list byte + string.
Variable Discover : string -> list ServiceInstance + string.
Variable dial_ok : Transport -> string -> bool.
Variable backend : positive -> string -> Message -> list byte + GoError.

Abbreviation handle :=
  (handleRequest NewFile_ok Unmarshal Marshal Discover dial_ok backend).

(** The tenant of a path has no effect: two requests with the same
    method and body whose paths parse to the same service and method are
    handled identically, whatever tenant either path names. *)
Theorem handleRequest_ignores_tenant (s : Server) (w : World) (r1 r2 : Request)
    (body : list byte) (req1 req2 : HTTPRequest) :
  URL_Path r1 <> "/health" -> URL_Path r2 <> "/health" ->
  Http_Method r1 = Http_Method r2 ->
  ReadAll_Body r1 = inl body -> ReadAll_Body r2 = inl body ->
  ParseHTTPRequest (URL_Path r1) body = inl req1 ->
  ParseHTTPRequest (URL_Path r2) body = inl req2 ->
  ServiceName req1 = ServiceName req2 ->
  MethodName req1 = MethodName req2 ->
  handle s w r1 = handle s w r2.
Proof.
  intros Hh1 Hh2 Hm Hb1 Hb2 Hp1 Hp2 Hs Hn. unfold handleRequest.
  apply String.eqb_neq in Hh1, Hh2.
  rewrite Hh1, Hh2, Hm, Hb1, Hb2, Hp1, Hp2, Hs, Hn. reflexivity.
Qed.

(** The handler's answers. Whatever it is sent, a response has status
    200, 400, 405 or 500. It answers 200 only to the health path or with
    the transcoder's bytes, which alone are labelled as JSON; and a
    request it answers with 400 or 405, or with 500 for want of a
    transcoder, has reached neither the transcoder nor a backend: the
    server and the world are as before. *)
Theorem handleRequest_responses (s s' : Server) (w w' : World) (r : Request)
    (resp : Response) :
  handle s w r = (s', w', Ret resp) ->
  (StatusCode resp = 200 /\
   ((URL_Path r = "/health" /\ Content_Type resp = None /\ s' = s /\ w' = w) \/
    (URL_Path r <> "/health" /\ Http_Method r = "POST" /\
     Content_Type resp = Some "application/json" /\
     exists bytes, Written resp = Bytes bytes))) \/
  (StatusCode resp = 400 /\ Content_Type resp = None /\ s' = s /\ w' = w /\
   Http_Method r = "POST" /\
   (is_Some (httpProxy s)) /\
   match ReadAll_Body r with
   | inr _ => True
   | inl body => exists err, ParseHTTPRequest (URL_Path r) body = inr err
   end) \/
  (StatusCode resp = 405 /\ Content_Type resp = None /\ s' = s /\ w' = w /\
   Http_Method r <> "POST") \/
  (StatusCode resp = 500 /\ Content_Type resp = None /\
   (httpProxy s = None -> s' = s /\ w' = w)).
Proof.
  unfold handleRequest.
  destruct (String.eqb_spec (URL_Path r) "/health") as [Hh|Hh].
  { intros [= <- <- <-]. left. cbn. auto 10. }
  destruct (httpProxy s) as [proxy|] eqn:Hproxy.
  2:{ intros [= <- <- <-]. right. right. right. cbn. auto. }
  destruct (String.eqb_spec (Http_Method r) "POST") as [Hm|Hm]; cbn [negb].
  2:{ intros [= <- <- <-]. right. right. left. cbn. auto 10. }
  destruct (ReadAll_Body r) as [body|err] eqn:Hbody.
  2:{ intros [= <- <- <-]. right. left. cbn. auto 10. }
  destruct (ParseHTTPRequest (URL_Path r) body) as [httpReq|err] eqn:Hparse.
  2:{ intros [= <- <- <-]. right. left. cbn. eauto 10. }
  destruct (ProxyHTTPRequest NewFile_ok Unmarshal Marshal Discover dial_ok backend
              proxy w (ServiceName httpReq) (MethodName httpReq) body)
    as [[proxy' w1] [[response|err]|reason]]; [| |discriminate 1].
  - intros [= <- <- <-]. left. cbn. split; [reflexivity|]. right. eauto 10.
  - intros [= <- <- <-]. right. right. right. cbn.
    split; [reflexivity|]. split; [reflexivity|]. discriminate 1.
Qed.

End HandlerMore.

Section HandlerMoreExamples.

Import GoRun Balancer HttpProxy HttpIngress Examples.
Local Open Scope string_scope.

Lemma handleRequest_ignores_tenant_witness :
  handleRequest all_files_build unmarshal_nonempty marshal_contents discover_echo
    reachable echo_backend (http_server plain_files) fresh_world
    (post "/rpc/tenant-a/echo.Echo/Say" ["a"%byte])
  = handleRequest all_files_build unmarshal_nonempty marshal_contents discover_echo
      reachable echo_backend (http_server plain_files) fresh_world
      (post "/rpc/echo.Echo/Say" ["a"%byte]).
Proof.
  apply (handleRequest_ignores_tenant all_files_build unmarshal_nonempty
           marshal_contents discover_echo reachable echo_backend
           (http_server plain_files) fresh_world
           (post "/rpc/tenant-a/echo.Echo/Say" ["a"%byte])
           (post "/rpc/echo.Echo/Say" ["a"%byte]) ["a"%byte]
           {| Tenant := "tenant-a"; ServiceName := "echo.Echo";
              MethodName := "Say"; Body := ["a"%byte] |}
           {| Tenant := ""; ServiceName := "echo.Echo";
              MethodName := "Say"; Body := ["a"%byte] |});
    try discriminate 1; try reflexivity; vm_compute; reflexivity.
Defined.

Lemma handleRequest_responses_witness :
  exists s' w' bytes,
    handleRequest all_files_build unmarshal_nonempty marshal_contents discover_echo
      reachable echo_backend (http_server plain_files) fresh_world
      (post "/rpc/echo.Echo/Say" ["a"%byte])
    = (s', w', Ret {| StatusCode := 200; Content_Type := Some "application/json";
                      Written := Bytes bytes |}).
Proof.
  destruct (handleRequest all_files_build unmarshal_nonempty marshal_contents
              discover_echo reachable echo_backend (http_server plain_files)
              fresh_world (post "/rpc/echo.Echo/Say" ["a"%byte]))
    as [[s' w'] result] eqn:Hrun.
  assert (exists resp, result = Ret resp /\ StatusCode resp = 200) as (resp & -> & Hcode).
  { vm_compute in Hrun. injection Hrun as _ _ <-. eexists. split; reflexivity. }
  destruct (handleRequest_responses _ _ _ _ _ _ _ _ _ _ _ _ Hrun)
    as [(_ & [(Hhealth & _)|(_ & _ & Hjson & bytes & Hbytes)])
       |[(Hc & _)|[(Hc & _)|(Hc & _)]]];
    try (rewrite Hcode in Hc; discriminate Hc).
  - discriminate Hhealth.
  - exists s', w', bytes. destruct resp as [code ctype written].
    cbn in Hcode, Hjson, Hbytes. subst. reflexivity.
Defined.

End HandlerMoreExamples.
